(** * Borland name demangler: the AST parser

    A shallow embedding of [BorlandASTParser]
    (src/demangler_llvm/borland_ast_parser.cpp) and the properties of its
    grammar rules: status discipline, cursor consumption, backreferences,
    bounded names, number fields and qualifiers. *)

From Stdlib Require Import Ascii String List ZArith Bool Arith Lia.
Import ListNotations.

Local Open Scope char_scope.
Local Open Scope nat_scope.
#[local] Set Warnings "-register-all".

(** * Data model *)

(** [BorlandASTParser::Status]. *)
Inductive Status : Type :=
| success
| invalid_mangled_name
| in_progress.

Definition Status_eqb (a b : Status) : bool :=
  match a, b with
  | success, success => true
  | invalid_mangled_name, invalid_mangled_name => true
  | in_progress, in_progress => true
  | _, _ => false
  end.

(** [Qualifiers], built in the source as [{is_volatile, is_const}]. *)
Record Qualifiers : Type := mkQualifiers {
  isVolatile : bool;
  isConst : bool
}.

Inductive CallConv : Type :=
| fastcall
| stdcall
| unknown.

Inductive ThreeStateSignness : Type :=
| signed_char
| unsigned_char
| no_prefix.

(** AST nodes.  A [std::shared_ptr<Node>] is a node together with the
    identity of the object it points to: the first field of every
    constructor is that identity, so two handles are the same handle exactly
    when the values are equal, and two separately created nodes of equal
    shape differ in it.  A null pointer is [None] of [option Node]. *)
Inductive Node : Type :=
| NameNode (id : nat) (name : string)
| NestedNameNode (id : nat) (super name : Node)
| TemplateNode (id : nat) (name params : Node)
| FunctionNode (id : nat) (name funcType : Node)
| FunctionTypeNode (id : nat) (callConv : CallConv)
    (params retType : option Node) (quals : Qualifiers)
| PointerTypeNode (id : nat) (pointee : Node) (quals : Qualifiers)
| ReferenceTypeNode (id : nat) (pointee : Node)
| RReferenceTypeNode (id : nat) (pointee : Node)
| ArrayNode (id : nat) (pointee : Node) (len : Z) (quals : Qualifiers)
| NamedTypeNode (id : nat) (name : Node) (quals : Qualifiers)
| BuiltInTypeNode (id : nat) (typeName : string) (quals : Qualifiers)
| CharTypeNode (id : nat) (signedness : ThreeStateSignness) (quals : Qualifiers)
| IntegralTypeNode (id : nat) (typeName : string) (isUnsigned : bool)
    (quals : Qualifiers)
| FloatTypeNode (id : nat) (typeName : string) (quals : Qualifiers)
| NodeArray (id : nat) (nodes : list Node).

(** [Node::Kind], as far as the parser asks for it. *)
Inductive Kind : Type :=
| KName | KNestedName | KTemplateNode | KFunction | KFunctionType
| KPointerType | KReferenceType | KRReferenceType | KArrayNode
| KNamedType | KBuiltInType | KCharType | KIntegralType | KFloatType
| KNodeArray.

Definition kind (n : Node) : Kind :=
  match n with
  | NameNode _ _ => KName
  | NestedNameNode _ _ _ => KNestedName
  | TemplateNode _ _ _ => KTemplateNode
  | FunctionNode _ _ _ => KFunction
  | FunctionTypeNode _ _ _ _ _ => KFunctionType
  | PointerTypeNode _ _ _ => KPointerType
  | ReferenceTypeNode _ _ => KReferenceType
  | RReferenceTypeNode _ _ => KRReferenceType
  | ArrayNode _ _ _ _ => KArrayNode
  | NamedTypeNode _ _ _ => KNamedType
  | BuiltInTypeNode _ _ _ => KBuiltInType
  | CharTypeNode _ _ _ => KCharType
  | IntegralTypeNode _ _ _ _ => KIntegralType
  | FloatTypeNode _ _ _ => KFloatType
  | NodeArray _ _ => KNodeArray
  end.

Definition isKReferenceType (n : Node) : bool :=
  match kind n with KReferenceType => true | _ => false end.

Definition isKRReferenceType (n : Node) : bool :=
  match kind n with KRReferenceType => true | _ => false end.

(** The identity of the object a handle points to. *)
Definition nodeId (n : Node) : nat :=
  match n with
  | NameNode i _ | NestedNameNode i _ _ | TemplateNode i _ _
  | FunctionNode i _ _ | FunctionTypeNode i _ _ _ _ | PointerTypeNode i _ _
  | ReferenceTypeNode i _ | RReferenceTypeNode i _ | ArrayNode i _ _ _
  | NamedTypeNode i _ _ | BuiltInTypeNode i _ _ | CharTypeNode i _ _
  | IntegralTypeNode i _ _ _ | FloatTypeNode i _ _ | NodeArray i _ => i
  end.

(** A [StringView]: two positions into the character buffer it views. *)
Record StringView : Type := mkStringView {
  First : nat;
  Last : nat
}.

(** Reads that the cursor's contract forbids; the parser state records each
    one as it happens. *)
Inductive Fault : Type :=
| FrontOnEmpty   (* [front()] of an empty view *)
| DerefAtEnd.    (* [*c] with [c] at or past [_mangled.end()] *)

(** The parser object: the members [_status], [_mangled] and [_ast], the
    next free node identity of the factory, and the recorded faults. *)
Record PState : Type := mkPState {
  _mangled : StringView;
  _status : Status;
  _ast : option Node;
  nextId : nat;
  faults : list Fault
}.

Definition set_mangled (v : StringView) (st : PState) : PState :=
  mkPState v (_status st) (_ast st) (nextId st) (faults st).

Definition set_status (s : Status) (st : PState) : PState :=
  mkPState (_mangled st) s (_ast st) (nextId st) (faults st).

Definition set_ast (a : option Node) (st : PState) : PState :=
  mkPState (_mangled st) (_status st) a (nextId st) (faults st).

Definition add_fault (f : Fault) (st : PState) : PState :=
  mkPState (_mangled st) (_status st) (_ast st) (nextId st) (f :: faults st).

(** * The parser monad

    A rule is a function of the parser state; [None] is a computation that
    has not finished within the fuel it was given. *)
Definition M (A : Type) : Type := PState -> option (A * PState).

Definition ret {A : Type} (a : A) : M A := fun st => Some (a, st).

Definition bind {A B : Type} (m : M A) (f : A -> M B) : M B :=
  fun st => match m st with
            | Some (a, st') => f a st'
            | None => None
            end.

Definition outOfFuel {A : Type} : M A := fun _ => None.

Notation "x <- m ;; k" := (bind m (fun x => k))
  (at level 61, m at next level, right associativity).
Notation "m ;;; k" := (bind m (fun _ => k))
  (at level 61, right associativity).

(** What a loop body tells its loop: go round again with the list as it is
    now, or leave the loop with a value. *)
Inductive LoopCtl (R : Type) : Type :=
| Continue (params : list Node)
| Exit (r : R).
Arguments Continue {R} params.
Arguments Exit {R} r.

Definition UINT_WIDTH : Z := 32.

(** [unsigned] arithmetic wraps modulo [2^32]. *)
Definition wrapUnsigned (z : Z) : Z := (z mod 2 ^ UINT_WIDTH)%Z.

Definition isDigit (c : ascii) : bool :=
  (nat_of_ascii "0" <=? nat_of_ascii c) && (nat_of_ascii c <=? nat_of_ascii "9").

(** [static_cast<unsigned>(c - '0')]. *)
Definition digitValue (c : ascii) : Z :=
  wrapUnsigned (Z.of_nat (nat_of_ascii c) - Z.of_nat (nat_of_ascii "0")).

Fixpoint list_ascii_eqb (a b : list ascii) : bool :=
  match a, b with
  | [], [] => true
  | x :: a', y :: b' => Ascii.eqb x y && list_ascii_eqb a' b'
  | _, _ => false
  end.

Section WithBuffer.

(** The characters of the mangled name; the cursor [_mangled] views them.
    The buffer comes from [std::string::c_str()], so the position just past
    the last character holds the terminating NUL. *)
Variable buf : list ascii.

(** [*p] for a position [p] of the buffer. *)
Definition charAt (p : nat) : ascii := nth p buf Ascii.zero.

(** ** StringView *)

(** Modelled from the spec: the [StringView] class (llvm/Demangle/StringView.h)
    is not among the sources; [empty], [size], [front], [dropFront],
    [popFront], [startsWith] and [cutUntil] below follow the Input Cursor
    contracts of the specification. *)
Definition sv_empty (v : StringView) : bool := First v =? Last v.

Definition sv_size (v : StringView) : nat := Last v - First v.

Definition sv_front (v : StringView) : ascii := charAt (First v).

Definition sv_dropFront (n : nat) (v : StringView) : StringView :=
  mkStringView (First v + Nat.min n (sv_size v)) (Last v).

Definition sv_popFront (v : StringView) : ascii * StringView :=
  (charAt (First v), mkStringView (S (First v)) (Last v)).

(** The characters a view covers. *)
Definition sv_chars (v : StringView) : list ascii :=
  firstn (sv_size v) (skipn (First v) buf).

Definition sv_startsWith_char (c : ascii) (v : StringView) : bool :=
  negb (sv_empty v) && Ascii.eqb (sv_front v) c.

Definition sv_startsWith (s : list ascii) (v : StringView) : bool :=
  (List.length s <=? sv_size v) &&
  list_ascii_eqb s (firstn (List.length s) (skipn (First v) buf)).

(** Position of the first [c] at or after [p] and before [last], scanning
    at most [k] characters. *)
Fixpoint sv_find (k : nat) (c : ascii) (p last : nat) : option nat :=
  match k with
  | O => None
  | S k' => if p <? last
            then if Ascii.eqb (charAt p) c then Some p
                 else sv_find k' c (S p) last
            else None
  end.

(** Modelled from the spec: [cutUntil] gives the prefix strictly before the next [c], which is dropped
    from the view while [c] itself stays; the empty view and nothing
    consumed when there is no [c]. *)
Definition sv_cutUntil (c : ascii) (v : StringView) : StringView * StringView :=
  match sv_find (sv_size v) c (First v) (Last v) with
  | Some p => (mkStringView (First v) p, mkStringView p (Last v))
  | None => (mkStringView (First v) (First v), v)
  end.

(** ** Cursor and status primitives of the parser *)

Definition getMangled : M StringView := fun st => Some (_mangled st, st).

Definition setMangled (v : StringView) : M unit :=
  fun st => Some (tt, set_mangled v st).

Definition getStatus : M Status := fun st => Some (_status st, st).

Definition setStatus (s : Status) : M unit :=
  fun st => Some (tt, set_status s st).

Definition recordFault (f : Fault) : M unit :=
  fun st => Some (tt, add_fault f st).

(** [_mangled.empty()]. *)
Definition empty : M bool :=
  v <- getMangled ;; ret (sv_empty v).

(** [_mangled.front()]: the character under [begin()].  On an empty view
    the class asserts; with assertions compiled out the read gives the
    character just past the view, which for [_mangled] is the terminating
    NUL of the buffer.  The rule goes on with that character and the read is
    recorded. *)
Definition front : M ascii :=
  v <- getMangled ;;
  (if sv_empty v then recordFault FrontOnEmpty else ret tt) ;;;
  ret (sv_front v).

(** [*c] for a raw pointer [c] into the buffer. *)
Definition deref (c : nat) : M ascii :=
  v <- getMangled ;;
  (if Last v <=? c then recordFault DerefAtEnd else ret tt) ;;;
  ret (charAt c).

(** [_mangled.consumeFront(c)]. *)
Definition consumeFront (c : ascii) : M bool :=
  v <- getMangled ;;
  if sv_startsWith_char c v
  then setMangled (sv_dropFront 1 v) ;;; ret true
  else ret false.

(** [_mangled.consumeFront(s)] for a view or literal with characters [s]. *)
Definition consumeFront_sv (s : list ascii) : M bool :=
  v <- getMangled ;;
  if sv_startsWith s v
  then setMangled (sv_dropFront (List.length s) v) ;;; ret true
  else ret false.

(** [_mangled.cutUntil(c)], returning the view that was cut off. *)
Definition cutUntil (c : ascii) : M StringView :=
  v <- getMangled ;;
  let (cut, rest) := sv_cutUntil c v in
  setMangled rest ;;; ret cut.

Definition peekChar (c : ascii) : M bool :=
  v <- getMangled ;;
  if negb (sv_empty v) then ret (Ascii.eqb (sv_front v) c) else ret false.

Definition statusOk : M bool :=
  s <- getStatus ;; ret (Status_eqb s in_progress).

Definition checkResult (node : option Node) : M bool :=
  s <- getStatus ;;
  match node with
  | None => setStatus invalid_mangled_name ;;; ret false
  | Some _ =>
      if Status_eqb s invalid_mangled_name
      then setStatus invalid_mangled_name ;;; ret false
      else ret true
  end.

Definition consumeIfPossible (c : ascii) : M bool := consumeFront c.

Definition consumeIfPossible_sv (s : list ascii) : M bool := consumeFront_sv s.

Definition consume (c : ascii) : M bool :=
  b <- consumeFront c ;;
  if negb b then setStatus invalid_mangled_name ;;; ret false else ret true.

Definition consume_sv (s : list ascii) : M bool :=
  b <- consumeFront_sv s ;;
  if negb b then setStatus invalid_mangled_name ;;; ret false else ret true.

(** ** Node factory *)

(** Modelled from the spec: the node classes and the [Context] they are
    created through are not among the sources.  Every [create] yields a
    handle to a new object; the factory is free to intern, and no rule of
    the parser relies on two creations giving different handles. *)
Definition newId : M nat :=
  fun st => Some (nextId st,
                  mkPState (_mangled st) (_status st) (_ast st)
                           (S (nextId st)) (faults st)).

Definition create (mk : nat -> Node) : M Node :=
  i <- newId ;; ret (mk i).

Definition createPtr (mk : nat -> Node) : M (option Node) :=
  n <- create mk ;; ret (Some n).

(** [NameNode::create(view)]. *)
Definition viewText (v : StringView) : string :=
  string_of_list_ascii (sv_chars v).

(** ** Numbers *)

(** The digit loop shared by [peekNumber] (on a copy of the cursor) and
    [parseNumber] (on the cursor itself):
    [while (!v.empty() && v.front() >= '0' && v.front() <= '9')
       { c = v.popFront(); acc = 10 * acc + (c - '0'); }].
    [k] bounds the iterations by the size of the view. *)
Fixpoint numberLoop (k : nat) (v : StringView) (acc : Z) : StringView * Z :=
  match k with
  | O => (v, acc)
  | S k' =>
      if negb (sv_empty v) && isDigit (sv_front v)
      then let (c, v') := sv_popFront v in
           numberLoop k' v' (wrapUnsigned (10 * acc + digitValue c))
      else (v, acc)
  end.

Definition peekNumber : M Z :=
  mangledCopy <- getMangled ;;
  if negb (sv_empty mangledCopy)
  then if Ascii.eqb (sv_front mangledCopy) "0"
       then ret 0%Z
       else ret (snd (numberLoop (sv_size mangledCopy) mangledCopy 0%Z))
  else ret 0%Z.

Definition parseNumber : M Z :=
  v <- getMangled ;;
  if negb (sv_empty v)
  then if Ascii.eqb (sv_front v) "0"
       then setStatus invalid_mangled_name ;;; ret 0%Z
       else let (v', acc) := numberLoop (sv_size v) v 0%Z in
            setMangled v' ;;; ret acc
  else ret 0%Z.

(** ** Grammar rules *)

Definition parseQualifiers : M Qualifiers :=
  is_volatile <- consumeIfPossible "w" ;;
  is_const <- consumeIfPossible "x" ;;
  ret (mkQualifiers is_volatile is_const).

Definition parseCallConv : M CallConv :=
  b <- consumeFront_sv (list_ascii_of_string "qqr") ;;
  if b then ret fastcall else
  b <- consumeFront_sv (list_ascii_of_string "qqs") ;;
  if b then ret stdcall else
  b <- consumeFront_sv (list_ascii_of_string "q") ;;
  if b then ret unknown else
  setStatus invalid_mangled_name ;;; ret unknown.

Definition parseBuildInType (quals : Qualifiers) : M (option Node) :=
  b <- consumeIfPossible "o" ;;
  if b then createPtr (fun i => BuiltInTypeNode i "bool" quals) else
  b <- consumeIfPossible "b" ;;
  if b then createPtr (fun i => BuiltInTypeNode i "wchar_t" quals) else
  b <- consumeIfPossible "v" ;;
  if b then createPtr (fun i => BuiltInTypeNode i "void" quals) else
  (* char types *)
  b <- consumeIfPossible_sv (list_ascii_of_string "zc") ;;
  if b then createPtr (fun i => CharTypeNode i signed_char quals) else
  b <- consumeIfPossible_sv (list_ascii_of_string "uc") ;;
  if b then createPtr (fun i => CharTypeNode i unsigned_char quals) else
  b <- consumeIfPossible "c" ;;
  if b then createPtr (fun i => CharTypeNode i no_prefix quals) else
  (* integral types *)
  isUnsigned <- consumeIfPossible "u" ;;
  b <- consumeIfPossible "s" ;;
  if b then createPtr (fun i => IntegralTypeNode i "short" isUnsigned quals) else
  b <- consumeIfPossible "i" ;;
  if b then createPtr (fun i => IntegralTypeNode i "int" isUnsigned quals) else
  b <- consumeIfPossible "l" ;;
  if b then createPtr (fun i => IntegralTypeNode i "long" isUnsigned quals) else
  b <- consumeIfPossible "j" ;;
  if b then createPtr (fun i => IntegralTypeNode i "long long" isUnsigned quals) else
  if isUnsigned then setStatus invalid_mangled_name ;;; ret None else
  (* float types *)
  b <- consumeIfPossible "f" ;;
  if b then createPtr (fun i => FloatTypeNode i "float" quals) else
  b <- consumeIfPossible "d" ;;
  if b then createPtr (fun i => FloatTypeNode i "double" quals) else
  b <- consumeIfPossible "g" ;;
  if b then createPtr (fun i => FloatTypeNode i "long double" quals) else
  ret None.        (* did nothing *)

(** [params->addNode(params->get(backref - 1))]; every caller has checked
    [0 < backref <= params->size()] before. *)
Definition addBackref (params : list Node) (backref : Z) : list Node :=
  match nth_error params (Z.to_nat (backref - 1)) with
  | Some node => params ++ [node]
  | None => params
  end.

(** [params->empty() ? nullptr : params] for the array object [id]. *)
Definition arrayOrNull (id : nat) (params : list Node) : option Node :=
  match params with
  | [] => None
  | _ => Some (NodeArray id params)
  end.

Section Rules.

(** The rules call each other through [parseType]; [parseType_rec] stands
    for that call and [fuel] bounds the iterations of the list loops. *)
Variable parseType_rec : M (option Node).
Variable fuel : nat.

(** Body of the loop of [parseFuncParams]. *)
Definition parseFuncParams_body (params : list Node)
  : M (LoopCtl (option Node)) :=
  t <- consumeIfPossible "t" ;;
  if t then
    backref <- parseNumber ;;
    ok <- statusOk ;;
    if (backref =? 0)%Z || (Z.of_nat (List.length params) <? backref)%Z || negb ok
    then setStatus invalid_mangled_name ;;; ret (Exit None)
    else
      let params' := addBackref params backref in
      ok <- statusOk ;;
      if negb ok then ret (Exit None) else ret (Continue params')
  else
    param <- parseType_rec ;;
    ok <- statusOk ;;
    let params' := match param with
                   | Some p => if ok then params ++ [p] else params
                   | None => params
                   end in
    ok <- statusOk ;;
    if negb ok then ret (Exit None) else ret (Continue params').

(** [while (!_mangled.empty() && statusOk() && !peekChar('$'))]. *)
Fixpoint parseFuncParams_loop (k : nat) (id : nat) (params : list Node)
  : M (option Node) :=
  match k with
  | O => outOfFuel
  | S k' =>
      e <- empty ;;
      ok <- statusOk ;;
      d <- peekChar "$" ;;
      if negb e && ok && negb d then
        ctl <- parseFuncParams_body params ;;
        match ctl with
        | Continue params' => parseFuncParams_loop k' id params'
        | Exit r => ret r
        end
      else ret (arrayOrNull id params)
  end.

Definition parseFuncParams : M (option Node) :=
  id <- newId ;;
  parseFuncParams_loop fuel id [].

Definition parseFuncType (quals : Qualifiers) : M (option Node) :=
  (* function calling convention *)
  callConv <- parseCallConv ;;
  ok <- statusOk ;;
  if negb ok then ret None else
  (* parameters *)
  paramsNode <- parseFuncParams ;;
  ok <- statusOk ;;
  if negb ok then ret None else
  (* return type *)
  d <- consumeIfPossible "$" ;;
  if d then
    retType <- parseType_rec ;;
    ok <- checkResult retType ;;
    if negb ok then ret None
    else createPtr (fun i => FunctionTypeNode i callConv paramsNode retType quals)
  else createPtr (fun i => FunctionTypeNode i callConv paramsNode None quals).

Definition parsePointer (quals : Qualifiers) : M (option Node) :=
  pointeeType <- parseType_rec ;;
  ok <- checkResult pointeeType ;;
  if negb ok then ret None else
  match pointeeType with
  | Some p => createPtr (fun i => PointerTypeNode i p quals)
  | None => ret None    (* not reached: [checkResult] refuses a null node *)
  end.

Definition parseReference : M (option Node) :=
  d <- consumeIfPossible "$" ;;
  if d then    (* must be reference to function *)
    let fakeQuals := mkQualifiers false false in
    funcType <- parseFuncType fakeQuals ;;
    ok <- checkResult funcType ;;
    if negb ok then ret None else
    match funcType with
    | Some f => createPtr (fun i => ReferenceTypeNode i f)
    | None => ret None
    end
  else
    referencedType <- parseType_rec ;;
    ok <- checkResult referencedType ;;
    if negb ok then ret None else
    match referencedType with
    | Some t =>
        if isKReferenceType t || isKRReferenceType t
        then ret None
        else createPtr (fun i => ReferenceTypeNode i t)
    | None => ret None
    end.

Definition parseRReference : M (option Node) :=
  d <- consumeIfPossible "$" ;;
  if d then    (* must be reference to function *)
    let fakeQuals := mkQualifiers false false in
    funcType <- parseFuncType fakeQuals ;;
    ok <- checkResult funcType ;;
    if negb ok then ret None else
    match funcType with
    | Some f => createPtr (fun i => RReferenceTypeNode i f)
    | None => ret None
    end
  else
    referencedType <- parseType_rec ;;
    match referencedType with
    | Some t =>
        if isKReferenceType t
        then setStatus invalid_mangled_name ;;; ret None
        else createPtr (fun i => RReferenceTypeNode i t)
    | None => setStatus invalid_mangled_name ;;; ret None
    end.

Definition parseArray (quals : Qualifiers) : M (option Node) :=
  len <- parseNumber ;;
  if (len =? 0)%Z then setStatus invalid_mangled_name ;;; ret None else
  ok <- consume "$" ;;
  if negb ok then ret None else
  arrType <- parseType_rec ;;
  ok <- checkResult arrType ;;
  if negb ok then ret None else
  match arrType with
  | Some t => createPtr (fun i => ArrayNode i t len quals)
  | None => ret None
  end.

(** [name = name ? NestedNameNode::create(name, nameNode) : nameNode] for
    [nameNode = NameNode::create(nameView)]. *)
Definition appendName (name : option Node) (nameView : StringView)
  : M (option Node) :=
  nameNode <- create (fun i => NameNode i (viewText nameView)) ;;
  match name with
  | None => ret (Some nameNode)
  | Some n => createPtr (fun i => NestedNameNode i n nameNode)
  end.

(** Body of the loop of the bounded [parseTemplate]; [Exit] is its [break]. *)
Definition parseTemplate_end_body (params : list Node)
  : M (LoopCtl (list Node)) :=
  t <- consumeIfPossible "t" ;;
  resolved <-
    (if t then
       backref <- peekNumber ;;
       if (0 <? backref)%Z && (backref <=? Z.of_nat (List.length params))%Z
       then parseNumber ;;; ret (Some (addBackref params backref))
       else ret None
     else ret None) ;;
  match resolved with
  | Some params' => ret (Continue params')    (* continue *)
  | None =>
      typeNode <- parseType_rec ;;
      s <- getStatus ;;
      match typeNode with
      | Some n => if Status_eqb s invalid_mangled_name
                  then ret (Exit params)
                  else ret (Continue (params ++ [n]))
      | None => ret (Exit params)
      end
  end.

(** [while (!peekChar('%'))]. *)
Fixpoint parseTemplate_end_loop (k : nat) (params : list Node)
  : M (list Node) :=
  match k with
  | O => outOfFuel
  | S k' =>
      p <- peekChar "%" ;;
      if negb p then
        ctl <- parseTemplate_end_body params ;;
        match ctl with
        | Continue params' => parseTemplate_end_loop k' params'
        | Exit r => ret r
        end
      else ret params
  end.

(** [parseTemplate(templateNamespace, end)]. *)
Definition parseTemplate_end (templateNamespace : option Node) (end_ : nat)
  : M (option Node) :=
  ok <- consume "%" ;;
  if negb ok then ret None else
  templateName <- cutUntil "$" ;;
  if sv_empty templateName
  then setStatus invalid_mangled_name ;;; ret None else
  nameNode <- create (fun i => NameNode i (viewText templateName)) ;;
  templateNameNode <-
    match templateNamespace with
    | Some ns => create (fun i => NestedNameNode i ns nameNode)
    | None => ret nameNode
    end ;;
  ok <- consume "$" ;;
  if negb ok then ret None else
  id <- newId ;;
  params <- parseTemplate_end_loop fuel [] ;;
  ok <- consume "%" ;;
  if negb ok then ret None else
  v <- getMangled ;;
  if negb (First v =? end_)
  then setStatus invalid_mangled_name ;;; ret None
  else createPtr (fun i => TemplateNode i templateNameNode (NodeArray id params)).

(** The scan of [parseName]: [while (c < end) { ... ++c; }], leaving with
    the values of [start], [c] and [name].  [k] bounds the iterations by
    [end - c]. *)
Fixpoint parseName_loop (k : nat) (end_ start c : nat) (name : option Node)
  : M (nat * nat * option Node) :=
  match k with
  | O => ret (start, c, name)
  | S k' =>
      if c <? end_ then
        ch <- deref c ;;
        if Ascii.eqb ch "%" || Ascii.eqb ch "@" then
          let nameView := mkStringView start c in
          sn <- (if negb (sv_empty nameView) then
                   consumeFront_sv (sv_chars nameView) ;;;  (* propagate to mangled *)
                   name' <- appendName name nameView ;;
                   ret (S c, name')
                 else ret (start, name)) ;;
          f <- front ;;
          if Ascii.eqb f "@"
          then consumeFront "@" ;;; parseName_loop k' end_ (fst sn) (S c) (snd sn)
          else ret (fst sn, c, snd sn)    (* break *)
        else parseName_loop k' end_ start (S c) name
      else ret (start, c, name)
  end.

Definition parseName (endMangled : nat) : M (option Node) :=
  v <- getMangled ;;
  let start := First v in
  let end_ := endMangled in
  let c := First v in
  r <- parseName_loop (end_ - c) end_ start c None ;;
  let '(start, c, name) := r in
  name <- (if c =? end_ then    (* parse remainder as name *)
             let nameView := mkStringView start c in
             consumeFront_sv (sv_chars nameView) ;;;
             appendName name nameView
           else ret name) ;;
  p <- peekChar "%" ;;
  if p && negb (c =? end_) then parseTemplate_end name end_ else ret name.

Definition parseNamedType (nameLen : Z) (quals : Qualifiers)
  : M (option Node) :=
  v <- getMangled ;;
  let end_named := First v + Z.to_nat nameLen in
  if Last v <? end_named
  then setStatus invalid_mangled_name ;;; ret None else
  nameNode <- parseName end_named ;;
  match nameNode with
  | None => setStatus invalid_mangled_name ;;; ret None
  | Some n => createPtr (fun i => NamedTypeNode i n quals)
  end.

(** The body of [parseType]. *)
Definition parseType_body : M (option Node) :=
  (* qualifiers *)
  quals <- parseQualifiers ;;
  b <- consumeIfPossible "p" ;;
  if b then parsePointer quals else
  b <- consumeIfPossible "r" ;;
  if b then
    if isConst quals || isVolatile quals
    then setStatus invalid_mangled_name ;;; ret None
    else parseReference
  else
  b <- consumeIfPossible "h" ;;
  if b then
    if isConst quals || isVolatile quals
    then setStatus invalid_mangled_name ;;; ret None
    else parseRReference
  else
  b <- consumeFront "a" ;;
  if b then parseArray quals else
  b <- peekChar "q" ;;
  if b then parseFuncType quals else
  (* named type *)
  len <- parseNumber ;;
  s <- getStatus ;;
  if Status_eqb s invalid_mangled_name then ret None else
  if (0 <? len)%Z then parseNamedType len quals else
  (* must be built-in type *)
  parseBuildInType quals.

Definition parseTemplateName (templateNamespace : option Node)
  : M (option Node) :=
  templateName <- cutUntil "$" ;;
  if sv_empty templateName
  then setStatus invalid_mangled_name ;;; ret None else
  templateNameNode <- create (fun i => NameNode i (viewText templateName)) ;;
  match templateNamespace with
  | Some ns => createPtr (fun i => NestedNameNode i ns templateNameNode)
  | None => ret (Some templateNameNode)
  end.

(** Body of the loop of [parseTemplateParams]. *)
Definition parseTemplateParams_body (params : list Node)
  : M (LoopCtl (option Node)) :=
  t <- consumeFront "t" ;;
  resolved <-
    (if t then
       backref <- peekNumber ;;
       if (0 <? backref)%Z && (backref <=? Z.of_nat (List.length params))%Z
       then parseNumber ;;; ret (Some (addBackref params backref))
       else ret None
     else ret None) ;;
  match resolved with
  | Some params' => ret (Continue params')    (* continue *)
  | None =>
      typeNode <- parseType_rec ;;
      ok <- statusOk ;;
      if negb ok then ret (Exit None) else
      match typeNode with
      | Some n => ret (Continue (params ++ [n]))
      | None => ret (Continue params)
      end
  end.

(** [while (_mangled.front() != '%')]. *)
Fixpoint parseTemplateParams_loop (k : nat) (id : nat) (params : list Node)
  : M (option Node) :=
  match k with
  | O => outOfFuel
  | S k' =>
      f <- front ;;
      if negb (Ascii.eqb f "%") then
        ctl <- parseTemplateParams_body params ;;
        match ctl with
        | Continue params' => parseTemplateParams_loop k' id params'
        | Exit r => ret r
        end
      else ret (arrayOrNull id params)
  end.

Definition parseTemplateParams : M (option Node) :=
  id <- newId ;;
  parseTemplateParams_loop fuel id [].

(** [parseTemplate(templateNamespace)]. *)
Definition parseTemplate (templateNamespace : option Node)
  : M (option Node) :=
  ok <- consume "%" ;;
  if negb ok then ret None else
  templateNameNode <- parseTemplateName templateNamespace ;;
  ok <- checkResult templateNameNode ;;
  if negb ok then ret None else
  ok <- consume "$" ;;
  if negb ok then ret None else
  params <- parseTemplateParams ;;
  ok <- checkResult params ;;
  if negb ok then ret None else
  ok <- consume "%" ;;
  if negb ok then ret None else
  match templateNameNode, params with
  | Some n, Some ps => createPtr (fun i => TemplateNode i n ps)
  | _, _ => ret None
  end.

(** The scan of [parseFuncName]: [while (c <= end) { ... ++c; }], leaving
    with the value of [name].  [k] bounds the iterations by [end - c + 1]. *)
Fixpoint parseFuncName_loop (k : nat) (end_ start c : nat)
  (name : option Node) : M (option Node) :=
  match k with
  | O => ret name
  | S k' =>
      if c <=? end_ then
        ch <- deref c ;;
        if Ascii.eqb ch "$" || Ascii.eqb ch "%" || Ascii.eqb ch "@" then
          let nameView := mkStringView start c in
          sn <- (if negb (sv_empty nameView) then
                   consumeFront_sv (sv_chars nameView) ;;;  (* propagate to mangled *)
                   name' <- appendName name nameView ;;
                   ret (S c, name')
                 else ret (start, name)) ;;
          f <- front ;;
          if Ascii.eqb f "@"
          then consumeFront "@" ;;;
               parseFuncName_loop k' end_ (fst sn) (S c) (snd sn)
          else ret (snd sn)    (* break *)
        else parseFuncName_loop k' end_ start (S c) name
      else ret name
  end.

Definition parseFuncName : M (option Node) :=
  v <- getMangled ;;
  let start := First v in
  let end_ := Last v in
  let c := First v in
  name <- parseFuncName_loop (S (end_ - c)) end_ start c None ;;
  f <- front ;;
  name <- (if Ascii.eqb f "%" then parseTemplate name else ret name) ;;
  checkResult name ;;;
  ret name.

Definition setAst (a : option Node) : M unit :=
  fun st => Some (tt, set_ast a st).

Definition parseFunction : M unit :=
  (* name part *)
  consume "@" ;;;
  absNameNode <- parseFuncName ;;
  ok <- checkResult absNameNode ;;
  if negb ok then ret tt else
  ok <- consume "$" ;;
  if negb ok then ret tt else
  quals <- parseQualifiers ;;
  funcType <- parseFuncType quals ;;
  ok <- checkResult funcType ;;
  if negb ok then ret tt else
  e <- empty ;;
  if negb e then setStatus invalid_mangled_name else
  setStatus success ;;;
  match absNameNode, funcType with
  | Some n, Some f =>
      a <- createPtr (fun i => FunctionNode i n f) ;; setAst a
  | _, _ => ret tt
  end.

(** Main method of the parser: tries to create the AST, sets the status. *)
Definition parse : M unit :=
  at_ <- peekChar "@" ;;
  (if at_ then parseFunction else ret tt) ;;;
  e <- empty ;;
  if negb e then setStatus invalid_mangled_name else ret tt.

End Rules.

(** [parseType], with [n] bounding the depth of the calls of the rules
    through it and the iterations of their loops. *)
Fixpoint parseType (n : nat) : M (option Node) :=
  match n with
  | O => outOfFuel
  | S n' => parseType_body (parseType n') n'
  end.

End WithBuffer.

(** The parser object as the constructor leaves it: [None] when the parse
    has not finished within [fuel]. *)
Definition initialState (mangled : list ascii) : PState :=
  mkPState (mkStringView 0 (List.length mangled)) in_progress None 0 [].

Definition BorlandASTParser (fuel : nat) (mangled : string) : option PState :=
  let buf := list_ascii_of_string mangled in
  match parse buf (parseType buf fuel) fuel (initialState buf) with
  | Some (_, st) => Some st
  | None => None
  end.

(** [BorlandASTParser::status()]. *)
Definition status (st : PState) : Status := _status st.

(** [BorlandASTParser::ast()]. *)
Definition ast (st : PState) : option Node :=
  if Status_eqb (_status st) success then _ast st else None.

(** The part of the input the cursor has not consumed. *)
Definition remaining (mangled : string) (st : PState) : list ascii :=
  sv_chars (list_ascii_of_string mangled) (_mangled st).

(** * Properties *)

(** ** Predicates the properties are stated with *)

(** The status register moves, if at all, to [invalid_mangled_name]. *)
Definition StatusMono {A : Type} (m : M A) : Prop :=
  forall st a st', m st = Some (a, st') ->
    _status st' = _status st \/ _status st' = invalid_mangled_name.

(** Every result of [m1] is the result of [m2]. *)
Definition Below {A : Type} (m1 m2 : M A) : Prop :=
  forall st r, m1 st = Some r -> m2 st = Some r.

(** A state in which [parseType] gives back a null node, leaves the parser
    as it was and consumes nothing (or has not finished). *)
Definition typeStuckAt (parseType_rec : M (option Node)) (st : PState) : Prop :=
  parseType_rec st = None \/ parseType_rec st = Some (None, st).

Definition isTemplateNode (o : option Node) : bool :=
  match o with
  | Some (TemplateNode _ _ _) => true
  | _ => false
  end.

(** A rule relates the state it starts in to the state it leaves. *)
Definition Respects (R : PState -> PState -> Prop) {A : Type} (m : M A) : Prop :=
  forall st a st', m st = Some (a, st') -> R st st'.

(** What a relation between states needs for every grammar rule below
    [parseFunction] to respect it: it is a preorder, and the steps that
    change the state (recording a fault, setting [invalid_mangled_name],
    taking a node identity, consuming from the cursor) respect it. *)
Record Frame (buf : list ascii) (R : PState -> PState -> Prop) : Prop := mkFrame {
  frame_refl : forall st, R st st;
  frame_trans : forall a b c, R a b -> R b c -> R a c;
  frame_fault : forall f st, R st (add_fault f st);
  frame_invalid : forall st, R st (set_status invalid_mangled_name st);
  frame_newId : Respects R newId;
  frame_consumeFront : forall c, Respects R (consumeFront buf c);
  frame_consumeFront_sv : forall s, Respects R (consumeFront_sv buf s);
  frame_cutUntil : forall c, Respects R (cutUntil buf c);
  frame_parseNumber : Respects R (parseNumber buf)
}.

(** The cursor is a view of the buffer: it ends where the buffer ends and
    does not start after its end. *)
Definition cursorOk (buf : list ascii) (st : PState) : Prop :=
  Last (_mangled st) = List.length buf /\
  First (_mangled st) <= Last (_mangled st).

(** The cursor keeps its end, does not move back, and stays a view. *)
Definition cursorStep (st st' : PState) : Prop :=
  Last (_mangled st') = Last (_mangled st) /\
  First (_mangled st) <= First (_mangled st') /\
  (First (_mangled st) <= Last (_mangled st) ->
   First (_mangled st') <= Last (_mangled st')).

(** The member [_ast] is left alone. *)
Definition astKept (st st' : PState) : Prop := _ast st' = _ast st.

Definition isBuiltInKind (n : Node) : bool :=
  match kind n with
  | KBuiltInType | KCharType | KIntegralType | KFloatType => true
  | _ => false
  end.

(** The qualifiers a node carries, for the kinds that carry them. *)
Definition nodeQuals (n : Node) : option Qualifiers :=
  match n with
  | FunctionTypeNode _ _ _ _ q | PointerTypeNode _ _ q | ArrayNode _ _ _ q
  | NamedTypeNode _ _ q | BuiltInTypeNode _ _ q | CharTypeNode _ _ q
  | IntegralTypeNode _ _ _ q | FloatTypeNode _ _ q => Some q
  | _ => None
  end.

(** [st'] is [st] with [n] characters consumed from the cursor. *)
Definition consumed (n : nat) (st st' : PState) : Prop :=
  st' = set_mangled (mkStringView (First (_mangled st) + n)
                                  (Last (_mangled st))) st.

(** The characters on which [parseType] consumes or fails: the qualifiers,
    the type constructors, 'q', the digits and the first characters of the
    built-in types ('z' counts only when followed by 'c'). *)
Definition startsType (c : ascii) : bool :=
  existsb (Ascii.eqb c) (list_ascii_of_string "wxprhaqobvucsiljfdg")
  || isDigit c.

(** A type can start at the cursor: it is not empty and its first
    character is one of [startsType], or it starts with the two characters
    of [signed char]. *)
Definition typeAhead (buf : list ascii) (v : StringView) : bool :=
  negb (sv_empty v)
  && (startsType (sv_front buf v)
      || sv_startsWith buf (list_ascii_of_string "zc") v).

(** No reference refers to a reference: inside the node, a
    [ReferenceTypeNode] has no reference of either kind directly under it,
    and an [RReferenceTypeNode] no [ReferenceTypeNode]. *)
Fixpoint refsOk (n : Node) : bool :=
  match n with
  | NestedNameNode _ a b | TemplateNode _ a b | FunctionNode _ a b =>
      refsOk a && refsOk b
  | FunctionTypeNode _ _ params retType _ =>
      match params with Some p => refsOk p | None => true end
      && match retType with Some t => refsOk t | None => true end
  | PointerTypeNode _ p _ | ArrayNode _ p _ _ | NamedTypeNode _ p _ => refsOk p
  | ReferenceTypeNode _ p =>
      negb (isKReferenceType p) && negb (isKRReferenceType p) && refsOk p
  | RReferenceTypeNode _ p => negb (isKReferenceType p) && refsOk p
  | NodeArray _ nodes => forallb refsOk nodes
  | NameNode _ _ | BuiltInTypeNode _ _ _ | CharTypeNode _ _ _
  | IntegralTypeNode _ _ _ _ | FloatTypeNode _ _ _ => true
  end.

Definition refsOk_opt (o : option Node) : bool :=
  match o with Some n => refsOk n | None => true end.

Definition refsOk_ctl {R : Type} (ok : R -> bool) (c : LoopCtl R) : bool :=
  match c with
  | Continue params => forallb refsOk params
  | Exit r => ok r
  end.

(** Every value [m] returns satisfies [P]. *)
Definition Returns {A : Type} (P : A -> Prop) (m : M A) : Prop :=
  forall st a st', m st = Some (a, st') -> P a.

(** The qualifiers of a type node are [quals]; a reference carries none,
    and stands for the case in which none were parsed. *)
Definition carriesQuals (quals : Qualifiers) (n : Node) : Prop :=
  match n with
  | ReferenceTypeNode _ _ | RReferenceTypeNode _ _ =>
      quals = mkQualifiers false false
  | _ => nodeQuals n = Some quals
  end.

(** The first characters of the built-in types, by the kind of node. *)
Definition builtinLetter (n : Node) (c : ascii) : Prop :=
  match n with
  | BuiltInTypeNode _ _ _ => In c (list_ascii_of_string "obv")
  | CharTypeNode _ _ _ => In c (list_ascii_of_string "zuc")
  | IntegralTypeNode _ _ _ _ => In c (list_ascii_of_string "usilj")
  | FloatTypeNode _ _ _ => In c (list_ascii_of_string "fdg")
  | _ => False
  end.

(** The type node [n] comes from a type whose first character after the
    qualifiers is [c].  A node of a built-in kind starts with the letter of
    its kind, or follows a number field (whose first character is a digit
    other than '0'). *)
Definition typeNodeAt (c : ascii) (n : Node) : Prop :=
  match n with
  | PointerTypeNode _ _ _ => c = "p"%char
  | ReferenceTypeNode _ _ => c = "r"%char
  | RReferenceTypeNode _ _ => c = "h"%char
  | ArrayNode _ _ len _ => c = "a"%char /\ (0 < len)%Z
  | FunctionTypeNode _ _ _ _ _ => c = "q"%char
  | NamedTypeNode _ _ _ => isDigit c = true /\ c <> "0"%char
  | BuiltInTypeNode _ _ _ | CharTypeNode _ _ _ | IntegralTypeNode _ _ _ _
  | FloatTypeNode _ _ _ =>
      builtinLetter n c \/ (isDigit c = true /\ c <> "0"%char)
  | _ => False
  end.

Definition typeShape (c : ascii) (quals : Qualifiers) (o : option Node)
  : Prop :=
  match o with
  | Some n => carriesQuals quals n /\ typeNodeAt c n
  | None => True
  end.

(** ** Number fields as written *)

(** The value of a digit character. *)
Definition digitOf (c : ascii) : Z :=
  Z.of_nat (nat_of_ascii c) - Z.of_nat (nat_of_ascii "0").

(** The number a run of decimal digits denotes, continuing from [acc]. *)
Definition decimalFrom (acc : Z) (digits : list ascii) : Z :=
  fold_left (fun a c => 10 * a + digitOf c)%Z digits acc.

(** The declared number of a field, following the specification's words for
    [peekNumber]: the full decimal value of the run of digits, without any
    bound. *)
Definition decimalValue (digits : list ascii) : Z := decimalFrom 0 digits.

(** The characters of the buffer at the positions [a], ..., [e - 1]. *)
Definition charsBetween (buf : list ascii) (a e : nat) : list ascii :=
  firstn (e - a) (skipn a buf).

(** A number field at the front of the view [v], ending before position
    [e]: a non-empty, maximal run of digits inside the view that does not
    begin with '0'. *)
Definition numberField (buf : list ascii) (v : StringView) (e : nat) : Prop :=
  First v < e <= Last v
  /\ Last v <= List.length buf
  /\ charAt buf (First v) <> "0"%char
  /\ (forall p, First v <= p < e -> isDigit (charAt buf p) = true)
  /\ (e = Last v \/ isDigit (charAt buf e) = false).

(** The kind of node the characters of the type constructors stand for. *)
Definition constructorKind (c : ascii) : option Kind :=
  if Ascii.eqb c "p" then Some KPointerType
  else if Ascii.eqb c "r" then Some KReferenceType
  else if Ascii.eqb c "h" then Some KRReferenceType
  else if Ascii.eqb c "a" then Some KArrayNode
  else if Ascii.eqb c "q" then Some KFunctionType
  else None.

(** [IterationOf buf rec params st params' st']: the argument loop of the
    bounded [parseTemplate], started with the list [params] in the state
    [st], begins an iteration with the list [params'] in the state [st'].
    An iteration is followed by another one when the loop condition holds
    (the cursor is not at '%') and the body ends in [continue]. *)
Inductive IterationOf (buf : list ascii) (rec : M (option Node))
  : list Node -> PState -> list Node -> PState -> Prop :=
| iteration_first (params : list Node) (st : PState) :
    IterationOf buf rec params st params st
| iteration_next (params params1 params2 : list Node) (st st1 st2 : PState) :
    peekChar buf "%" st = Some (false, st) ->
    parseTemplate_end_body buf rec params st = Some (Continue params1, st1) ->
    IterationOf buf rec params1 st1 params2 st2 ->
    IterationOf buf rec params st params2 st2.

(** ** Scenarios of the specification *)

Example scenario_invalid_backref :
  option_map status (BorlandASTParser 8 "@x$qit2") = Some invalid_mangled_name.
Proof. vm_compute. reflexivity. Qed.

Example scenario_function_of_int :
  option_map (fun st => (status st, ast st)) (BorlandASTParser 8 "@foo$qi")
  = Some (success,
          Some (FunctionNode 4 (NameNode 0 "foo")
             (FunctionTypeNode 3 unknown
                (Some (NodeArray 1
                   [IntegralTypeNode 2 "int" false (mkQualifiers false false)]))
                None (mkQualifiers false false)))).
Proof. vm_compute. reflexivity. Qed.

Example scenario_const_pointer :
  let buf := list_ascii_of_string "xpi" in
  parseType buf 8 (initialState buf)
  = Some (Some (PointerTypeNode 1
                  (IntegralTypeNode 0 "int" false (mkQualifiers false false))
                  (mkQualifiers false true)),
          mkPState (mkStringView 3 3) in_progress None 2 []).
Proof. vm_compute. reflexivity. Qed.

Example scenario_template_name :
  option_map (fun st => (status st, ast st))
    (BorlandASTParser 8 "@cont%item$i%$qv")
  = Some (success,
          Some (FunctionNode 9
             (TemplateNode 5
                (NestedNameNode 2 (NameNode 0 "cont") (NameNode 1 "item"))
                (NodeArray 3
                   [IntegralTypeNode 4 "int" false (mkQualifiers false false)]))
             (FunctionTypeNode 8 unknown
                (Some (NodeArray 6
                   [BuiltInTypeNode 7 "void" (mkQualifiers false false)]))
                None (mkQualifiers false false)))).
Proof. vm_compute. reflexivity. Qed.

(** [unsigned] wraps: the length 4294967297 is read as 1. *)
Example number_wraps :
  let buf := list_ascii_of_string "4294967297i" in
  parseNumber buf (initialState buf)
  = Some (1%Z, set_mangled (mkStringView 10 11) (initialState buf)).
Proof. vm_compute. reflexivity. Qed.

(** ** Monad and primitive facts *)

Lemma bind_None {A B : Type} (m : M A) (f : A -> M B) (st : PState) :
  m st = None -> bind m f st = None.
Proof. intros H. unfold bind. now rewrite H. Qed.

Lemma bind_Some {A B : Type} (m : M A) (f : A -> M B) (st st' : PState) (a : A) :
  m st = Some (a, st') -> bind m f st = f a st'.
Proof. intros H. unfold bind. now rewrite H. Qed.

Lemma bind_inv {A B : Type} (m : M A) (f : A -> M B) (st st'' : PState) (b : B) :
  bind m f st = Some (b, st'') ->
  exists a st', m st = Some (a, st') /\ f a st' = Some (b, st'').
Proof.
  unfold bind. destruct (m st) as [[a st']|]; [|discriminate].
  intros H. now exists a, st'.
Qed.

(** Splits a finished [x <- m ;; k] into its two finished halves. *)
Tactic Notation "binv" hyp(H) "as" ident(a) ident(s) ident(H1) :=
  apply bind_inv in H; destruct H as (a & s & H1 & H).

Lemma ret_inv {A : Type} (a b : A) (st st' : PState) :
  ret a st = Some (b, st') -> b = a /\ st' = st.
Proof. intros H. inversion H. auto. Qed.

Lemma setInvalid_ret_inv {A : Type} (a b : A) (st st' : PState) :
  (setStatus invalid_mangled_name ;;; ret a) st = Some (b, st') ->
  b = a /\ _status st' = invalid_mangled_name.
Proof. intros H. inversion H. auto. Qed.

Lemma consume_inv (buf : list ascii) (c : ascii) (st st' : PState) (b : bool) :
  consume buf c st = Some (b, st') ->
  b = false -> _status st' = invalid_mangled_name.
Proof.
  unfold consume. intros H Hb. binv H as b0 s0 H0.
  destruct b0; cbn [negb] in H.
  - apply ret_inv in H. destruct H. congruence.
  - apply setInvalid_ret_inv in H. now destruct H.
Qed.

Lemma consumeFront_hit (buf : list ascii) (c : ascii) (st : PState) :
  sv_startsWith_char buf c (_mangled st) = true ->
  consumeFront buf c st
  = Some (true, set_mangled (sv_dropFront 1 (_mangled st)) st).
Proof.
  intros H. unfold consumeFront, getMangled, setMangled, bind, ret.
  now rewrite H.
Qed.

Lemma consumeFront_miss (buf : list ascii) (c : ascii) (st : PState) :
  sv_startsWith_char buf c (_mangled st) = false ->
  consumeFront buf c st = Some (false, st).
Proof.
  intros H. unfold consumeFront, getMangled, setMangled, bind, ret.
  now rewrite H.
Qed.

Lemma checkResult_inv (node : option Node) (st st' : PState) (b : bool) :
  checkResult node st = Some (b, st') ->
  b = false -> _status st' = invalid_mangled_name.
Proof.
  unfold checkResult. intros H Hb. binv H as s0 s1 Hs.
  destruct node; [destruct (Status_eqb s0 invalid_mangled_name)|].
  - apply setInvalid_ret_inv in H. now destruct H.
  - apply ret_inv in H. destruct H. congruence.
  - apply setInvalid_ret_inv in H. now destruct H.
Qed.

(** ** The status register only ever moves to [invalid_mangled_name]
       inside the grammar rules *)

Create HintDb mono.

Lemma mono_ret {A : Type} (a : A) : StatusMono (ret a).
Proof. intros st a' st' H. inversion H; subst. now left. Qed.

Lemma mono_outOfFuel {A : Type} : StatusMono (@outOfFuel A).
Proof. intros st a st' H. discriminate H. Qed.

Lemma mono_bind {A B : Type} (m : M A) (f : A -> M B) :
  StatusMono m -> (forall a, StatusMono (f a)) -> StatusMono (bind m f).
Proof.
  intros Hm Hf st b st'' H.
  apply bind_inv in H. destruct H as (a & st' & H1 & H2).
  apply Hm in H1. apply Hf in H2.
  destruct H2 as [H2|H2]; [|now right].
  rewrite H2. exact H1.
Qed.

Lemma mono_getMangled : StatusMono getMangled.
Proof. intros st a st' H. inversion H; subst. now left. Qed.

Lemma mono_setMangled (v : StringView) : StatusMono (setMangled v).
Proof. intros st a st' H. inversion H; subst. now left. Qed.

Lemma mono_getStatus : StatusMono getStatus.
Proof. intros st a st' H. inversion H; subst. now left. Qed.

Lemma mono_setStatus_invalid : StatusMono (setStatus invalid_mangled_name).
Proof. intros st a st' H. inversion H; subst. now right. Qed.

Lemma mono_recordFault (f : Fault) : StatusMono (recordFault f).
Proof. intros st a st' H. inversion H; subst. now left. Qed.

Lemma mono_newId : StatusMono newId.
Proof. intros st a st' H. inversion H; subst. now left. Qed.

#[local] Hint Resolve mono_getMangled mono_setMangled mono_getStatus
  mono_setStatus_invalid mono_recordFault mono_newId : mono.

(** One step of a proof that a rule is [StatusMono], along its shape. *)
Ltac mono_step :=
  match goal with
  | |- StatusMono (bind _ _) => apply mono_bind; [|intro]
  | |- StatusMono (ret _) => apply mono_ret
  | |- StatusMono outOfFuel => apply mono_outOfFuel
  | |- StatusMono (if ?b then _ else _) => destruct b
  | |- StatusMono (match ?x with _ => _ end) => destruct x
  | |- StatusMono _ => solve [auto with mono]
  end.

Ltac mono := cbv zeta; repeat mono_step.

Section StatusMonoRules.

Variable buf : list ascii.

Lemma mono_empty : StatusMono empty.
Proof. unfold empty. mono. Qed.

Lemma mono_front : StatusMono (front buf).
Proof. unfold front. mono. Qed.

Lemma mono_deref (c : nat) : StatusMono (deref buf c).
Proof. unfold deref. mono. Qed.

Lemma mono_consumeFront (c : ascii) : StatusMono (consumeFront buf c).
Proof. unfold consumeFront. mono. Qed.

Lemma mono_consumeFront_sv (s : list ascii) : StatusMono (consumeFront_sv buf s).
Proof. unfold consumeFront_sv. mono. Qed.

Lemma mono_cutUntil (c : ascii) : StatusMono (cutUntil buf c).
Proof. unfold cutUntil. mono. Qed.

Lemma mono_peekChar (c : ascii) : StatusMono (peekChar buf c).
Proof. unfold peekChar. mono. Qed.

Lemma mono_statusOk : StatusMono statusOk.
Proof. unfold statusOk. mono. Qed.

Lemma mono_checkResult (node : option Node) : StatusMono (checkResult node).
Proof. unfold checkResult. mono. Qed.

Hint Resolve mono_empty mono_front mono_deref mono_consumeFront
  mono_consumeFront_sv mono_cutUntil mono_peekChar mono_statusOk
  mono_checkResult : mono.

Lemma mono_consumeIfPossible (c : ascii) : StatusMono (consumeIfPossible buf c).
Proof. unfold consumeIfPossible. mono. Qed.

Lemma mono_consumeIfPossible_sv (s : list ascii) :
  StatusMono (consumeIfPossible_sv buf s).
Proof. unfold consumeIfPossible_sv. mono. Qed.

Lemma mono_consume (c : ascii) : StatusMono (consume buf c).
Proof. unfold consume. mono. Qed.

Lemma mono_create (mk : nat -> Node) : StatusMono (create mk).
Proof. unfold create. mono. Qed.

Hint Resolve mono_consumeIfPossible mono_consumeIfPossible_sv mono_consume
  mono_create : mono.

Lemma mono_createPtr (mk : nat -> Node) : StatusMono (createPtr mk).
Proof. unfold createPtr. mono. Qed.

Lemma mono_peekNumber : StatusMono (peekNumber buf).
Proof. unfold peekNumber. mono. Qed.

Lemma mono_parseNumber : StatusMono (parseNumber buf).
Proof. unfold parseNumber. mono. Qed.

Lemma mono_parseQualifiers : StatusMono (parseQualifiers buf).
Proof. unfold parseQualifiers. mono. Qed.

Lemma mono_parseCallConv : StatusMono (parseCallConv buf).
Proof. unfold parseCallConv. mono. Qed.

Hint Resolve mono_createPtr mono_peekNumber mono_parseNumber
  mono_parseQualifiers mono_parseCallConv : mono.

Lemma mono_parseBuildInType (quals : Qualifiers) :
  StatusMono (parseBuildInType buf quals).
Proof. unfold parseBuildInType. mono. Qed.

Lemma mono_appendName (name : option Node) (v : StringView) :
  StatusMono (appendName buf name v).
Proof. unfold appendName. mono. Qed.

Hint Resolve mono_parseBuildInType mono_appendName : mono.

Section WithRec.

Variable parseType_rec : M (option Node).
Variable fuel : nat.
Hypothesis mono_rec : StatusMono parseType_rec.

Hint Resolve mono_rec : mono.

Lemma mono_parseFuncParams_body (params : list Node) :
  StatusMono (parseFuncParams_body buf parseType_rec params).
Proof. unfold parseFuncParams_body. mono. Qed.

Hint Resolve mono_parseFuncParams_body : mono.

Lemma mono_parseFuncParams_loop (k id : nat) (params : list Node) :
  StatusMono (parseFuncParams_loop buf parseType_rec k id params).
Proof.
  revert params. induction k as [|k IH]; intros params; cbn [parseFuncParams_loop].
  - mono.
  - mono.
Qed.

Hint Resolve mono_parseFuncParams_loop : mono.

Lemma mono_parseFuncParams : StatusMono (parseFuncParams buf parseType_rec fuel).
Proof. unfold parseFuncParams. mono. Qed.

Hint Resolve mono_parseFuncParams : mono.

Lemma mono_parseFuncType (quals : Qualifiers) :
  StatusMono (parseFuncType buf parseType_rec fuel quals).
Proof. unfold parseFuncType. mono. Qed.

Hint Resolve mono_parseFuncType : mono.

Lemma mono_parsePointer (quals : Qualifiers) :
  StatusMono (parsePointer parseType_rec quals).
Proof. unfold parsePointer. mono. Qed.

Lemma mono_parseReference :
  StatusMono (parseReference buf parseType_rec fuel).
Proof. unfold parseReference. mono. Qed.

Lemma mono_parseRReference :
  StatusMono (parseRReference buf parseType_rec fuel).
Proof. unfold parseRReference. mono. Qed.

Lemma mono_parseArray (quals : Qualifiers) :
  StatusMono (parseArray buf parseType_rec quals).
Proof. unfold parseArray. mono. Qed.

Hint Resolve mono_parsePointer mono_parseReference mono_parseRReference
  mono_parseArray : mono.

Lemma mono_parseTemplate_end_body (params : list Node) :
  StatusMono (parseTemplate_end_body buf parseType_rec params).
Proof. unfold parseTemplate_end_body. mono. Qed.

Hint Resolve mono_parseTemplate_end_body : mono.

Lemma mono_parseTemplate_end_loop (k : nat) (params : list Node) :
  StatusMono (parseTemplate_end_loop buf parseType_rec k params).
Proof.
  revert params. induction k as [|k IH]; intros params;
    cbn [parseTemplate_end_loop]; mono.
Qed.

Hint Resolve mono_parseTemplate_end_loop : mono.

Lemma mono_parseTemplate_end (ns : option Node) (end_ : nat) :
  StatusMono (parseTemplate_end buf parseType_rec fuel ns end_).
Proof. unfold parseTemplate_end. mono. Qed.

Hint Resolve mono_parseTemplate_end : mono.

Lemma mono_parseName_loop (k end_ start c : nat) (name : option Node) :
  StatusMono (parseName_loop buf k end_ start c name).
Proof.
  revert start c name. induction k as [|k IH]; intros start c name;
    cbn [parseName_loop]; mono.
Qed.

Hint Resolve mono_parseName_loop : mono.

Lemma mono_parseName (endMangled : nat) :
  StatusMono (parseName buf parseType_rec fuel endMangled).
Proof. unfold parseName. mono. Qed.

Hint Resolve mono_parseName : mono.

Lemma mono_parseNamedType (nameLen : Z) (quals : Qualifiers) :
  StatusMono (parseNamedType buf parseType_rec fuel nameLen quals).
Proof. unfold parseNamedType. mono. Qed.

Hint Resolve mono_parseNamedType : mono.

Lemma mono_parseType_body : StatusMono (parseType_body buf parseType_rec fuel).
Proof. unfold parseType_body. mono. Qed.

Lemma mono_parseTemplateName (ns : option Node) :
  StatusMono (parseTemplateName buf ns).
Proof. unfold parseTemplateName. mono. Qed.

Lemma mono_parseTemplateParams_body (params : list Node) :
  StatusMono (parseTemplateParams_body buf parseType_rec params).
Proof. unfold parseTemplateParams_body. mono. Qed.

Hint Resolve mono_parseTemplateName mono_parseTemplateParams_body : mono.

Lemma mono_parseTemplateParams_loop (k id : nat) (params : list Node) :
  StatusMono (parseTemplateParams_loop buf parseType_rec k id params).
Proof.
  revert params. induction k as [|k IH]; intros params;
    cbn [parseTemplateParams_loop]; mono.
Qed.

Hint Resolve mono_parseTemplateParams_loop : mono.

Lemma mono_parseTemplateParams :
  StatusMono (parseTemplateParams buf parseType_rec fuel).
Proof. unfold parseTemplateParams. mono. Qed.

Hint Resolve mono_parseTemplateParams : mono.

Lemma mono_parseTemplate (ns : option Node) :
  StatusMono (parseTemplate buf parseType_rec fuel ns).
Proof. unfold parseTemplate. mono. Qed.

Hint Resolve mono_parseTemplate : mono.

Lemma mono_parseFuncName_loop (k end_ start c : nat) (name : option Node) :
  StatusMono (parseFuncName_loop buf k end_ start c name).
Proof.
  revert start c name. induction k as [|k IH]; intros start c name;
    cbn [parseFuncName_loop]; mono.
Qed.

Hint Resolve mono_parseFuncName_loop : mono.

Lemma mono_parseFuncName : StatusMono (parseFuncName buf parseType_rec fuel).
Proof. unfold parseFuncName. mono. Qed.

End WithRec.

Lemma mono_parseType (n : nat) : StatusMono (parseType buf n).
Proof.
  induction n as [|n IH]; cbn [parseType].
  - apply mono_outOfFuel.
  - now apply mono_parseType_body.
Qed.

End StatusMonoRules.

(** ** More fuel never changes a result *)

Create HintDb below.

Lemma below_refl {A : Type} (m : M A) : Below m m.
Proof. intros st r H. exact H. Qed.

Lemma below_outOfFuel {A : Type} (m : M A) : Below outOfFuel m.
Proof. intros st r H. discriminate H. Qed.

Lemma below_bind {A B : Type} (m1 m2 : M A) (f1 f2 : A -> M B) :
  Below m1 m2 -> (forall a, Below (f1 a) (f2 a)) ->
  Below (bind m1 f1) (bind m2 f2).
Proof.
  intros Hm Hf st r H. destruct r as [b st''].
  apply bind_inv in H. destruct H as (a & st' & H1 & H2).
  apply Hm in H1. apply Hf in H2.
  now rewrite (bind_Some _ _ _ _ _ H1).
Qed.

Ltac below_step :=
  match goal with
  | |- Below ?m ?m => apply below_refl
  | |- Below (bind _ _) (bind _ _) => apply below_bind; [|intro]
  | |- Below outOfFuel _ => apply below_outOfFuel
  | |- Below (if ?b then _ else _) (if ?b then _ else _) => destruct b
  | |- Below (match ?x with _ => _ end) (match ?x with _ => _ end) => destruct x
  | |- Below _ _ => solve [auto with below]
  end.

Ltac below := cbv zeta; repeat below_step.

Section FuelMonotone.

Variable buf : list ascii.
Variables rec1 rec2 : M (option Node).
Variables fuel1 fuel2 : nat.
Hypothesis below_rec : Below rec1 rec2.
Hypothesis fuel_le : fuel1 <= fuel2.

Hint Resolve below_rec : below.

Lemma below_parseFuncParams_body (params : list Node) :
  Below (parseFuncParams_body buf rec1 params)
        (parseFuncParams_body buf rec2 params).
Proof. unfold parseFuncParams_body. below. Qed.

Hint Resolve below_parseFuncParams_body : below.

Lemma below_parseFuncParams_loop (k1 : nat) :
  forall (k2 id : nat) (params : list Node), k1 <= k2 ->
    Below (parseFuncParams_loop buf rec1 k1 id params)
          (parseFuncParams_loop buf rec2 k2 id params).
Proof.
  induction k1 as [|k1 IH]; intros k2 id params Hk; [apply below_outOfFuel|].
  destruct k2 as [|k2]; [lia|]. cbn [parseFuncParams_loop].
  assert (Hk' : k1 <= k2) by lia. specialize (IH k2). below.
Qed.

Hint Resolve below_parseFuncParams_loop : below.

Lemma below_parseFuncParams :
  Below (parseFuncParams buf rec1 fuel1) (parseFuncParams buf rec2 fuel2).
Proof. unfold parseFuncParams. below. Qed.

Hint Resolve below_parseFuncParams : below.

Lemma below_parseFuncType (quals : Qualifiers) :
  Below (parseFuncType buf rec1 fuel1 quals) (parseFuncType buf rec2 fuel2 quals).
Proof. unfold parseFuncType. below. Qed.

Hint Resolve below_parseFuncType : below.

Lemma below_parsePointer (quals : Qualifiers) :
  Below (parsePointer rec1 quals) (parsePointer rec2 quals).
Proof. unfold parsePointer. below. Qed.

Lemma below_parseReference :
  Below (parseReference buf rec1 fuel1) (parseReference buf rec2 fuel2).
Proof. unfold parseReference. below. Qed.

Lemma below_parseRReference :
  Below (parseRReference buf rec1 fuel1) (parseRReference buf rec2 fuel2).
Proof. unfold parseRReference. below. Qed.

Lemma below_parseArray (quals : Qualifiers) :
  Below (parseArray buf rec1 quals) (parseArray buf rec2 quals).
Proof. unfold parseArray. below. Qed.

Hint Resolve below_parsePointer below_parseReference below_parseRReference
  below_parseArray : below.

Lemma below_parseTemplate_end_body (params : list Node) :
  Below (parseTemplate_end_body buf rec1 params)
        (parseTemplate_end_body buf rec2 params).
Proof. unfold parseTemplate_end_body. below. Qed.

Hint Resolve below_parseTemplate_end_body : below.

Lemma below_parseTemplate_end_loop (k1 : nat) :
  forall (k2 : nat) (params : list Node), k1 <= k2 ->
    Below (parseTemplate_end_loop buf rec1 k1 params)
          (parseTemplate_end_loop buf rec2 k2 params).
Proof.
  induction k1 as [|k1 IH]; intros k2 params Hk; [apply below_outOfFuel|].
  destruct k2 as [|k2]; [lia|]. cbn [parseTemplate_end_loop].
  assert (Hk' : k1 <= k2) by lia. specialize (IH k2). below.
Qed.

Hint Resolve below_parseTemplate_end_loop : below.

Lemma below_parseTemplate_end (ns : option Node) (end_ : nat) :
  Below (parseTemplate_end buf rec1 fuel1 ns end_)
        (parseTemplate_end buf rec2 fuel2 ns end_).
Proof. unfold parseTemplate_end. below. Qed.

Hint Resolve below_parseTemplate_end : below.

Lemma below_parseName (endMangled : nat) :
  Below (parseName buf rec1 fuel1 endMangled)
        (parseName buf rec2 fuel2 endMangled).
Proof. unfold parseName. below. Qed.

Hint Resolve below_parseName : below.

Lemma below_parseNamedType (nameLen : Z) (quals : Qualifiers) :
  Below (parseNamedType buf rec1 fuel1 nameLen quals)
        (parseNamedType buf rec2 fuel2 nameLen quals).
Proof. unfold parseNamedType. below. Qed.

Hint Resolve below_parseNamedType : below.

Lemma below_parseType_body :
  Below (parseType_body buf rec1 fuel1) (parseType_body buf rec2 fuel2).
Proof. unfold parseType_body. below. Qed.

Lemma below_parseTemplateParams_body (params : list Node) :
  Below (parseTemplateParams_body buf rec1 params)
        (parseTemplateParams_body buf rec2 params).
Proof. unfold parseTemplateParams_body. below. Qed.

Hint Resolve below_parseTemplateParams_body : below.

Lemma below_parseTemplateParams_loop (k1 : nat) :
  forall (k2 id : nat) (params : list Node), k1 <= k2 ->
    Below (parseTemplateParams_loop buf rec1 k1 id params)
          (parseTemplateParams_loop buf rec2 k2 id params).
Proof.
  induction k1 as [|k1 IH]; intros k2 id params Hk; [apply below_outOfFuel|].
  destruct k2 as [|k2]; [lia|]. cbn [parseTemplateParams_loop].
  assert (Hk' : k1 <= k2) by lia. specialize (IH k2). below.
Qed.

Hint Resolve below_parseTemplateParams_loop : below.

Lemma below_parseTemplateParams :
  Below (parseTemplateParams buf rec1 fuel1) (parseTemplateParams buf rec2 fuel2).
Proof. unfold parseTemplateParams. below. Qed.

Hint Resolve below_parseTemplateParams : below.

Lemma below_parseTemplate (ns : option Node) :
  Below (parseTemplate buf rec1 fuel1 ns) (parseTemplate buf rec2 fuel2 ns).
Proof. unfold parseTemplate. below. Qed.

Hint Resolve below_parseTemplate : below.

Lemma below_parseFuncName :
  Below (parseFuncName buf rec1 fuel1) (parseFuncName buf rec2 fuel2).
Proof. unfold parseFuncName. below. Qed.

Hint Resolve below_parseFuncName : below.

Lemma below_parseFunction :
  Below (parseFunction buf rec1 fuel1) (parseFunction buf rec2 fuel2).
Proof. unfold parseFunction. below. Qed.

Hint Resolve below_parseFunction : below.

Lemma below_parse :
  Below (parse buf rec1 fuel1) (parse buf rec2 fuel2).
Proof. unfold parse. below. Qed.

End FuelMonotone.

Lemma below_parseType (buf : list ascii) (n : nat) :
  forall m, n <= m -> Below (parseType buf n) (parseType buf m).
Proof.
  induction n as [|n IH]; intros m Hm; [apply below_outOfFuel|].
  destruct m as [|m]; [lia|]. cbn [parseType].
  apply below_parseType_body; [apply IH|]; lia.
Qed.

(** A result reached with some fuel is the result with any more fuel. *)
Lemma BorlandASTParser_fuel_monotone (fuel fuel' : nat) (mangled : string)
  (st : PState) :
  fuel <= fuel' ->
  BorlandASTParser fuel mangled = Some st ->
  BorlandASTParser fuel' mangled = Some st.
Proof.
  intros Hle. unfold BorlandASTParser.
  destruct (parse _ (parseType _ fuel) fuel _) as [[u st0]|] eqn:E; [|discriminate].
  intros H. inversion H; subst.
  apply (below_parse _ _ _ _ _ (below_parseType _ fuel fuel' Hle) Hle) in E.
  now rewrite E.
Qed.

(** ** Divergence of the list loops *)

Section Stuck.

Variable buf : list ascii.
Variable parseType_rec : M (option Node).

Lemma parseFuncParams_loop_stuck (k id : nat) (params : list Node) (st : PState) :
  _status st = in_progress ->
  sv_empty (_mangled st) = false ->
  Ascii.eqb (sv_front buf (_mangled st)) "$" = false ->
  Ascii.eqb (sv_front buf (_mangled st)) "t" = false ->
  typeStuckAt parseType_rec st ->
  parseFuncParams_loop buf parseType_rec k id params st = None.
Proof.
  intros Hs He Hd Ht Hstuck.
  induction k as [|k IH]; [reflexivity|].
  cbn [parseFuncParams_loop].
  unfold bind at 1, empty, getMangled, bind, ret. rewrite He. cbn [negb andb].
  unfold statusOk, getStatus, bind, ret. rewrite Hs. cbn [Status_eqb andb].
  unfold peekChar, getMangled, bind, ret. rewrite He, Hd. cbn [negb andb].
  unfold parseFuncParams_body, consumeIfPossible, consumeFront, getMangled,
    bind, ret, sv_startsWith_char.
  rewrite He, Ht. cbn [negb andb].
  destruct Hstuck as [H|H]; rewrite H; [reflexivity|].
  unfold statusOk, getStatus, bind, ret. rewrite Hs. cbn [Status_eqb negb].
  exact IH.
Qed.

Lemma parseTemplateParams_loop_stuck (k id : nat) (params : list Node)
  (st : PState) :
  _status st = in_progress ->
  sv_empty (_mangled st) = false ->
  Ascii.eqb (sv_front buf (_mangled st)) "%" = false ->
  Ascii.eqb (sv_front buf (_mangled st)) "t" = false ->
  typeStuckAt parseType_rec st ->
  parseTemplateParams_loop buf parseType_rec k id params st = None.
Proof.
  intros Hs He Hd Ht Hstuck.
  induction k as [|k IH]; [reflexivity|].
  cbn [parseTemplateParams_loop].
  unfold front, recordFault, getMangled, bind, ret. rewrite He, Hd. cbn [negb].
  unfold parseTemplateParams_body, consumeFront, getMangled,
    bind, ret, sv_startsWith_char.
  rewrite He, Ht. cbn [negb andb].
  destruct Hstuck as [H|H]; rewrite H; [reflexivity|].
  unfold statusOk, getStatus, bind, ret. rewrite Hs. cbn [Status_eqb negb].
  exact IH.
Qed.

End Stuck.

Lemma parseTemplateParams_loop_front_empty (buf : list ascii)
  (rec : M (option Node)) (k id : nat) (params : list Node)
  (p : nat) (s : Status) (a : option Node) (n : nat) (fs : list Fault) :
  parseTemplateParams_loop buf rec (S k) id params
    (mkPState (mkStringView p p) s a n fs)
  = (if negb (Ascii.eqb (charAt buf p) "%") then
       ctl <- parseTemplateParams_body buf rec params ;;
       match ctl with
       | Continue params' => parseTemplateParams_loop buf rec k id params'
       | Exit r => ret r
       end
     else ret (arrayOrNull id params))
      (mkPState (mkStringView p p) s a n (FrontOnEmpty :: fs)).
Proof.
  cbn [parseTemplateParams_loop].
  unfold front, getMangled, recordFault, sv_empty, sv_front, add_fault.
  unfold bind at 1 2 3, ret at 1.
  cbn [_mangled First Last _status _ast nextId faults].
  rewrite Nat.eqb_refl. reflexivity.
Qed.

Lemma parseTemplateParams_loop_stuck_at_end (buf : list ascii)
  (rec : M (option Node)) (k id : nat) (params : list Node)
  (p : nat) (a : option Node) (n : nat) :
  Ascii.eqb (charAt buf p) "%" = false ->
  (forall fs, typeStuckAt rec (mkPState (mkStringView p p) in_progress a n fs)) ->
  forall fs,
    parseTemplateParams_loop buf rec k id params
      (mkPState (mkStringView p p) in_progress a n fs) = None.
Proof.
  intros Hc Hstuck. induction k as [|k IH]; intros fs; [reflexivity|].
  rewrite parseTemplateParams_loop_front_empty, Hc. cbn [negb].
  set (st := mkPState (mkStringView p p) in_progress a n (FrontOnEmpty :: fs)).
  assert (Ht : sv_startsWith_char buf "t" (_mangled st) = false)
    by (unfold sv_startsWith_char, sv_empty; cbn [st _mangled First Last];
        now rewrite Nat.eqb_refl).
  assert (Hbody : parseTemplateParams_body buf rec params st = None \/
                  parseTemplateParams_body buf rec params st
                  = Some (Continue params, st)).
  { unfold parseTemplateParams_body.
    rewrite (bind_Some _ _ _ _ _ (consumeFront_miss buf "t" st Ht)).
    cbv beta iota. erewrite bind_Some by reflexivity. cbv beta iota.
    destruct (Hstuck (FrontOnEmpty :: fs)) as [H|H]; fold st in H.
    - left. now apply bind_None.
    - right. rewrite (bind_Some _ _ _ _ _ H). reflexivity. }
  destruct Hbody as [H|H].
  - now apply bind_None.
  - rewrite (bind_Some _ _ _ _ _ H). apply IH.
Qed.

(** Runs the next rule of a sequence at a known state, and enters a rule
    that does not finish. *)
Ltac run_rule := erewrite bind_Some by (lazy; reflexivity); cbv beta iota.
Ltac enter_rule := apply bind_None; cbv beta iota.

(** C1, on the code.  The parse of "@f$qe" does not finish, whatever the
    fuel: at 'e' [parseType] returns null with the status untouched and
    nothing consumed, and the loop of [parseFuncParams] goes round again in
    the same state.  The loop of [parseTemplateParams] does the same on
    "@a%b$e%$qv". *)
Theorem list_loops_diverge :
  (forall fuel, BorlandASTParser fuel "@f$qe" = None)
  /\ (forall fuel, BorlandASTParser fuel "@a%b$e%$qv" = None).
Proof.
  split; intros fuel; unfold BorlandASTParser.
  - set (buf := list_ascii_of_string "@f$qe").
    enough (H : parse buf (parseType buf fuel) fuel (initialState buf) = None)
      by now rewrite H.
    unfold parse. run_rule. enter_rule.
    unfold parseFunction. run_rule. run_rule. run_rule. cbn [negb].
    run_rule. cbn [negb]. run_rule. enter_rule.
    unfold parseFuncType. run_rule. run_rule. cbn [negb]. enter_rule.
    unfold parseFuncParams, bind at 1, newId.
    apply parseFuncParams_loop_stuck; try reflexivity.
    destruct fuel as [|n]; [left; reflexivity|right; vm_compute; reflexivity].
  - set (buf := list_ascii_of_string "@a%b$e%$qv").
    enough (H : parse buf (parseType buf fuel) fuel (initialState buf) = None)
      by now rewrite H.
    unfold parse. run_rule. enter_rule.
    unfold parseFunction. run_rule. enter_rule.
    unfold parseFuncName. run_rule. run_rule. run_rule. enter_rule.
    cbn [Ascii.eqb Bool.eqb]. unfold parseTemplate.
    run_rule. cbn [negb]. run_rule. run_rule. cbn [negb].
    run_rule. cbn [negb]. enter_rule.
    unfold parseTemplateParams, bind at 1, newId.
    apply parseTemplateParams_loop_stuck; try reflexivity.
    destruct fuel as [|n]; [left; reflexivity|right; vm_compute; reflexivity].
Qed.

(** ** Full consumption *)

Lemma parse_final (buf : list ascii) (rec : M (option Node)) (fuel : nat)
  (st st' : PState) (u : unit) :
  parse buf rec fuel st = Some (u, st') ->
  sv_empty (_mangled st') = true \/
  (sv_empty (_mangled st') = false /\ _status st' = invalid_mangled_name).
Proof.
  unfold parse. intros H.
  apply bind_inv in H. destruct H as (at_ & st1 & _ & H).
  apply bind_inv in H. destruct H as (u1 & st2 & _ & H).
  apply bind_inv in H. destruct H as (e & st3 & He & H).
  unfold empty, getMangled, bind, ret in He. inversion He; subst; clear He.
  destruct (sv_empty (_mangled st3)) eqn:E; cbn [negb] in H.
  - inversion H; subst. now left.
  - inversion H; subst. right. split; [exact E|reflexivity].
Qed.

Lemma sv_empty_chars (buf : list ascii) (v : StringView) :
  sv_empty v = true -> sv_chars buf v = [].
Proof.
  unfold sv_empty, sv_chars, sv_size. intros H.
  apply Nat.eqb_eq in H. rewrite H, Nat.sub_diag. reflexivity.
Qed.

Lemma parseFunction_final (buf : list ascii) (rec : M (option Node))
  (fuel : nat) (st st' : PState) (u : unit) :
  parseFunction buf rec fuel st = Some (u, st') ->
  _status st' = success \/ _status st' = invalid_mangled_name.
Proof.
  unfold parseFunction. intros H.
  binv H as b0 s0 Hc0. binv H as absNameNode s1 Hname.
  binv H as ok1 s2 Hck1. destruct ok1; cbn [negb] in H;
    [|apply ret_inv in H; destruct H; subst; right;
      eapply checkResult_inv; eauto].
  binv H as ok2 s3 Hc2. destruct ok2; cbn [negb] in H;
    [|apply ret_inv in H; destruct H; subst; right;
      eapply consume_inv; eauto].
  binv H as quals s4 Hq. binv H as funcType s5 Hft.
  binv H as ok3 s6 Hck3. destruct ok3; cbn [negb] in H;
    [|apply ret_inv in H; destruct H; subst; right;
      eapply checkResult_inv; eauto].
  binv H as e s7 He. destruct e; cbn [negb] in H;
    [|inversion H; subst; now right].
  binv H as u0 s8 Hset. inversion Hset; subst; clear Hset.
  left. destruct absNameNode; [destruct funcType|];
    inversion H; subst; reflexivity.
Qed.

Lemma BorlandASTParser_nonempty_final (fuel : nat) (mangled : string)
  (st : PState) :
  mangled <> EmptyString ->
  BorlandASTParser fuel mangled = Some st ->
  status st = success \/ status st = invalid_mangled_name.
Proof.
  intros Hne. unfold BorlandASTParser, parse, status.
  destruct mangled as [|c mangled]; [congruence|]. cbn [list_ascii_of_string].
  set (buf := c :: list_ascii_of_string mangled).
  destruct (bind _ _ _) as [[u st0]|] eqn:E; [|discriminate].
  intros H. inversion H; subst; clear H.
  binv E as at_ s0 Hpeek.
  assert (Hs0 : s0 = initialState buf).
  { unfold peekChar, getMangled, bind, ret in Hpeek.
    destruct (negb _) in Hpeek; inversion Hpeek; reflexivity. }
  subst s0. binv E as u1 s1 Hfun. binv E as e s2 Hemp.
  inversion Hemp; subst; clear Hemp.
  destruct (sv_empty (_mangled s2)) eqn:Ee; cbn [negb] in E;
    [|inversion E; subst; now right].
  apply ret_inv in E. destruct E; subst.
  destruct at_.
  - eapply parseFunction_final; eauto.
  - apply ret_inv in Hfun. destruct Hfun; subst. discriminate Ee.
Qed.

Lemma parseFunction_success (buf : list ascii) (rec : M (option Node))
  (fuel : nat) (st st' : PState) (u : unit) :
  parseFunction buf rec fuel st = Some (u, st') ->
  _status st' = success ->
  sv_empty (_mangled st') = true /\
  exists id name funcType, _ast st' = Some (FunctionNode id name funcType).
Proof.
  unfold parseFunction. intros H Hs.
  binv H as b0 s0 Hc0. binv H as absNameNode s1 Hname.
  binv H as ok1 s2 Hck1. destruct ok1; cbn [negb] in H;
    [|apply ret_inv in H; destruct H; subst;
      rewrite (checkResult_inv _ _ _ _ Hck1 eq_refl) in Hs; discriminate].
  binv H as ok2 s3 Hc2. destruct ok2; cbn [negb] in H;
    [|apply ret_inv in H; destruct H; subst;
      rewrite (consume_inv _ _ _ _ _ Hc2 eq_refl) in Hs; discriminate].
  binv H as quals s4 Hq. binv H as funcType s5 Hft.
  binv H as ok3 s6 Hck3. destruct ok3; cbn [negb] in H;
    [|apply ret_inv in H; destruct H; subst;
      rewrite (checkResult_inv _ _ _ _ Hck3 eq_refl) in Hs; discriminate].
  binv H as e s7 He. inversion He; subst; clear He.
  destruct (sv_empty (_mangled s7)) eqn:Ee; cbn [negb] in H;
    [|inversion H; subst; discriminate].
  binv H as u0 s8 Hset. inversion Hset; subst; clear Hset.
  assert (Hn : exists n, absNameNode = Some n).
  { unfold checkResult in Hck1. binv Hck1 as x y Hx.
    destruct absNameNode; [eauto|].
    apply setInvalid_ret_inv in Hck1. destruct Hck1; discriminate. }
  assert (Hf : exists f, funcType = Some f).
  { unfold checkResult in Hck3. binv Hck3 as x y Hx.
    destruct funcType; [eauto|].
    apply setInvalid_ret_inv in Hck3. destruct Hck3; discriminate. }
  destruct Hn as [n ->]. destruct Hf as [f ->].
  inversion H; subst. cbn. split; [exact Ee|eauto].
Qed.

(** C2.  Whenever the parser ends with status [success], the cursor is
    empty: nothing of the input is left.  Input left over gives
    [invalid_mangled_name].  No rule below [parseFunction] sets [success]:
    [parseFuncName] and [parseFuncType] leave the status as it was or set it
    to [invalid_mangled_name]. *)
Theorem success_implies_fully_consumed :
  (forall fuel mangled st,
      BorlandASTParser fuel mangled = Some st ->
      status st = success ->
      sv_empty (_mangled st) = true /\ remaining mangled st = [])
  /\ (forall fuel mangled st,
      BorlandASTParser fuel mangled = Some st ->
      sv_empty (_mangled st) = false ->
      status st = invalid_mangled_name)
  /\ (forall buf fuel st u st',
      parseFunction buf (parseType buf fuel) fuel st = Some (u, st') ->
      _status st' = success ->
      sv_empty (_mangled st') = true /\
      exists id name funcType, _ast st' = Some (FunctionNode id name funcType))
  /\ (forall buf fuel quals st r st',
      parseFuncType buf (parseType buf fuel) fuel quals st = Some (r, st') ->
      _status st' = _status st \/ _status st' = invalid_mangled_name)
  /\ (forall buf fuel st r st',
      parseFuncName buf (parseType buf fuel) fuel st = Some (r, st') ->
      _status st' = _status st \/ _status st' = invalid_mangled_name).
Proof.
  split; [|split; [|split; [|split]]].
  - intros fuel mangled st H H0. split.
    + unfold BorlandASTParser in H.
      destruct (parse _ _ _ _) as [[u st']|] eqn:E; [|discriminate].
      inversion H; subst. apply parse_final in E.
      destruct E as [E|[_ E]]; [exact E|].
      unfold status in H0. congruence.
    + unfold BorlandASTParser in H.
      destruct (parse _ _ _ _) as [[u st']|] eqn:E; [|discriminate].
      inversion H; subst. apply parse_final in E.
      destruct E as [E|[_ E]].
      * unfold remaining. now apply sv_empty_chars.
      * unfold status in H0. congruence.
  - intros fuel mangled st H He. unfold BorlandASTParser in H.
    destruct (parse _ _ _ _) as [[u st']|] eqn:E; [|discriminate].
    inversion H; subst. apply parse_final in E.
    destruct E as [E|[_ E]]; [congruence|exact E].
  - intros buf fuel st u st' H Hs.
    exact (parseFunction_success buf _ fuel st st' u H Hs).
  - intros buf fuel quals st r st' H.
    exact (mono_parseFuncType buf _ fuel (mono_parseType buf fuel) quals _ _ _ H).
  - intros buf fuel st r st' H.
    exact (mono_parseFuncName buf _ fuel (mono_parseType buf fuel) _ _ _ H).
Qed.

Lemma success_implies_fully_consumed_witness :
  let st :=
    mkPState (mkStringView 7 7) success
      (Some (FunctionNode 4 (NameNode 0 "foo")
         (FunctionTypeNode 3 unknown
            (Some (NodeArray 1
               [IntegralTypeNode 2 "int" false (mkQualifiers false false)]))
            None (mkQualifiers false false))))
      5 [] in
  BorlandASTParser 8 "@foo$qi" = Some st /\ status st = success /\
  sv_empty (_mangled st) = true /\ remaining "@foo$qi" st = [].
Proof.
  intros st.
  assert (E : BorlandASTParser 8 "@foo$qi" = Some st) by (vm_compute; reflexivity).
  split; [exact E|]. split; [reflexivity|].
  exact (proj1 success_implies_fully_consumed 8 "@foo$qi"%string st E eq_refl).
Defined.

(** ** Backreferences *)

Lemma peekNumber_pure (buf : list ascii) (st : PState) :
  exists n, peekNumber buf st = Some (n, st).
Proof.
  unfold peekNumber, getMangled, bind, ret.
  destruct (negb _); [destruct (Ascii.eqb _ _)|]; eexists; reflexivity.
Qed.

Lemma parseNumber_nonzero (buf : list ascii) (st : PState) (n : Z) :
  peekNumber buf st = Some (n, st) -> n <> 0%Z ->
  parseNumber buf st
  = Some (n, set_mangled
               (fst (numberLoop buf (sv_size (_mangled st)) (_mangled st) 0%Z))
               st).
Proof.
  unfold peekNumber, parseNumber, getMangled, setMangled, bind, ret.
  destruct (negb _); [destruct (Ascii.eqb _ _)|]; intros H Hn;
    inversion H; subst; try congruence.
  destruct (numberLoop _ _ _ _) as [v' acc]. reflexivity.
Qed.

Lemma parseNumber_value (buf : list ascii) (st : PState) (n : Z) :
  peekNumber buf st = Some (n, st) ->
  exists st', parseNumber buf st = Some (n, st') /\ nextId st' = nextId st
              /\ faults st' = faults st /\ _ast st' = _ast st.
Proof.
  unfold peekNumber, parseNumber, getMangled, setMangled, setStatus, bind, ret.
  destruct (negb _); [destruct (Ascii.eqb _ _)|]; intros H;
    inversion H; subst.
  - eexists; split; [reflexivity|]. cbn. auto.
  - destruct (numberLoop _ _ _ _) as [v' acc]. eexists; split; [reflexivity|]. cbn. auto.
  - eexists; split; [reflexivity|]. cbn. auto.
Qed.


Lemma addBackref_nth (params : list Node) (n : Z) (h : Node) :
  nth_error params (Z.to_nat (n - 1)) = Some h ->
  addBackref params n = params ++ [h].
Proof. intros H. unfold addBackref. now rewrite H. Qed.

Section Backref.
Variable buf : list ascii.
Variable rec : M (option Node).
Variable params : list Node.
Variable st : PState.
Variable n : Z.
Let st1 := set_mangled (sv_dropFront 1 (_mangled st)) st.
Let v' := fst (numberLoop buf (sv_size (_mangled st1)) (_mangled st1) 0%Z).
Hypothesis Ht : sv_startsWith_char buf "t" (_mangled st) = true.
Hypothesis Hp : peekNumber buf st1 = Some (n, st1).

Lemma backref_probe_hit :
  (0 < n <= Z.of_nat (List.length params))%Z ->
  (backref <- peekNumber buf ;;
   if (0 <? backref)%Z && (backref <=? Z.of_nat (List.length params))%Z
   then parseNumber buf ;;; ret (Some (addBackref params backref))
   else ret None) st1
  = Some (Some (addBackref params n), set_mangled v' st).
Proof.
  intros Hn. rewrite (bind_Some _ _ _ _ _ Hp).
  replace (0 <? n)%Z with true by (symmetry; apply Z.ltb_lt; lia).
  replace (n <=? Z.of_nat (List.length params))%Z with true
    by (symmetry; apply Z.leb_le; lia).
  cbn [andb].
  rewrite (bind_Some _ _ _ _ _ (parseNumber_nonzero buf st1 n Hp ltac:(lia))).
  reflexivity.
Qed.

Lemma backref_probe_miss :
  (n = 0 \/ Z.of_nat (List.length params) < n)%Z ->
  (backref <- peekNumber buf ;;
   if (0 <? backref)%Z && (backref <=? Z.of_nat (List.length params))%Z
   then parseNumber buf ;;; ret (Some (addBackref params backref))
   else ret None) st1
  = Some (None, st1).
Proof.
  intros Hn. rewrite (bind_Some _ _ _ _ _ Hp).
  replace ((0 <? n)%Z && (n <=? Z.of_nat (List.length params))%Z) with false;
    [reflexivity|].
  symmetry. apply andb_false_iff.
  destruct Hn as [Hn|Hn]; [left; apply Z.ltb_ge; lia|right; apply Z.leb_gt; lia].
Qed.

Lemma parseTemplateParams_body_hit :
  (0 < n <= Z.of_nat (List.length params))%Z ->
  parseTemplateParams_body buf rec params st
  = Some (Continue (addBackref params n), set_mangled v' st).
Proof.
  intros Hn. unfold parseTemplateParams_body.
  rewrite (bind_Some _ _ _ _ _ (consumeFront_hit _ _ _ Ht)).
  rewrite (bind_Some _ _ _ _ _ (backref_probe_hit Hn)).
  reflexivity.
Qed.

Lemma parseTemplate_end_body_hit :
  (0 < n <= Z.of_nat (List.length params))%Z ->
  parseTemplate_end_body buf rec params st
  = Some (Continue (addBackref params n), set_mangled v' st).
Proof.
  intros Hn. unfold parseTemplate_end_body, consumeIfPossible.
  rewrite (bind_Some _ _ _ _ _ (consumeFront_hit _ _ _ Ht)).
  rewrite (bind_Some _ _ _ _ _ (backref_probe_hit Hn)).
  reflexivity.
Qed.

Lemma parseFuncParams_body_hit :
  _status st = in_progress ->
  (0 < n <= Z.of_nat (List.length params))%Z ->
  parseFuncParams_body buf rec params st
  = Some (Continue (addBackref params n), set_mangled v' st).
Proof.
  intros Hs Hn. unfold parseFuncParams_body, consumeIfPossible.
  rewrite (bind_Some _ _ _ _ _ (consumeFront_hit _ _ _ Ht)).
  rewrite (bind_Some _ _ _ _ _ (parseNumber_nonzero buf st1 n Hp ltac:(lia))).
  unfold statusOk, getStatus, bind, ret. unfold st1.
  cbn [_status set_mangled]. rewrite Hs. cbn [Status_eqb negb orb].
  replace (n =? 0)%Z with false by (symmetry; apply Z.eqb_neq; lia).
  replace (Z.of_nat (List.length params) <? n)%Z with false
    by (symmetry; apply Z.ltb_ge; lia).
  cbn [orb negb]. cbn [_status set_mangled]. rewrite Hs. reflexivity.
Qed.

Lemma parseTemplateParams_body_miss :
  (n = 0 \/ Z.of_nat (List.length params) < n)%Z ->
  parseTemplateParams_body buf rec params st
  = (typeNode <- rec ;;
     ok <- statusOk ;;
     if negb ok then ret (Exit None) else
     match typeNode with
     | Some t => ret (Continue (params ++ [t]))
     | None => ret (Continue params)
     end) st1.
Proof.
  intros Hn. unfold parseTemplateParams_body.
  rewrite (bind_Some _ _ _ _ _ (consumeFront_hit _ _ _ Ht)).
  rewrite (bind_Some _ _ _ _ _ (backref_probe_miss Hn)).
  reflexivity.
Qed.

Lemma parseTemplate_end_body_miss :
  (n = 0 \/ Z.of_nat (List.length params) < n)%Z ->
  parseTemplate_end_body buf rec params st
  = (typeNode <- rec ;;
     s <- getStatus ;;
     match typeNode with
     | Some t => if Status_eqb s invalid_mangled_name
                 then ret (Exit params)
                 else ret (Continue (params ++ [t]))
     | None => ret (Exit params)
     end) st1.
Proof.
  intros Hn. unfold parseTemplate_end_body, consumeIfPossible.
  rewrite (bind_Some _ _ _ _ _ (consumeFront_hit _ _ _ Ht)).
  rewrite (bind_Some _ _ _ _ _ (backref_probe_miss Hn)).
  reflexivity.
Qed.

Lemma parseFuncParams_body_miss :
  (n = 0 \/ Z.of_nat (List.length params) < n)%Z ->
  exists st',
    parseFuncParams_body buf rec params st = Some (Exit None, st')
    /\ _status st' = invalid_mangled_name
    /\ nextId st' = nextId st.
Proof.
  intros Hn. unfold parseFuncParams_body, consumeIfPossible.
  rewrite (bind_Some _ _ _ _ _ (consumeFront_hit _ _ _ Ht)).
  destruct (parseNumber_value buf st1 n Hp) as (st2 & H2 & Hid & _).
  rewrite (bind_Some _ _ _ _ _ H2).
  unfold statusOk, getStatus, setStatus, bind, ret.
  replace ((n =? 0)%Z || (Z.of_nat (List.length params) <? n)%Z) with true.
  - cbn [orb]. eexists. split; [reflexivity|]. split; [reflexivity|].
    cbn [nextId set_status]. exact Hid.
  - symmetry. apply orb_true_iff.
    destruct Hn as [Hn|Hn]; [left; apply Z.eqb_eq; lia|right; apply Z.ltb_lt; lia].
Qed.

End Backref.

(** The parameter lists of "@f$qit1" and "@f$qii": the backreference gives
    the same handle twice; two parsed types give two handles when, as here,
    the factory does not intern. *)
Example backref_identity_example :
  option_map ast (BorlandASTParser 8 "@f$qit1")
  = Some (Some (FunctionNode 4 (NameNode 0 "f")
       (FunctionTypeNode 3 unknown
          (Some (NodeArray 1
             [IntegralTypeNode 2 "int" false (mkQualifiers false false);
              IntegralTypeNode 2 "int" false (mkQualifiers false false)]))
          None (mkQualifiers false false))))
  /\ option_map ast (BorlandASTParser 8 "@f$qii")
  = Some (Some (FunctionNode 5 (NameNode 0 "f")
       (FunctionTypeNode 4 unknown
          (Some (NodeArray 1
             [IntegralTypeNode 2 "int" false (mkQualifiers false false);
              IntegralTypeNode 3 "int" false (mkQualifiers false false)]))
          None (mkQualifiers false false)))).
Proof. split; vm_compute; reflexivity. Qed.

(** C3, as the code has it.  Every list consumes the 't' first.  In the
    argument lists of both [parseTemplate] overloads the number after it is
    peeked: in range, its digits are consumed and the stored handle is
    appended; at 0 or out of range, the 't' stays consumed and an ordinary
    type is parsed from the character after it.  In the list of
    [parseFuncParams] the number is consumed with [parseNumber]: in range
    (and the status still [in_progress]) the stored handle is appended; at 0
    or out of range the status is set to [invalid_mangled_name] at once and
    the rule returns null, without parsing a type. *)
Theorem backref_handling_by_list :
  forall (buf : list ascii) (rec : M (option Node)) (params : list Node)
         (st : PState) (n : Z),
    let st1 := set_mangled (sv_dropFront 1 (_mangled st)) st in
    let v' := fst (numberLoop buf (sv_size (_mangled st1)) (_mangled st1) 0%Z) in
    sv_startsWith_char buf "t" (_mangled st) = true ->
    peekNumber buf st1 = Some (n, st1) ->
    ((0 < n <= Z.of_nat (List.length params))%Z ->
       parseTemplateParams_body buf rec params st
       = Some (Continue (addBackref params n), set_mangled v' st)
       /\ parseTemplate_end_body buf rec params st
          = Some (Continue (addBackref params n), set_mangled v' st)
       /\ (_status st = in_progress ->
           parseFuncParams_body buf rec params st
           = Some (Continue (addBackref params n), set_mangled v' st)))
    /\ ((n = 0 \/ Z.of_nat (List.length params) < n)%Z ->
       parseTemplateParams_body buf rec params st
       = (typeNode <- rec ;;
          ok <- statusOk ;;
          if negb ok then ret (Exit None) else
          match typeNode with
          | Some t => ret (Continue (params ++ [t]))
          | None => ret (Continue params)
          end) st1
       /\ parseTemplate_end_body buf rec params st
          = (typeNode <- rec ;;
             s <- getStatus ;;
             match typeNode with
             | Some t => if Status_eqb s invalid_mangled_name
                         then ret (Exit params)
                         else ret (Continue (params ++ [t]))
             | None => ret (Exit params)
             end) st1
       /\ exists st',
            parseFuncParams_body buf rec params st = Some (Exit None, st')
            /\ _status st' = invalid_mangled_name
            /\ nextId st' = nextId st).
Proof.
  intros buf rec params st n st1 v' Ht Hp. split.
  - intros Hn. split; [|split].
    + now apply parseTemplateParams_body_hit.
    + now apply parseTemplate_end_body_hit.
    + intros Hs. now apply parseFuncParams_body_hit.
  - intros Hn. split; [|split].
    + exact (parseTemplateParams_body_miss buf rec params st n Ht Hp Hn).
    + exact (parseTemplate_end_body_miss buf rec params st n Ht Hp Hn).
    + exact (parseFuncParams_body_miss buf rec params st n Ht Hp Hn).
Qed.

Lemma backref_handling_by_list_witness :
  let buf := list_ascii_of_string "it2ab%" in
  let q := mkQualifiers false false in
  let h := IntegralTypeNode 1 "int" false q in
  let st := mkPState (mkStringView 1 6) in_progress None 2 [] in
  parseTemplateParams_body buf (parseType buf 3) [h] st
  = Some (Continue [h; NamedTypeNode 3 (NameNode 2 "ab") q],
          mkPState (mkStringView 5 6) in_progress None 4 [])
  /\ parseTemplate_end_body buf (parseType buf 3) [h] st
  = Some (Continue [h; NamedTypeNode 3 (NameNode 2 "ab") q],
          mkPState (mkStringView 5 6) in_progress None 4 [])
  /\ exists st',
       parseFuncParams_body buf (parseType buf 3) [h] st = Some (Exit None, st')
       /\ _status st' = invalid_mangled_name /\ nextId st' = nextId st.
Proof.
  intros buf q h st.
  destruct (backref_handling_by_list buf (parseType buf 3) [h] st 2%Z
              eq_refl eq_refl) as [_ Hmiss].
  destruct (Hmiss ltac:(right; cbn; lia)) as (H1 & H2 & H3).
  split; [rewrite H1; vm_compute; reflexivity|].
  split; [rewrite H2; vm_compute; reflexivity|].
  exact H3.
Defined.

(** C3 as stated fails: the two kinds of list treat "t2" after one entry
    differently.  The parameter list of "@f$qit2ab" sets
    [invalid_mangled_name] at the backreference, and "ab" is left; the
    template-argument list of "@n%m$it2ab%$qv" drops the 't', parses the
    named type "2ab" and the parse succeeds.  In neither does a type start
    at the 't' itself. *)
Lemma backref_handling_counterexample :
  let buf := list_ascii_of_string "it2ab%" in
  let q := mkQualifiers false false in
  let h := IntegralTypeNode 1 "int" false q in
  let st := mkPState (mkStringView 1 6) in_progress None 2 [] in
  parseFuncParams_body buf (parseType buf 3) [h] st
  = Some (Exit None,
          mkPState (mkStringView 3 6) invalid_mangled_name None 2 [])
  /\ parseTemplateParams_body buf (parseType buf 3) [h] st
  = Some (Continue [h; NamedTypeNode 3 (NameNode 2 "ab") q],
          mkPState (mkStringView 5 6) in_progress None 4 [])
  /\ option_map (fun s => (status s, remaining "@f$qit2ab" s))
       (BorlandASTParser 8 "@f$qit2ab")
     = Some (invalid_mangled_name, ["a"; "b"])
  /\ option_map status (BorlandASTParser 8 "@n%m$it2ab%$qv") = Some success.
Proof.
  intros buf q h st. repeat split; vm_compute; reflexivity.
Qed.

(** ** References to references *)

(** C4, on the code.  For "@f$qrri" and "@f$qrhi" the inner type parses to a
    reference (an rvalue reference), [parseReference] returns null without
    touching the status, the parameter is dropped from the list, and the
    parse ends with status [success] and a function without parameters.
    [parseRReference] does set [invalid_mangled_name]: "@f$qhri" is
    refused. *)
Theorem reference_to_reference_not_reported :
  forall fuel,
    BorlandASTParser (3 + fuel) "@f$qrri"
    = Some (mkPState (mkStringView 7 7) success
              (Some (FunctionNode 5 (NameNode 0 "f")
                 (FunctionTypeNode 4 unknown None None
                    (mkQualifiers false false))))
              6 [])
    /\ BorlandASTParser (3 + fuel) "@f$qrhi"
    = Some (mkPState (mkStringView 7 7) success
              (Some (FunctionNode 5 (NameNode 0 "f")
                 (FunctionTypeNode 4 unknown None None
                    (mkQualifiers false false))))
              6 [])
    /\ BorlandASTParser (3 + fuel) "@f$qhri"
    = Some (mkPState (mkStringView 7 7) invalid_mangled_name None 4 []).
Proof.
  intros fuel.
  split; [|split];
    (apply (BorlandASTParser_fuel_monotone 3); [lia|vm_compute; reflexivity]).
Qed.

(** ** Bounded names *)

Lemma createPtr_inv (mk : nat -> Node) (st st' : PState) (r : option Node) :
  createPtr mk st = Some (r, st') ->
  r = Some (mk (nextId st)) /\ _mangled st' = _mangled st
  /\ _status st' = _status st.
Proof. intros H. inversion H. auto. Qed.

(** What a failed [consume] leaves behind, as a result of a rule. *)
Ltac consume_failed H Hc :=
  apply ret_inv in H; destruct H; subst; right; split;
  [eapply consume_inv; eauto|reflexivity].

Lemma parseTemplate_end_boundary (buf : list ascii) (rec : M (option Node))
  (fuel : nat) (ns : option Node) (end_ : nat) (st st' : PState)
  (r : option Node) :
  parseTemplate_end buf rec fuel ns end_ st = Some (r, st') ->
  (First (_mangled st') = end_ /\
   exists id name params, r = Some (TemplateNode id name params))
  \/ (_status st' = invalid_mangled_name /\ r = None).
Proof.
  unfold parseTemplate_end. intros H.
  binv H as ok1 s1 Hc1. destruct ok1; cbn [negb] in H; [|consume_failed H Hc1].
  binv H as templateName s2 Hcut. destruct (sv_empty templateName);
    [apply setInvalid_ret_inv in H; destruct H; subst; right; auto|].
  binv H as nameNode s3 Hn. binv H as templateNameNode s4 Hnn.
  binv H as ok2 s5 Hc2. destruct ok2; cbn [negb] in H; [|consume_failed H Hc2].
  binv H as id s6 Hid. binv H as params s7 Hloop.
  binv H as ok3 s8 Hc3. destruct ok3; cbn [negb] in H; [|consume_failed H Hc3].
  binv H as v s9 Hv. inversion Hv; subst; clear Hv.
  destruct (First (_mangled s9) =? end_) eqn:E; cbn [negb] in H.
  - apply createPtr_inv in H. destruct H as (Hr & Hm & _). left.
    rewrite Hm. split; [now apply Nat.eqb_eq|]. subst r. eauto.
  - apply setInvalid_ret_inv in H. destruct H; subst. right; auto.
Qed.

Lemma appendName_not_template (buf : list ascii) (name : option Node)
  (v : StringView) (st st' : PState) (r : option Node) :
  appendName buf name v st = Some (r, st') ->
  isTemplateNode r = false /\ _mangled st' = _mangled st.
Proof.
  unfold appendName. intros H. binv H as nameNode s1 Hn.
  inversion Hn; subst; clear Hn.
  destruct name; inversion H; subst; auto.
Qed.

Lemma parseName_loop_not_template (buf : list ascii) (k end_ : nat) :
  forall (start c : nat) (name : option Node) (st st' : PState)
         (start' c' : nat) (name' : option Node),
    isTemplateNode name = false ->
    parseName_loop buf k end_ start c name st = Some ((start', c', name'), st') ->
    isTemplateNode name' = false.
Proof.
  induction k as [|k IH]; intros start c name st st' start' c' name' Hname H;
    cbn [parseName_loop] in H.
  - apply ret_inv in H. destruct H as [H _]. now inversion H; subst.
  - destruct (c <? end_);
      [|apply ret_inv in H; destruct H as [H _]; now inversion H; subst].
    binv H as ch s1 Hch.
    destruct (Ascii.eqb ch "%" || Ascii.eqb ch "@"); [|eapply IH; eauto].
    binv H as sn s2 Hsn.
    assert (Hsn' : isTemplateNode (snd sn) = false).
    { destruct (negb (sv_empty _)).
      - binv Hsn as b s3 Hb. binv Hsn as nm s4 Happ.
        apply ret_inv in Hsn. destruct Hsn as [Hsn _]; subst sn. cbn [snd].
        now apply appendName_not_template in Happ.
      - apply ret_inv in Hsn. destruct Hsn as [Hsn _]; subst sn. exact Hname. }
    binv H as f s3 Hf.
    destruct (Ascii.eqb f "@").
    + binv H as b s4 Hb. eapply IH; eauto.
    + apply ret_inv in H. destruct H as [H _]. now inversion H; subst.
Qed.

Lemma parseName_template_end (buf : list ascii) (rec : M (option Node))
  (fuel endMangled : nat) (st st' : PState) (r : option Node) :
  parseName buf rec fuel endMangled st = Some (r, st') ->
  isTemplateNode r = true ->
  First (_mangled st') = endMangled.
Proof.
  unfold parseName. intros H Hr.
  binv H as v s1 Hv. binv H as r1 s2 Hloop.
  destruct r1 as [[start c] name].
  apply parseName_loop_not_template in Hloop; [|reflexivity].
  binv H as name2 s3 Hname2.
  assert (Hn2 : isTemplateNode name2 = false).
  { destruct (c =? endMangled).
    - binv Hname2 as b s4 Hb. now apply appendName_not_template in Hname2.
    - apply ret_inv in Hname2. destruct Hname2; now subst. }
  binv H as p s4 Hp.
  destruct (p && negb (c =? endMangled)).
  - apply parseTemplate_end_boundary in H.
    destruct H as [[H _]|[_ H]]; [exact H|subst r; discriminate Hr].
  - apply ret_inv in H. destruct H; subst. congruence.
Qed.

Lemma parseNamedType_short (buf : list ascii) (rec : M (option Node))
  (fuel : nat) (nameLen : Z) (quals : Qualifiers) (st : PState) :
  sv_size (_mangled st) < Z.to_nat nameLen ->
  parseNamedType buf rec fuel nameLen quals st
  = Some (None, set_status invalid_mangled_name st).
Proof.
  intros H. unfold parseNamedType, getMangled, bind, ret.
  unfold sv_size in H.
  replace (Last (_mangled st) <? First (_mangled st) + Z.to_nat nameLen)
    with true by (symmetry; apply Nat.ltb_lt; lia).
  reflexivity.
Qed.

Lemma parseNamedType_template_end (buf : list ascii) (rec : M (option Node))
  (fuel : nat) (nameLen : Z) (quals : Qualifiers) (st st' : PState)
  (id tid : nat) (tname tparams : Node) (q : Qualifiers) :
  parseNamedType buf rec fuel nameLen quals st
  = Some (Some (NamedTypeNode id (TemplateNode tid tname tparams) q), st') ->
  First (_mangled st') = First (_mangled st) + Z.to_nat nameLen.
Proof.
  unfold parseNamedType. intros H.
  binv H as v s1 Hv. inversion Hv; subst; clear Hv.
  destruct (Last (_mangled s1) <? _);
    [apply setInvalid_ret_inv in H; destruct H; discriminate|].
  binv H as nameNode s2 Hname.
  destruct nameNode as [n|];
    [|apply setInvalid_ret_inv in H; destruct H; discriminate].
  apply createPtr_inv in H. destruct H as (Hr & Hm & _).
  inversion Hr; subst. rewrite Hm.
  eapply parseName_template_end; [exact Hname|reflexivity].
Qed.

(** Declared lengths at the level of the whole parse: too long for the
    input, a template that closes before the boundary, one that closes
    after it, and one that closes on it. *)
Example bounded_name_examples :
  option_map status (BorlandASTParser 8 "@f$q5ab") = Some invalid_mangled_name
  /\ option_map status (BorlandASTParser 8 "@f$q7a%b$i%i")
     = Some invalid_mangled_name
  /\ option_map status (BorlandASTParser 8 "@f$q5a%b$i%i")
     = Some invalid_mangled_name
  /\ option_map status (BorlandASTParser 8 "@f$q6a%b$i%") = Some success.
Proof. repeat split; vm_compute; reflexivity. Qed.

(** ** The status after construction *)

(** C7, on the code.  For the empty input [parse] neither calls
    [parseFunction] nor finds input left over: the status is still
    [in_progress] when the constructor returns. *)
Theorem empty_input_stays_in_progress :
  forall fuel,
    BorlandASTParser fuel EmptyString = Some (initialState [])
    /\ option_map status (BorlandASTParser fuel EmptyString) = Some in_progress.
Proof. intros fuel. split; reflexivity. Qed.

(** ** Number fields *)

Lemma parseNumber_leading_zero (buf : list ascii) (st : PState) :
  sv_empty (_mangled st) = false ->
  sv_front buf (_mangled st) = "0" ->
  parseNumber buf st = Some (0%Z, set_status invalid_mangled_name st).
Proof.
  intros He Hf. unfold parseNumber, getMangled, bind, ret.
  rewrite He, Hf. reflexivity.
Qed.

Lemma peekNumber_leading_zero (buf : list ascii) (st : PState) :
  sv_empty (_mangled st) = false ->
  sv_front buf (_mangled st) = "0" ->
  peekNumber buf st = Some (0%Z, st).
Proof.
  intros He Hf. unfold peekNumber, getMangled, bind, ret.
  rewrite He, Hf. reflexivity.
Qed.

(** Runs the cursor primitives of a rule at a state whose front character
    is known (facts [He] and [Hf]), up to the first call of a rule in [keep]. *)
Ltac run_front He Hf :=
  unfold consumeIfPossible, consumeIfPossible_sv, consumeFront,
    consumeFront_sv, peekChar, empty, statusOk, getStatus, getMangled,
    sv_startsWith_char, bind, ret;
  repeat (progress (rewrite ?He, ?Hf; cbn -[parseNumber peekNumber])).

Lemma parseType_body_leading_zero (buf : list ascii) (rec : M (option Node))
  (fuel : nat) (st : PState) :
  sv_empty (_mangled st) = false ->
  sv_front buf (_mangled st) = "0" ->
  parseType_body buf rec fuel st
  = Some (None, set_status invalid_mangled_name st).
Proof.
  intros He Hf. unfold parseType_body, parseQualifiers. run_front He Hf.
  rewrite parseNumber_leading_zero by assumption.
  reflexivity.
Qed.

(** C8.  A number field that begins with the digit 0 is refused where it is
    consumed: [parseNumber] sets [invalid_mangled_name], gives 0 and consumes
    nothing, so a type that starts with 0 is refused as well, and the status
    stays [invalid_mangled_name] through every rule run after it.  The probe
    [peekNumber] gives 0 there and leaves the parser as it was.  The input
    "@x$q0i" ends with status [invalid_mangled_name]. *)
Theorem leading_zero_rejected :
  (forall buf st,
      sv_empty (_mangled st) = false ->
      sv_front buf (_mangled st) = "0" ->
      parseNumber buf st = Some (0%Z, set_status invalid_mangled_name st)
      /\ peekNumber buf st = Some (0%Z, st)
      /\ forall fuel, parseType buf (S fuel) st
                      = Some (None, set_status invalid_mangled_name st))
  /\ (forall buf fuel st r st',
      _status st = invalid_mangled_name ->
      parseType buf fuel st = Some (r, st') ->
      _status st' = invalid_mangled_name)
  /\ (forall fuel, 0 < fuel ->
      option_map status (BorlandASTParser fuel "@x$q0i")
      = Some invalid_mangled_name).
Proof.
  split; [|split].
  - intros buf st He Hf. split; [|split].
    + now apply parseNumber_leading_zero.
    + now apply peekNumber_leading_zero.
    + intros fuel. cbn [parseType]. now apply parseType_body_leading_zero.
  - intros buf fuel st r st' Hs H.
    apply mono_parseType in H. destruct H as [H|H]; congruence.
  - intros [|fuel] Hf; [lia|]. vm_compute. reflexivity.
Qed.

Lemma leading_zero_rejected_witness :
  let buf := list_ascii_of_string "0i" in
  let st := initialState buf in
  parseNumber buf st = Some (0%Z, set_status invalid_mangled_name st)
  /\ peekNumber buf st = Some (0%Z, st)
  /\ option_map status (BorlandASTParser 1 "@x$q0i") = Some invalid_mangled_name.
Proof.
  intros buf st.
  destruct (proj1 leading_zero_rejected buf st eq_refl eq_refl) as (H1 & H2 & _).
  split; [exact H1|]. split; [exact H2|].
  apply (proj2 (proj2 leading_zero_rejected) 1). lia.
Defined.

(** ** Qualifiers *)

(** C9, as the code has it.  The qualifiers are an optional 'w' followed by
    an optional 'x'.  On a cursor that starts with "wx" [parseQualifiers]
    consumes both characters and gives volatile and const; on a cursor that
    starts with "xw" it consumes the 'x' alone and gives const without
    volatile, and the 'w' is what follows the qualifiers. *)
Theorem parseQualifiers_fixed_order :
  (forall buf st,
      First (_mangled st) + 2 <= Last (_mangled st) ->
      charAt buf (First (_mangled st)) = "w" ->
      charAt buf (S (First (_mangled st))) = "x" ->
      parseQualifiers buf st
      = Some (mkQualifiers true true,
              set_mangled (mkStringView (First (_mangled st) + 2)
                                        (Last (_mangled st))) st))
  /\ (forall buf st,
      First (_mangled st) + 2 <= Last (_mangled st) ->
      charAt buf (First (_mangled st)) = "x" ->
      charAt buf (S (First (_mangled st))) = "w" ->
      parseQualifiers buf st
      = Some (mkQualifiers false true,
              set_mangled (mkStringView (First (_mangled st) + 1)
                                        (Last (_mangled st))) st)).
Proof.
  split; intros buf st Hlen H0 H1; destruct st as [[f l] s a n fs];
    cbn [_mangled First Last] in *;
    unfold parseQualifiers, consumeIfPossible, consumeFront, getMangled,
      setMangled, sv_startsWith_char, sv_empty, sv_front, sv_dropFront,
      sv_size, set_mangled, bind, ret; cbn [_mangled First Last _status _ast
      nextId faults];
    assert (E1 : (f =? l) = false) by (apply Nat.eqb_neq; lia);
    assert (E2 : Nat.min 1 (l - f) = 1) by lia;
    rewrite E1, H0, E2;
    cbn [negb andb Ascii.eqb Bool.eqb _mangled First Last _status _ast
         nextId faults].
  - assert (E3 : (f + 1 =? l) = false) by (apply Nat.eqb_neq; lia).
    assert (E4 : Nat.min 1 (l - (f + 1)) = 1) by lia.
    rewrite E3, E4. replace (f + 1) with (S f) by lia. rewrite H1.
    cbn [negb andb Ascii.eqb Bool.eqb _mangled First Last _status _ast
         nextId faults].
    replace (S f + 1) with (f + 2) by lia. reflexivity.
  - rewrite E1, H0.
    cbn [negb andb Ascii.eqb Bool.eqb _mangled First Last _status _ast
         nextId faults].
    rewrite E2. reflexivity.
Qed.

Lemma parseQualifiers_fixed_order_witness :
  let buf := list_ascii_of_string "wxi" in
  let buf' := list_ascii_of_string "xwi" in
  parseQualifiers buf (initialState buf)
  = Some (mkQualifiers true true,
          set_mangled (mkStringView 2 3) (initialState buf))
  /\ parseQualifiers buf' (initialState buf')
  = Some (mkQualifiers false true,
          set_mangled (mkStringView 1 3) (initialState buf')).
Proof.
  intros buf buf'. split.
  - apply (proj1 parseQualifiers_fixed_order buf (initialState buf));
      [cbn; lia | reflexivity | reflexivity].
  - apply (proj2 parseQualifiers_fixed_order buf' (initialState buf'));
      [cbn; lia | reflexivity | reflexivity].
Defined.

(** C9 as stated fails on "xw": only the 'x' is consumed, volatile is not
    set, and the type dispatch starts at the 'w'.  In a parameter list the
    'w' then qualifies the next type, so "@f$qxwi" has the one parameter
    [volatile int], while "@f$qwxi" has [volatile const int]. *)
Lemma parseQualifiers_xw_counterexample :
  let buf := list_ascii_of_string "xwi" in
  (exists st', parseQualifiers buf (initialState buf)
               = Some (mkQualifiers false true, st')
               /\ First (_mangled st') = 1)
  /\ ~ (exists st', parseQualifiers buf (initialState buf)
                    = Some (mkQualifiers true true, st'))
  /\ option_map ast (BorlandASTParser 8 "@f$qxwi")
     = Some (Some (FunctionNode 4 (NameNode 0 "f")
          (FunctionTypeNode 3 unknown
             (Some (NodeArray 1
                [IntegralTypeNode 2 "int" false (mkQualifiers true false)]))
             None (mkQualifiers false false)))).
Proof.
  intros buf. split; [|split].
  - eexists. split; reflexivity.
  - intros [st' H]. vm_compute in H. discriminate H.
  - vm_compute. reflexivity.
Qed.

(** ** Reads of the cursor *)

(** C10, on the code.  For "@" the scan of [parseFuncName] reads [*c] with
    [c] at the end of the view, and the test for a template after the scan
    calls [front()] on the empty view.  The loop of [parseTemplateParams]
    tests [front()] before anything else, also on an empty view: there it
    reads the character past the view, which is not '%', and goes on; the
    parse of "@a%b$i", whose argument list reaches the end of the input,
    does not finish. *)
Theorem parseFuncName_reads_empty_cursor :
  (forall fuel,
     BorlandASTParser fuel "@"
     = Some (mkPState (mkStringView 1 1) invalid_mangled_name None 0
               [FrontOnEmpty; DerefAtEnd]))
  /\ (forall buf rec k id params p s a n fs,
      parseTemplateParams_loop buf rec (S k) id params
        (mkPState (mkStringView p p) s a n fs)
      = (if negb (Ascii.eqb (charAt buf p) "%") then
           ctl <- parseTemplateParams_body buf rec params ;;
           match ctl with
           | Continue params' => parseTemplateParams_loop buf rec k id params'
           | Exit r => ret r
           end
         else ret (arrayOrNull id params))
          (mkPState (mkStringView p p) s a n (FrontOnEmpty :: fs)))
  /\ (forall fuel, BorlandASTParser fuel "@a%b$i" = None).
Proof.
  split; [|split].
  - intros fuel. reflexivity.
  - intros. apply parseTemplateParams_loop_front_empty.
  - intros fuel. unfold BorlandASTParser.
    set (buf := list_ascii_of_string "@a%b$i").
    enough (H : parse buf (parseType buf fuel) fuel (initialState buf) = None)
      by now rewrite H.
    unfold parse. run_rule. enter_rule.
    unfold parseFunction. run_rule. enter_rule.
    unfold parseFuncName. run_rule. run_rule. run_rule. enter_rule.
    cbn [Ascii.eqb Bool.eqb]. unfold parseTemplate.
    run_rule. cbn [negb]. run_rule. run_rule. cbn [negb].
    run_rule. cbn [negb]. enter_rule.
    unfold parseTemplateParams, bind at 1, newId.
    cbn [nextId _mangled _status _ast faults].
    destruct fuel as [|n]; [reflexivity|].
    cbn [parseTemplateParams_loop]. run_rule. cbn [negb Ascii.eqb Bool.eqb].
    run_rule.
    apply (parseTemplateParams_loop_stuck_at_end buf (parseType buf (S n)) n 3
             _ 6 None 5); [reflexivity|].
    intros fs. right. vm_compute. reflexivity.
Qed.

(** * Further properties of the rules *)

(** ** A frame rule for the grammar rules *)

Create HintDb frame.

Section FrameRules.

Variable buf : list ascii.
Variable R : PState -> PState -> Prop.
Hypothesis HF : Frame buf R.

Lemma respects_ret {A : Type} (a : A) : Respects R (ret a).
Proof. intros st a' st' H. inversion H; subst. apply (frame_refl _ _ HF). Qed.

Lemma respects_outOfFuel {A : Type} : Respects R (@outOfFuel A).
Proof. intros st a st' H. discriminate H. Qed.

Lemma respects_bind {A B : Type} (m : M A) (f : A -> M B) :
  Respects R m -> (forall a, Respects R (f a)) -> Respects R (bind m f).
Proof.
  intros Hm Hf st b st'' H. binv H as a st' H1.
  exact (frame_trans _ _ HF _ _ _ (Hm _ _ _ H1) (Hf _ _ _ _ H)).
Qed.

Lemma respects_getMangled : Respects R getMangled.
Proof. intros st a st' H. inversion H; subst. apply (frame_refl _ _ HF). Qed.

Lemma respects_getStatus : Respects R getStatus.
Proof. intros st a st' H. inversion H; subst. apply (frame_refl _ _ HF). Qed.

Lemma respects_setInvalid : Respects R (setStatus invalid_mangled_name).
Proof. intros st a st' H. inversion H; subst. apply (frame_invalid _ _ HF). Qed.

Lemma respects_recordFault (f : Fault) : Respects R (recordFault f).
Proof. intros st a st' H. inversion H; subst. apply (frame_fault _ _ HF). Qed.

Lemma respects_newId : Respects R newId.
Proof. exact (frame_newId _ _ HF). Qed.

Lemma respects_consumeFront (c : ascii) : Respects R (consumeFront buf c).
Proof. exact (frame_consumeFront _ _ HF c). Qed.

Lemma respects_consumeFront_sv (s : list ascii) :
  Respects R (consumeFront_sv buf s).
Proof. exact (frame_consumeFront_sv _ _ HF s). Qed.

Lemma respects_cutUntil (c : ascii) : Respects R (cutUntil buf c).
Proof. exact (frame_cutUntil _ _ HF c). Qed.

Lemma respects_parseNumber : Respects R (parseNumber buf).
Proof. exact (frame_parseNumber _ _ HF). Qed.

Hint Resolve respects_getMangled respects_getStatus respects_setInvalid
  respects_recordFault respects_newId respects_consumeFront
  respects_consumeFront_sv respects_cutUntil respects_parseNumber : frame.

(** One step of a proof that a rule respects [R], along its shape. *)
Ltac frame_step :=
  match goal with
  | |- Respects _ (bind _ _) => apply respects_bind; [|intro]
  | |- Respects _ (ret _) => apply respects_ret
  | |- Respects _ outOfFuel => apply respects_outOfFuel
  | |- Respects _ (if ?b then _ else _) => destruct b
  | |- Respects _ (match ?x with _ => _ end) => destruct x
  | |- Respects _ _ => solve [auto with frame]
  end.

Ltac frame := cbv zeta; repeat frame_step.

Lemma respects_empty : Respects R empty.
Proof. unfold empty. frame. Qed.

Lemma respects_front : Respects R (front buf).
Proof. unfold front. frame. Qed.

Lemma respects_deref (c : nat) : Respects R (deref buf c).
Proof. unfold deref. frame. Qed.

Lemma respects_peekChar (c : ascii) : Respects R (peekChar buf c).
Proof. unfold peekChar. frame. Qed.

Lemma respects_statusOk : Respects R statusOk.
Proof. unfold statusOk. frame. Qed.

Lemma respects_checkResult (node : option Node) : Respects R (checkResult node).
Proof. unfold checkResult. frame. Qed.

Hint Resolve respects_empty respects_front respects_deref respects_peekChar
  respects_statusOk respects_checkResult : frame.

Lemma respects_consumeIfPossible (c : ascii) :
  Respects R (consumeIfPossible buf c).
Proof. unfold consumeIfPossible. frame. Qed.

Lemma respects_consumeIfPossible_sv (s : list ascii) :
  Respects R (consumeIfPossible_sv buf s).
Proof. unfold consumeIfPossible_sv. frame. Qed.

Lemma respects_consume (c : ascii) : Respects R (consume buf c).
Proof. unfold consume. frame. Qed.

Lemma respects_create (mk : nat -> Node) : Respects R (create mk).
Proof. unfold create. frame. Qed.

Hint Resolve respects_consumeIfPossible respects_consumeIfPossible_sv
  respects_consume respects_create : frame.

Lemma respects_createPtr (mk : nat -> Node) : Respects R (createPtr mk).
Proof. unfold createPtr. frame. Qed.

Lemma respects_peekNumber : Respects R (peekNumber buf).
Proof. unfold peekNumber. frame. Qed.

Lemma respects_parseQualifiers : Respects R (parseQualifiers buf).
Proof. unfold parseQualifiers. frame. Qed.

Lemma respects_parseCallConv : Respects R (parseCallConv buf).
Proof. unfold parseCallConv. frame. Qed.

Hint Resolve respects_createPtr respects_peekNumber respects_parseQualifiers
  respects_parseCallConv : frame.

Lemma respects_parseBuildInType (quals : Qualifiers) :
  Respects R (parseBuildInType buf quals).
Proof. unfold parseBuildInType. frame. Qed.

Lemma respects_appendName (name : option Node) (v : StringView) :
  Respects R (appendName buf name v).
Proof. unfold appendName. frame. Qed.

Hint Resolve respects_parseBuildInType respects_appendName : frame.

Section FrameRec.

Variable parseType_rec : M (option Node).
Variable fuel : nat.
Hypothesis respects_rec : Respects R parseType_rec.

Hint Resolve respects_rec : frame.

Lemma respects_parseFuncParams_body (params : list Node) :
  Respects R (parseFuncParams_body buf parseType_rec params).
Proof. unfold parseFuncParams_body. frame. Qed.

Hint Resolve respects_parseFuncParams_body : frame.

Lemma respects_parseFuncParams_loop (k id : nat) (params : list Node) :
  Respects R (parseFuncParams_loop buf parseType_rec k id params).
Proof.
  revert params. induction k as [|k IH]; intros params;
    cbn [parseFuncParams_loop]; frame.
Qed.

Hint Resolve respects_parseFuncParams_loop : frame.

Lemma respects_parseFuncParams :
  Respects R (parseFuncParams buf parseType_rec fuel).
Proof. unfold parseFuncParams. frame. Qed.

Hint Resolve respects_parseFuncParams : frame.

Lemma respects_parseFuncType (quals : Qualifiers) :
  Respects R (parseFuncType buf parseType_rec fuel quals).
Proof. unfold parseFuncType. frame. Qed.

Hint Resolve respects_parseFuncType : frame.

Lemma respects_parsePointer (quals : Qualifiers) :
  Respects R (parsePointer parseType_rec quals).
Proof. unfold parsePointer. frame. Qed.

Lemma respects_parseReference :
  Respects R (parseReference buf parseType_rec fuel).
Proof. unfold parseReference. frame. Qed.

Lemma respects_parseRReference :
  Respects R (parseRReference buf parseType_rec fuel).
Proof. unfold parseRReference. frame. Qed.

Lemma respects_parseArray (quals : Qualifiers) :
  Respects R (parseArray buf parseType_rec quals).
Proof. unfold parseArray. frame. Qed.

Hint Resolve respects_parsePointer respects_parseReference
  respects_parseRReference respects_parseArray : frame.

Lemma respects_parseTemplate_end_body (params : list Node) :
  Respects R (parseTemplate_end_body buf parseType_rec params).
Proof. unfold parseTemplate_end_body. frame. Qed.

Hint Resolve respects_parseTemplate_end_body : frame.

Lemma respects_parseTemplate_end_loop (k : nat) (params : list Node) :
  Respects R (parseTemplate_end_loop buf parseType_rec k params).
Proof.
  revert params. induction k as [|k IH]; intros params;
    cbn [parseTemplate_end_loop]; frame.
Qed.

Hint Resolve respects_parseTemplate_end_loop : frame.

Lemma respects_parseTemplate_end (ns : option Node) (end_ : nat) :
  Respects R (parseTemplate_end buf parseType_rec fuel ns end_).
Proof. unfold parseTemplate_end. frame. Qed.

Hint Resolve respects_parseTemplate_end : frame.

Lemma respects_parseName_loop (k end_ start c : nat) (name : option Node) :
  Respects R (parseName_loop buf k end_ start c name).
Proof.
  revert start c name. induction k as [|k IH]; intros start c name;
    cbn [parseName_loop]; frame.
Qed.

Hint Resolve respects_parseName_loop : frame.

Lemma respects_parseName (endMangled : nat) :
  Respects R (parseName buf parseType_rec fuel endMangled).
Proof. unfold parseName. frame. Qed.

Hint Resolve respects_parseName : frame.

Lemma respects_parseNamedType (nameLen : Z) (quals : Qualifiers) :
  Respects R (parseNamedType buf parseType_rec fuel nameLen quals).
Proof. unfold parseNamedType. frame. Qed.

Hint Resolve respects_parseNamedType : frame.

Lemma respects_parseType_body :
  Respects R (parseType_body buf parseType_rec fuel).
Proof. unfold parseType_body. frame. Qed.

Lemma respects_parseTemplateName (ns : option Node) :
  Respects R (parseTemplateName buf ns).
Proof. unfold parseTemplateName. frame. Qed.

Lemma respects_parseTemplateParams_body (params : list Node) :
  Respects R (parseTemplateParams_body buf parseType_rec params).
Proof. unfold parseTemplateParams_body. frame. Qed.

Hint Resolve respects_parseTemplateName respects_parseTemplateParams_body
  : frame.

Lemma respects_parseTemplateParams_loop (k id : nat) (params : list Node) :
  Respects R (parseTemplateParams_loop buf parseType_rec k id params).
Proof.
  revert params. induction k as [|k IH]; intros params;
    cbn [parseTemplateParams_loop]; frame.
Qed.

Hint Resolve respects_parseTemplateParams_loop : frame.

Lemma respects_parseTemplateParams :
  Respects R (parseTemplateParams buf parseType_rec fuel).
Proof. unfold parseTemplateParams. frame. Qed.

Hint Resolve respects_parseTemplateParams : frame.

Lemma respects_parseTemplate (ns : option Node) :
  Respects R (parseTemplate buf parseType_rec fuel ns).
Proof. unfold parseTemplate. frame. Qed.

Hint Resolve respects_parseTemplate : frame.

Lemma respects_parseFuncName_loop (k end_ start c : nat) (name : option Node) :
  Respects R (parseFuncName_loop buf k end_ start c name).
Proof.
  revert start c name. induction k as [|k IH]; intros start c name;
    cbn [parseFuncName_loop]; frame.
Qed.

Hint Resolve respects_parseFuncName_loop : frame.

Lemma respects_parseFuncName :
  Respects R (parseFuncName buf parseType_rec fuel).
Proof. unfold parseFuncName. frame. Qed.

Hint Resolve respects_parseFuncName : frame.

(** [parseFunction] and [parse] also set [success] and store the tree. *)
Hypothesis respects_success : Respects R (setStatus success).
Hypothesis respects_setAst : forall a, Respects R (setAst a).

Hint Resolve respects_success respects_setAst : frame.

Lemma respects_parseFunction :
  Respects R (parseFunction buf parseType_rec fuel).
Proof. unfold parseFunction. frame. Qed.

Hint Resolve respects_parseFunction : frame.

Lemma respects_parse : Respects R (parse buf parseType_rec fuel).
Proof. unfold parse. frame. Qed.

End FrameRec.

Lemma respects_parseType (n : nat) : Respects R (parseType buf n).
Proof.
  induction n as [|n IH]; cbn [parseType].
  - apply respects_outOfFuel.
  - now apply respects_parseType_body.
Qed.

End FrameRules.

(** ** The cursor only moves forward, inside the buffer *)

Lemma cursorStep_refl (st : PState) : cursorStep st st.
Proof. unfold cursorStep. auto. Qed.

Lemma cursorStep_trans (a b c : PState) :
  cursorStep a b -> cursorStep b c -> cursorStep a c.
Proof. unfold cursorStep. intros (H1 & H2 & H3) (H4 & H5 & H6). lia. Qed.

Lemma cursorStep_dropFront (n : nat) (st : PState) :
  cursorStep st (set_mangled (sv_dropFront n (_mangled st)) st).
Proof.
  unfold cursorStep, sv_dropFront, sv_size. cbn [set_mangled _mangled First Last].
  lia.
Qed.

Lemma numberLoop_cursor (buf : list ascii) (k : nat) :
  forall (v : StringView) (acc : Z),
    Last (fst (numberLoop buf k v acc)) = Last v /\
    First v <= First (fst (numberLoop buf k v acc)) /\
    (First v <= Last v -> First (fst (numberLoop buf k v acc)) <= Last v).
Proof.
  induction k as [|k IH]; intros v acc; cbn [numberLoop].
  - cbn. lia.
  - destruct (negb (sv_empty v) && isDigit (sv_front buf v)) eqn:E;
      [|cbn; lia].
    apply andb_true_iff in E. destruct E as [E _].
    apply negb_true_iff in E. unfold sv_empty in E. apply Nat.eqb_neq in E.
    unfold sv_popFront.
    specialize (IH (mkStringView (S (First v)) (Last v))
                   (wrapUnsigned (10 * acc + digitValue (charAt buf (First v))))).
    cbn [First Last] in IH. lia.
Qed.

Lemma sv_find_bounds (buf : list ascii) (c : ascii) (k : nat) :
  forall (p last q : nat), sv_find buf k c p last = Some q ->
    p <= q < last /\ charAt buf q = c.
Proof.
  induction k as [|k IH]; intros p last q H; cbn [sv_find] in H; [discriminate|].
  destruct (p <? last) eqn:E; [|discriminate].
  apply Nat.ltb_lt in E.
  destruct (Ascii.eqb (charAt buf p) c) eqn:Ec.
  - inversion H; subst. apply Ascii.eqb_eq in Ec. split; [lia|exact Ec].
  - apply IH in H. destruct H as [H1 H2]. split; [lia|exact H2].
Qed.

Lemma cursor_frame (buf : list ascii) : Frame buf cursorStep.
Proof.
  constructor.
  - apply cursorStep_refl.
  - apply cursorStep_trans.
  - intros f st. unfold cursorStep. cbn. lia.
  - intros st. unfold cursorStep. cbn. lia.
  - intros st a st' H. inversion H; subst. unfold cursorStep. cbn. lia.
  - intros c st a st' H. unfold consumeFront, getMangled, setMangled, bind, ret in H.
    destruct (sv_startsWith_char buf c (_mangled st)); inversion H; subst.
    + apply cursorStep_dropFront.
    + apply cursorStep_refl.
  - intros s st a st' H.
    unfold consumeFront_sv, getMangled, setMangled, bind, ret in H.
    destruct (sv_startsWith buf s (_mangled st)); inversion H; subst.
    + apply cursorStep_dropFront.
    + apply cursorStep_refl.
  - intros c st a st' H. unfold cutUntil, getMangled, setMangled, bind, ret in H.
    unfold sv_cutUntil in H.
    destruct (sv_find buf _ c _ _) as [q|] eqn:E; inversion H; subst.
    + apply sv_find_bounds in E. unfold cursorStep. cbn. lia.
    + destruct st as [[f l] s a0 n fs]. unfold cursorStep. cbn. lia.
  - intros st a st' H.
    unfold parseNumber, getMangled, setMangled, setStatus, bind, ret in H.
    destruct (negb (sv_empty (_mangled st)));
      [destruct (Ascii.eqb _ _)|]; try (inversion H; subst).
    + unfold cursorStep. cbn. lia.
    + pose proof (numberLoop_cursor buf (sv_size (_mangled st)) (_mangled st) 0%Z) as Hn.
      destruct (numberLoop buf _ _ _) as [v' acc]. inversion H; subst.
      cbn [fst] in Hn. unfold cursorStep. cbn. lia.
    + apply cursorStep_refl.
Qed.

Lemma cursorStep_ok (buf : list ascii) (st st' : PState) :
  cursorStep st st' -> cursorOk buf st -> cursorOk buf st'.
Proof. unfold cursorStep, cursorOk. intros (H1 & H2 & H3) (H4 & H5). lia. Qed.

Lemma length_list_ascii_of_string (s : string) :
  List.length (list_ascii_of_string s) = String.length s.
Proof. induction s as [|c s IH]; cbn; [reflexivity|now rewrite IH]. Qed.

(** X1.  The cursor only moves forward and stays inside the buffer: a rule
    run on a cursor that is a view of the buffer leaves a view with the same
    end whose start has not moved back.  This holds for [parseType], for
    [parseFuncType], for [parseFuncName] and for the whole of [parse]; so
    the parser ends with its cursor inside the mangled name. *)
Theorem cursor_moves_forward :
  (forall buf fuel st r st',
      parseType buf fuel st = Some (r, st') ->
      cursorOk buf st ->
      cursorOk buf st' /\ First (_mangled st) <= First (_mangled st'))
  /\ (forall buf fuel quals st r st',
      parseFuncType buf (parseType buf fuel) fuel quals st = Some (r, st') ->
      cursorOk buf st ->
      cursorOk buf st' /\ First (_mangled st) <= First (_mangled st'))
  /\ (forall buf fuel st r st',
      parseFuncName buf (parseType buf fuel) fuel st = Some (r, st') ->
      cursorOk buf st ->
      cursorOk buf st' /\ First (_mangled st) <= First (_mangled st'))
  /\ (forall fuel mangled st,
      BorlandASTParser fuel mangled = Some st ->
      Last (_mangled st) = String.length mangled /\
      First (_mangled st) <= String.length mangled).
Proof.
  assert (Hstep : forall buf st st', cursorStep st st' -> cursorOk buf st ->
            cursorOk buf st' /\ First (_mangled st) <= First (_mangled st')).
  { intros buf st st' Hs Hok. split; [eapply cursorStep_ok; eauto|apply Hs]. }
  split; [|split; [|split]].
  - intros buf fuel st r st' H. apply Hstep.
    exact (respects_parseType buf _ (cursor_frame buf) fuel _ _ _ H).
  - intros buf fuel quals st r st' H. apply Hstep.
    exact (respects_parseFuncType buf _ (cursor_frame buf) _ fuel
             (respects_parseType buf _ (cursor_frame buf) fuel) quals _ _ _ H).
  - intros buf fuel st r st' H. apply Hstep.
    exact (respects_parseFuncName buf _ (cursor_frame buf) _ fuel
             (respects_parseType buf _ (cursor_frame buf) fuel) _ _ _ H).
  - intros fuel mangled st H. unfold BorlandASTParser in H.
    destruct (parse _ _ _ _) as [[u st0]|] eqn:E; [|discriminate].
    inversion H; subst; clear H.
    apply (respects_parse _ _ (cursor_frame _) _ fuel
             (respects_parseType _ _ (cursor_frame _) fuel)) in E.
    + destruct E as (E1 & E2 & E3). cbn in E1, E3.
      rewrite <- (length_list_ascii_of_string mangled).
      split; [exact E1|]. rewrite E1 in E3. apply E3. lia.
    + intros s a s' Hs. inversion Hs; subst. unfold cursorStep. cbn. lia.
    + intros a s a' s' Hs. inversion Hs; subst. unfold cursorStep. cbn. lia.
Qed.

Lemma cursor_moves_forward_witness :
  let buf := list_ascii_of_string "xpi$" in
  let q := mkQualifiers false false in
  let st' := mkPState (mkStringView 3 4) in_progress None 2 [] in
  let fin :=
    mkPState (mkStringView 7 7) success
      (Some (FunctionNode 4 (NameNode 0 "foo")
               (FunctionTypeNode 3 unknown
                  (Some (NodeArray 1 [IntegralTypeNode 2 "int" false q]))
                  None q)))
      5 [] in
  parseType buf 3 (initialState buf)
  = Some (Some (PointerTypeNode 1 (IntegralTypeNode 0 "int" false q)
                  (mkQualifiers false true)), st')
  /\ cursorOk buf st' /\ 0 <= First (_mangled st')
  /\ BorlandASTParser 8 "@foo$qi" = Some fin
  /\ Last (_mangled fin) = 7 /\ First (_mangled fin) <= 7.
Proof.
  intros buf q st' fin.
  assert (H : parseType buf 3 (initialState buf)
              = Some (Some (PointerTypeNode 1
                              (IntegralTypeNode 0 "int" false q)
                              (mkQualifiers false true)), st'))
    by (vm_compute; reflexivity).
  split; [exact H|].
  assert (Hok : cursorOk buf (initialState buf)) by (split; cbn; lia).
  destruct (proj1 cursor_moves_forward buf 3 _ _ _ H Hok) as [H1 H2].
  split; [exact H1|]. split; [exact H2|].
  assert (E : BorlandASTParser 8 "@foo$qi" = Some fin)
    by (vm_compute; reflexivity).
  split; [exact E|].
  exact (proj2 (proj2 (proj2 cursor_moves_forward)) 8 "@foo$qi"%string fin E).
Defined.

(** ** The tree is stored on success only *)

Lemma ast_frame (buf : list ascii) : Frame buf astKept.
Proof.
  constructor; unfold astKept.
  - reflexivity.
  - intros a b c H1 H2. congruence.
  - reflexivity.
  - reflexivity.
  - intros st a st' H. inversion H; subst. reflexivity.
  - intros c st a st' H. unfold consumeFront, getMangled, setMangled, bind, ret in H.
    destruct (sv_startsWith_char buf c (_mangled st)); inversion H; subst;
      reflexivity.
  - intros s st a st' H.
    unfold consumeFront_sv, getMangled, setMangled, bind, ret in H.
    destruct (sv_startsWith buf s (_mangled st)); inversion H; subst;
      reflexivity.
  - intros c st a st' H. unfold cutUntil, getMangled, setMangled, bind, ret in H.
    destruct (sv_cutUntil buf c (_mangled st)). inversion H; subst. reflexivity.
  - intros st a st' H.
    unfold parseNumber, getMangled, setMangled, setStatus, bind, ret in H.
    destruct (negb (sv_empty (_mangled st)));
      [destruct (Ascii.eqb _ _); [|destruct (numberLoop buf _ _ _)]|];
      inversion H; subst; reflexivity.
Qed.

Lemma parseFunction_ast (buf : list ascii) (fuel : nat) (st st' : PState)
  (u : unit) :
  parseFunction buf (parseType buf fuel) fuel st = Some (u, st') ->
  (_status st' = success /\
   exists id name funcType, _ast st' = Some (FunctionNode id name funcType))
  \/ (_status st' = invalid_mangled_name /\ _ast st' = _ast st).
Proof.
  intros H.
  destruct (Status_eqb (_status st') success) eqn:Es.
  - left. assert (Hs : _status st' = success)
      by (destruct (_status st'); (reflexivity || discriminate)).
    split; [exact Hs|]. exact (proj2 (parseFunction_success _ _ _ _ _ _ H Hs)).
  - right.
    assert (Hs : _status st' = invalid_mangled_name).
    { destruct (parseFunction_final _ _ _ _ _ _ H) as [E|E]; [|exact E].
      rewrite E in Es. discriminate. }
    split; [exact Hs|].
    pose proof (ast_frame buf) as HF.
    pose proof (respects_parseType buf _ HF fuel) as Hrec.
    unfold parseFunction in H.
    binv H as b0 s0 Hc0. apply (respects_consume _ _ HF) in Hc0.
    binv H as absNameNode s1 Hname.
    apply (respects_parseFuncName _ _ HF _ fuel Hrec) in Hname.
    binv H as ok1 s2 Hck1. apply (respects_checkResult _ _ HF) in Hck1.
    unfold astKept in *.
    destruct ok1; cbn [negb] in H;
      [|apply ret_inv in H; destruct H; subst; congruence].
    binv H as ok2 s3 Hc2. apply (respects_consume _ _ HF) in Hc2.
    destruct ok2; cbn [negb] in H;
      [|apply ret_inv in H; destruct H; subst; unfold astKept in *; congruence].
    binv H as quals s4 Hq. apply (respects_parseQualifiers _ _ HF) in Hq.
    binv H as funcType s5 Hft.
    apply (respects_parseFuncType _ _ HF _ fuel Hrec) in Hft.
    binv H as ok3 s6 Hck3. apply (respects_checkResult _ _ HF) in Hck3.
    unfold astKept in *.
    destruct ok3; cbn [negb] in H;
      [|apply ret_inv in H; destruct H; subst; congruence].
    binv H as e s7 He. inversion He; subst; clear He.
    destruct (sv_empty (_mangled s7)); cbn [negb] in H.
    + binv H as u0 s8 Hset. inversion Hset; subst; clear Hset.
      exfalso.
      assert (Hst : _status st' = success).
      { destruct absNameNode; [destruct funcType|]; inversion H; subst;
          reflexivity. }
      congruence.
    + inversion H; subst. cbn. congruence.
Qed.

(** X2.  The tree is stored only by a successful parse, so no part of a
    failed parse is ever exposed: when the constructor returns with status
    [success] the member [_ast] is a function node, and with any other
    status [_ast] is still null; [ast()] returns accordingly. *)
Theorem ast_stored_on_success_only :
  forall fuel mangled st,
    BorlandASTParser fuel mangled = Some st ->
    (status st = success ->
       exists id name funcType,
         _ast st = Some (FunctionNode id name funcType)
         /\ ast st = Some (FunctionNode id name funcType))
    /\ (status st <> success -> _ast st = None /\ ast st = None).
Proof.
  intros fuel mangled st H. unfold BorlandASTParser in H.
  destruct (parse _ _ _ _) as [[u st0]|] eqn:E; [|discriminate].
  inversion H; subst; clear H.
  set (buf := list_ascii_of_string mangled) in *.
  assert (Hcases :
    (_status st = success /\
     exists id name funcType, _ast st = Some (FunctionNode id name funcType))
    \/ (_status st <> success /\ _ast st = None)).
  { unfold parse in E. binv E as at_ s0 Hpeek.
    assert (Hs0 : s0 = initialState buf).
    { unfold peekChar, getMangled, bind, ret in Hpeek.
      destruct (negb _) in Hpeek; inversion Hpeek; reflexivity. }
    subst s0. binv E as u1 s1 Hfun. binv E as e s2 Hemp.
    inversion Hemp; subst; clear Hemp.
    assert (H1 : (_status s2 = success /\
              exists id name funcType,
                _ast s2 = Some (FunctionNode id name funcType)
                /\ sv_empty (_mangled s2) = true)
            \/ (_status s2 <> success /\ _ast s2 = None)).
    { destruct at_.
      - pose proof (parseFunction_ast _ _ _ _ _ Hfun) as [[Hs Ha]|[Hs Ha]].
        + left. split; [exact Hs|]. destruct Ha as (id & name & ft & Ha).
          exists id, name, ft. split; [exact Ha|].
          exact (proj1 (parseFunction_success _ _ _ _ _ _ Hfun Hs)).
        + right. split; [congruence|]. rewrite Ha. reflexivity.
      - apply ret_inv in Hfun. destruct Hfun; subst. right.
        split; [discriminate|reflexivity]. }
    destruct H1 as [(Hs & id & name & ft & Ha & Hemp)|(Hs & Ha)].
    - rewrite Hemp in E. cbn [negb] in E. apply ret_inv in E.
      destruct E; subst. left. eauto.
    - right. destruct (sv_empty (_mangled s2)); cbn [negb] in E.
      + apply ret_inv in E. destruct E; subst. auto.
      + inversion E; subst. cbn. split; [discriminate|exact Ha]. }
  unfold status, ast.
  destruct Hcases as [(Hs & id & name & ft & Ha)|(Hs & Ha)].
  - split; [|congruence]. intros _. exists id, name, ft.
    rewrite Hs. cbn. auto.
  - split; [congruence|]. intros _. split; [exact Ha|].
    destruct (Status_eqb (_status st) success); [exact Ha|reflexivity].
Qed.

Lemma ast_stored_on_success_only_witness :
  let bad := mkPState (mkStringView 7 7) invalid_mangled_name None 4 [] in
  BorlandASTParser 8 "@f$qhri" = Some bad
  /\ _ast bad = None /\ ast bad = None.
Proof.
  intros bad.
  assert (E : BorlandASTParser 8 "@f$qhri" = Some bad) by (vm_compute; reflexivity).
  split; [exact E|].
  apply (proj2 (ast_stored_on_success_only 8 "@f$qhri"%string bad E)).
  discriminate.
Defined.

(** ** What the constructor leaves for inputs of each shape *)

(** X3.  When the constructor returns, the status is [in_progress] exactly
    for the empty input: every non-empty input ends in [success] or
    [invalid_mangled_name]. *)
Theorem in_progress_only_for_empty_input :
  forall fuel mangled st,
    BorlandASTParser fuel mangled = Some st ->
    (status st = in_progress <-> mangled = EmptyString).
Proof.
  intros fuel mangled st H. split.
  - intros Hs. destruct mangled as [|c s]; [reflexivity|]. exfalso.
    destruct (BorlandASTParser_nonempty_final fuel (String c s) st
                ltac:(discriminate) H) as [E|E];
      rewrite E in Hs; discriminate Hs.
  - intros ->.
    assert (E : BorlandASTParser fuel EmptyString = Some (initialState []))
      by reflexivity.
    rewrite E in H. inversion H; subst. reflexivity.
Qed.

Lemma in_progress_only_for_empty_input_witness :
  let bad := mkPState (mkStringView 7 7) invalid_mangled_name None 4 [] in
  BorlandASTParser 8 "@f$qhri" = Some bad
  /\ (status bad = in_progress <-> "@f$qhri"%string = EmptyString).
Proof.
  intros bad.
  assert (E : BorlandASTParser 8 "@f$qhri" = Some bad)
    by (vm_compute; reflexivity).
  split; [exact E|].
  exact (in_progress_only_for_empty_input 8 "@f$qhri"%string bad E).
Defined.

(** X4.  A non-empty input that does not begin with '@' is refused at once:
    nothing is consumed, no node is created, and the status is
    [invalid_mangled_name], whatever the fuel.  So an input the parser
    accepts begins with '@'. *)
Theorem input_must_start_with_at :
  (forall fuel c s,
      c <> "@"%char ->
      BorlandASTParser fuel (String c s)
      = Some (set_status invalid_mangled_name
                (initialState (list_ascii_of_string (String c s)))))
  /\ (forall fuel mangled st,
      BorlandASTParser fuel mangled = Some st ->
      status st = success ->
      exists s, mangled = String "@" s).
Proof.
  assert (H1 : forall fuel c s,
      c <> "@"%char ->
      BorlandASTParser fuel (String c s)
      = Some (set_status invalid_mangled_name
                (initialState (list_ascii_of_string (String c s))))).
  { intros fuel c s Hc. unfold BorlandASTParser, parse.
    cbn [list_ascii_of_string].
    unfold peekChar, empty, getMangled, bind, ret, initialState, sv_empty,
      sv_front, charAt.
    cbn [_mangled First Last List.length Nat.eqb negb nth].
    apply Ascii.eqb_neq in Hc. rewrite Hc. reflexivity. }
  split; [exact H1|].
  intros fuel mangled st H Hs.
  destruct mangled as [|c s].
  - assert (E : BorlandASTParser fuel EmptyString = Some (initialState []))
      by reflexivity.
    rewrite E in H. inversion H; subst. discriminate Hs.
  - destruct (Ascii.ascii_dec c "@") as [->|Hc]; [now exists s|].
    rewrite (H1 fuel c s Hc) in H. inversion H; subst. discriminate Hs.
Qed.

Lemma input_must_start_with_at_witness :
  BorlandASTParser 0 "foo$qi"
  = Some (set_status invalid_mangled_name
            (initialState (list_ascii_of_string "foo$qi"))).
Proof.
  apply (proj1 input_must_start_with_at 0 "f"%char "oo$qi"%string).
  discriminate.
Defined.

(** ** The error status is final *)

Lemma checkResult_invalid (node : option Node) (st : PState) :
  _status st = invalid_mangled_name ->
  checkResult node st = Some (false, set_status invalid_mangled_name st).
Proof.
  intros H. unfold checkResult, getStatus, setStatus, bind, ret.
  rewrite H. destruct node; reflexivity.
Qed.

Lemma parseFunction_sticky (buf : list ascii) (fuel : nat) (st st' : PState)
  (u : unit) :
  _status st = invalid_mangled_name ->
  parseFunction buf (parseType buf fuel) fuel st = Some (u, st') ->
  _status st' = invalid_mangled_name.
Proof.
  intros Hs H. unfold parseFunction in H.
  binv H as b0 s0 Hc0. apply mono_consume in Hc0.
  binv H as absNameNode s1 Hname.
  apply (mono_parseFuncName buf _ fuel (mono_parseType buf fuel)) in Hname.
  assert (Hs1 : _status s1 = invalid_mangled_name)
    by (destruct Hc0, Hname; congruence).
  rewrite (bind_Some _ _ _ _ _ (checkResult_invalid absNameNode s1 Hs1)) in H.
  cbn [negb] in H. apply ret_inv in H. destruct H; subst. reflexivity.
Qed.

(** X5.  [invalid_mangled_name] is final.  A rule started with that status
    leaves it in place: [parseType] and [parseFuncType] because no rule
    below [parseFunction] sets another status, [parseFunction] because its
    first [checkResult] stops it before [success] can be set, and [parse]
    because it only ever adds [invalid_mangled_name]. *)
Theorem error_is_final :
  forall buf fuel st,
    _status st = invalid_mangled_name ->
    (forall r st', parseType buf fuel st = Some (r, st') ->
                   _status st' = invalid_mangled_name)
    /\ (forall quals r st',
         parseFuncType buf (parseType buf fuel) fuel quals st = Some (r, st') ->
         _status st' = invalid_mangled_name)
    /\ (forall u st',
         parseFunction buf (parseType buf fuel) fuel st = Some (u, st') ->
         _status st' = invalid_mangled_name)
    /\ (forall u st',
         parse buf (parseType buf fuel) fuel st = Some (u, st') ->
         _status st' = invalid_mangled_name).
Proof.
  intros buf fuel st Hs. split; [|split; [|split]].
  - intros r st' H. apply mono_parseType in H. destruct H; congruence.
  - intros quals r st' H.
    apply (mono_parseFuncType buf _ fuel (mono_parseType buf fuel)) in H.
    destruct H; congruence.
  - intros u st' H. eapply parseFunction_sticky; eauto.
  - intros u st' H. unfold parse in H.
    binv H as at_ s0 Hpeek. apply mono_peekChar in Hpeek.
    assert (Hs0 : _status s0 = invalid_mangled_name)
      by (destruct Hpeek; congruence).
    binv H as u1 s1 Hfun.
    assert (Hs1 : _status s1 = invalid_mangled_name).
    { destruct at_.
      - eapply parseFunction_sticky; eauto.
      - apply ret_inv in Hfun. destruct Hfun; subst. exact Hs0. }
    binv H as e s2 Hemp. inversion Hemp; subst; clear Hemp.
    destruct (sv_empty (_mangled s2)); cbn [negb] in H.
    + apply ret_inv in H. destruct H; subst. exact Hs1.
    + inversion H; subst. reflexivity.
Qed.

Lemma error_is_final_witness :
  let buf := list_ascii_of_string "@foo$qi" in
  let st := set_status invalid_mangled_name (initialState buf) in
  let st' := mkPState (mkStringView 4 7) invalid_mangled_name None 1 [] in
  parse buf (parseType buf 8) 8 st = Some (tt, st')
  /\ _status st' = invalid_mangled_name.
Proof.
  intros buf st st'.
  assert (E : parse buf (parseType buf 8) 8 st = Some (tt, st'))
    by (vm_compute; reflexivity).
  split; [exact E|].
  exact (proj2 (proj2 (proj2 (error_is_final buf 8 st eq_refl))) tt st' E).
Defined.

(** ** Built-in types *)

Lemma consumeFront_inv (buf : list ascii) (c : ascii) (st st' : PState)
  (b : bool) :
  consumeFront buf c st = Some (b, st') ->
  First (_mangled st) <= Last (_mangled st) ->
  (b = true /\ sv_startsWith_char buf c (_mangled st) = true
   /\ consumed 1 st st')
  \/ (b = false /\ sv_startsWith_char buf c (_mangled st) = false /\ st' = st).
Proof.
  intros H Hle. unfold consumeFront, getMangled, setMangled, bind, ret in H.
  destruct (sv_startsWith_char buf c (_mangled st)) eqn:E; inversion H; subst.
  - left. split; [reflexivity|]. split; [reflexivity|].
    unfold sv_startsWith_char in E. apply andb_true_iff in E.
    destruct E as [E _]. apply negb_true_iff in E. unfold sv_empty in E.
    apply Nat.eqb_neq in E. unfold consumed, sv_dropFront, sv_size.
    replace (Nat.min 1 (Last (_mangled st) - First (_mangled st))) with 1 by lia.
    reflexivity.
  - right. auto.
Qed.

Lemma consumeFront_sv_inv (buf : list ascii) (s : list ascii)
  (st st' : PState) (b : bool) :
  consumeFront_sv buf s st = Some (b, st') ->
  (b = true /\ sv_startsWith buf s (_mangled st) = true
   /\ consumed (List.length s) st st')
  \/ (b = false /\ sv_startsWith buf s (_mangled st) = false /\ st' = st).
Proof.
  intros H. unfold consumeFront_sv, getMangled, setMangled, bind, ret in H.
  destruct (sv_startsWith buf s (_mangled st)) eqn:E; inversion H; subst.
  - left. split; [reflexivity|]. split; [reflexivity|].
    unfold sv_startsWith in E. apply andb_true_iff in E.
    destruct E as [E _]. apply Nat.leb_le in E.
    unfold consumed, sv_dropFront.
    replace (Nat.min (List.length s) (sv_size (_mangled st)))
      with (List.length s) by lia.
    reflexivity.
  - right. auto.
Qed.

Lemma consumed_le (n : nat) (st st' : PState) :
  consumed n st st' ->
  First (_mangled st') = First (_mangled st) + n /\
  Last (_mangled st') = Last (_mangled st) /\
  _status st' = _status st /\ nextId st' = nextId st /\
  _ast st' = _ast st /\ faults st' = faults st.
Proof. intros ->. cbn. repeat split; reflexivity. Qed.

(** Takes the next [consumeIfPossible] of a finished rule apart: [s] names
    the state after a hit, [Hsw] the fact about the cursor, [Hcon] the
    consumption. *)
Tactic Notation "consume_cases" hyp(H) hyp(Hle) "as" ident(s) ident(Hsw) ident(Hcon) :=
  let b := fresh "b" in
  let Hc := fresh "Hc" in
  binv H as b s Hc;
  first [ apply consumeFront_sv_inv in Hc
        | apply consumeFront_inv in Hc; [|exact Hle] ];
  destruct Hc as [(-> & Hsw & Hcon)|(-> & Hsw & ->)].

(** Closes the case of a character that was consumed and a node created. *)
Ltac hit H Hcon :=
  apply consumed_le in Hcon; cbn [List.length list_ascii_of_string] in Hcon;
  destruct Hcon as (? & ? & ? & ? & ? & ?);
  inversion H; subst; cbn;
  repeat split; try reflexivity; try congruence; try lia.

Lemma parseBuildInType_cases (buf : list ascii) (quals : Qualifiers)
  (st st' : PState) (r : option Node) :
  parseBuildInType buf quals st = Some (r, st') ->
  First (_mangled st) <= Last (_mangled st) ->
  match r with
  | Some n =>
      isBuiltInKind n = true /\ nodeQuals n = Some quals
      /\ nodeId n = nextId st /\ nextId st' = S (nextId st)
      /\ _status st' = _status st
      /\ Last (_mangled st') = Last (_mangled st)
      /\ (First (_mangled st') = First (_mangled st) + 1 \/
          First (_mangled st') = First (_mangled st) + 2)
  | None =>
      st' = st \/
      (sv_startsWith_char buf "u" (_mangled st) = true
       /\ st' = set_status invalid_mangled_name
                  (set_mangled (mkStringView (S (First (_mangled st)))
                                             (Last (_mangled st))) st))
  end.
Proof.
  intros H Hle. unfold parseBuildInType, consumeIfPossible,
    consumeIfPossible_sv in H.
  consume_cases H Hle as s1 Hsw1 Hcon; [hit H Hcon|].
  consume_cases H Hle as s2 Hsw2 Hcon; [hit H Hcon|].
  consume_cases H Hle as s3 Hsw3 Hcon; [hit H Hcon|].
  consume_cases H Hle as s4 Hsw4 Hcon; [hit H Hcon|].
  consume_cases H Hle as s5 Hsw5 Hcon; [hit H Hcon|].
  consume_cases H Hle as s6 Hsw6 Hcon; [hit H Hcon|].
  consume_cases H Hle as su Hswu Hconu.
  - (* 'u' consumed *)
    pose proof (consumed_le _ _ _ Hconu) as (F1 & F2 & F3 & F4 & F5 & F6).
    assert (Hle' : First (_mangled su) <= Last (_mangled su)).
    { unfold sv_startsWith_char, sv_empty in Hswu. apply andb_true_iff in Hswu.
      destruct Hswu as [E _]. apply negb_true_iff, Nat.eqb_neq in E. lia. }
    consume_cases H Hle' as s7 Hsw7 Hcon; [hit H Hcon|].
    consume_cases H Hle' as s8 Hsw8 Hcon; [hit H Hcon|].
    consume_cases H Hle' as s9 Hsw9 Hcon; [hit H Hcon|].
    consume_cases H Hle' as s10 Hsw10 Hcon; [hit H Hcon|].
    inversion H; subst. right. split; [exact Hswu|].
    unfold consumed in Hconu. rewrite Hconu.
    replace (First (_mangled st) + 1) with (S (First (_mangled st))) by lia.
    reflexivity.
  - consume_cases H Hle as s7 Hsw7 Hcon; [hit H Hcon|].
    consume_cases H Hle as s8 Hsw8 Hcon; [hit H Hcon|].
    consume_cases H Hle as s9 Hsw9 Hcon; [hit H Hcon|].
    consume_cases H Hle as s10 Hsw10 Hcon; [hit H Hcon|].
    consume_cases H Hle as s11 Hsw11 Hcon; [hit H Hcon|].
    consume_cases H Hle as s12 Hsw12 Hcon; [hit H Hcon|].
    consume_cases H Hle as s13 Hsw13 Hcon; [hit H Hcon|].
    inversion H; subst. now left.
Qed.

(** X6.  What [parseBuildInType] gives back on a cursor that is a view.  A
    node is of one of the four built-in kinds and carries the qualifiers
    passed in; one or two characters were consumed and the status is as it
    was.  A null node comes with the parser untouched (the rule did
    nothing), or, after a 'u' that none of 's', 'i', 'l', 'j' follows, with
    that 'u' consumed and the status [invalid_mangled_name]. *)
Theorem parseBuildInType_result :
  forall buf quals st st' r,
    parseBuildInType buf quals st = Some (r, st') ->
    First (_mangled st) <= Last (_mangled st) ->
    match r with
    | Some n =>
        isBuiltInKind n = true /\ nodeQuals n = Some quals
        /\ _status st' = _status st
        /\ Last (_mangled st') = Last (_mangled st)
        /\ (First (_mangled st') = First (_mangled st) + 1 \/
            First (_mangled st') = First (_mangled st) + 2)
    | None =>
        st' = st \/
        (sv_startsWith_char buf "u" (_mangled st) = true
         /\ st' = set_status invalid_mangled_name
                    (set_mangled (mkStringView (S (First (_mangled st)))
                                               (Last (_mangled st))) st))
    end.
Proof.
  intros buf quals st st' r H Hle.
  pose proof (parseBuildInType_cases buf quals st st' r H Hle) as Hc.
  destruct r as [n|]; [|exact Hc].
  destruct Hc as (Hk & Hq & _ & _ & Hs & Hl & Hf).
  repeat split; assumption.
Qed.

Lemma parseBuildInType_result_witness :
  let buf := list_ascii_of_string "ui" in
  let q := mkQualifiers false true in
  let st' := mkPState (mkStringView 2 2) in_progress None 1 [] in
  parseBuildInType buf q (initialState buf)
  = Some (Some (IntegralTypeNode 0 "int" true q), st')
  /\ isBuiltInKind (IntegralTypeNode 0 "int" true q) = true
  /\ nodeQuals (IntegralTypeNode 0 "int" true q) = Some q
  /\ _status st' = in_progress.
Proof.
  intros buf q st'.
  assert (H : parseBuildInType buf q (initialState buf)
              = Some (Some (IntegralTypeNode 0 "int" true q), st'))
    by (vm_compute; reflexivity).
  split; [exact H|].
  assert (Hle : First (_mangled (initialState buf))
                <= Last (_mangled (initialState buf))) by (cbn; lia).
  destruct (parseBuildInType_result buf q _ _ _ H Hle)
    as (Hk & Hq & Hs & _).
  split; [exact Hk|]. split; [exact Hq|exact Hs].
Defined.

(** ** Numbers *)

Lemma wrapUnsigned_range (z : Z) : (0 <= wrapUnsigned z < 2 ^ UINT_WIDTH)%Z.
Proof. unfold wrapUnsigned. apply Z.mod_pos_bound. reflexivity. Qed.

Lemma numberLoop_spec (buf : list ascii) (k : nat) :
  forall (v : StringView) (acc : Z),
    Last v - First v <= k ->
    First v <= Last v ->
    (0 <= acc < 2 ^ UINT_WIDTH)%Z ->
    let v' := fst (numberLoop buf k v acc) in
    let r := snd (numberLoop buf k v acc) in
    Last v' = Last v /\ First v <= First v' <= Last v
    /\ (forall p, First v <= p < First v' -> isDigit (charAt buf p) = true)
    /\ (First v' = Last v \/ isDigit (charAt buf (First v')) = false)
    /\ (0 <= r < 2 ^ UINT_WIDTH)%Z
    /\ (First v' = First v -> r = acc).
Proof.
  induction k as [|k IH]; intros v acc Hk Hle Hacc; cbn [numberLoop].
  - cbn [fst snd]. repeat split; try lia; try solve [left; lia].
  - destruct (sv_empty v) eqn:Ee; cbn [negb andb].
    + unfold sv_empty in Ee. apply Nat.eqb_eq in Ee. cbn [fst snd].
      repeat split; try lia; try solve [left; lia].
    + unfold sv_empty in Ee. apply Nat.eqb_neq in Ee.
      destruct (isDigit (sv_front buf v)) eqn:Ed.
      * unfold sv_popFront.
        specialize (IH (mkStringView (S (First v)) (Last v))
                      (wrapUnsigned (10 * acc + digitValue (charAt buf (First v))))).
        cbn [First Last] in IH.
        destruct (IH ltac:(lia) ltac:(lia) (wrapUnsigned_range _))
          as (H1 & H2 & H3 & H4 & H5 & H6).
        repeat split; try lia; try assumption.
        intros p Hp. destruct (Nat.eq_dec p (First v)) as [->|Hne].
        -- exact Ed.
        -- apply H3. lia.
      * cbn [fst snd]. repeat split; try lia; try solve [right; exact Ed].
Qed.

Lemma parseNumber_cases (buf : list ascii) (st st' : PState) (n : Z) :
  parseNumber buf st = Some (n, st') ->
  First (_mangled st) <= Last (_mangled st) ->
  peekNumber buf st = Some (n, st)
  /\ (0 <= n < 2 ^ UINT_WIDTH)%Z
  /\ ((n = 0%Z /\ st' = st
       /\ (First (_mangled st) = Last (_mangled st)
           \/ isDigit (sv_front buf (_mangled st)) = false))
      \/ (n = 0%Z /\ st' = set_status invalid_mangled_name st
          /\ First (_mangled st) < Last (_mangled st)
          /\ sv_front buf (_mangled st) = "0"%char)
      \/ (exists e,
            First (_mangled st) < e <= Last (_mangled st)
            /\ st' = set_mangled (mkStringView e (Last (_mangled st))) st
            /\ sv_front buf (_mangled st) <> "0"%char
            /\ (forall p, First (_mangled st) <= p < e ->
                          isDigit (charAt buf p) = true)
            /\ (e = Last (_mangled st) \/ isDigit (charAt buf e) = false))).
Proof.
  intros H Hle.
  unfold parseNumber, peekNumber, getMangled, setMangled, setStatus, bind, ret in *.
  destruct (sv_empty (_mangled st)) eqn:Ee; cbn [negb] in *.
  - inversion H; subst. split; [reflexivity|]. split; [cbn; lia|].
    left. unfold sv_empty in Ee. apply Nat.eqb_eq in Ee. auto.
  - unfold sv_empty in Ee. apply Nat.eqb_neq in Ee.
    destruct (Ascii.eqb (sv_front buf (_mangled st)) "0") eqn:E0.
    + inversion H; subst. split; [reflexivity|]. split; [cbn; lia|].
      right. left. apply Ascii.eqb_eq in E0. repeat split; try lia; assumption.
    + pose proof (numberLoop_spec buf (sv_size (_mangled st)) (_mangled st) 0%Z
                    ltac:(unfold sv_size; lia) Hle ltac:(cbn; lia)) as Hs.
      cbn zeta in Hs.
      destruct (numberLoop buf _ _ _) as [v' acc]. cbn [fst snd] in Hs.
      destruct Hs as (H1 & H2 & H3 & H4 & H5 & H6).
      inversion H; subst. split; [reflexivity|]. split; [exact H5|].
      destruct (Nat.eq_dec (First v') (First (_mangled st))) as [Heq|Hne].
      * left. split; [now apply H6|]. split.
        -- destruct st as [[f l] s a i fs]. destruct v' as [f' l'].
           cbn in *. subst. reflexivity.
        -- right. rewrite Heq in H4. destruct H4 as [H4|H4]; [lia|exact H4].
      * right. right. exists (First v'). split; [lia|]. split.
        -- destruct v' as [f' l']. cbn in *. subst. reflexivity.
        -- split; [apply Ascii.eqb_neq; exact E0|]. split; [exact H3|].
           rewrite <- H1. destruct H4 as [H4|H4]; [left; lia|right; exact H4].
Qed.

(** X7.  [parseNumber] on a cursor that is a view returns the number
    [peekNumber] announces, always below [2^32].  On an empty cursor or a
    first character that is no digit it returns 0 and touches nothing; a
    leading '0' gives 0, sets [invalid_mangled_name] and consumes nothing;
    otherwise exactly the longest run of digits is consumed and the status
    stays as it was. *)
Theorem parseNumber_result :
  forall buf st st' n,
    parseNumber buf st = Some (n, st') ->
    First (_mangled st) <= Last (_mangled st) ->
    peekNumber buf st = Some (n, st)
    /\ (0 <= n < 2 ^ UINT_WIDTH)%Z
    /\ ((n = 0%Z /\ st' = st
         /\ (First (_mangled st) = Last (_mangled st)
             \/ isDigit (sv_front buf (_mangled st)) = false))
        \/ (n = 0%Z /\ st' = set_status invalid_mangled_name st
            /\ First (_mangled st) < Last (_mangled st)
            /\ sv_front buf (_mangled st) = "0"%char)
        \/ (exists e,
              First (_mangled st) < e <= Last (_mangled st)
              /\ st' = set_mangled (mkStringView e (Last (_mangled st))) st
              /\ sv_front buf (_mangled st) <> "0"%char
              /\ (forall p, First (_mangled st) <= p < e ->
                            isDigit (charAt buf p) = true)
              /\ (e = Last (_mangled st) \/ isDigit (charAt buf e) = false))).
Proof. intros buf st st' n. apply parseNumber_cases. Qed.

Lemma parseNumber_result_witness :
  let buf := list_ascii_of_string "12a" in
  let st := initialState buf in
  parseNumber buf st = Some (12%Z, set_mangled (mkStringView 2 3) st)
  /\ peekNumber buf st = Some (12%Z, st)
  /\ (0 <= 12 < 2 ^ UINT_WIDTH)%Z.
Proof.
  intros buf st.
  assert (H : parseNumber buf st
              = Some (12%Z, set_mangled (mkStringView 2 3) st))
    by (vm_compute; reflexivity).
  assert (Hle : First (_mangled st) <= Last (_mangled st)) by (cbn; lia).
  split; [exact H|].
  destruct (parseNumber_result buf st _ 12%Z H Hle) as (H1 & H2 & _).
  split; [exact H1|exact H2].
Defined.

(** ** Calling conventions *)

Lemma skipn_nth_cons (l : list ascii) (n : nat) :
  n < List.length l ->
  skipn n l = nth n l Ascii.zero :: skipn (S n) l.
Proof.
  revert n. induction l as [|x l IH]; intros n Hn; cbn in Hn; [lia|].
  destruct n as [|n]; [reflexivity|].
  cbn [skipn nth]. apply IH. lia.
Qed.

Lemma list_ascii_eqb_refl (l : list ascii) : list_ascii_eqb l l = true.
Proof.
  induction l as [|x l IH]; [reflexivity|].
  cbn. now rewrite Ascii.eqb_refl, IH.
Qed.

Lemma list_ascii_eqb_eq (a b : list ascii) :
  list_ascii_eqb a b = true -> a = b.
Proof.
  revert b. induction a as [|x a IH]; intros [|y b] H; cbn in H;
    try discriminate; [reflexivity|].
  apply andb_true_iff in H. destruct H as [H1 H2].
  apply Ascii.eqb_eq in H1. apply IH in H2. congruence.
Qed.

Lemma sv_startsWith_front (buf : list ascii) (c : ascii) (s : list ascii)
  (v : StringView) :
  sv_startsWith buf (c :: s) v = true ->
  Last v <= List.length buf ->
  First v < Last v /\ sv_front buf v = c.
Proof.
  unfold sv_startsWith, sv_size, sv_front, charAt. intros H Hlen.
  apply andb_true_iff in H. destruct H as [H1 H2].
  apply Nat.leb_le in H1. cbn [List.length] in *.
  split; [lia|].
  rewrite (skipn_nth_cons buf (First v)) in H2 by lia.
  cbn [firstn list_ascii_eqb] in H2. apply andb_true_iff in H2.
  destruct H2 as [H2 _]. apply Ascii.eqb_eq in H2. now symmetry.
Qed.

Lemma sv_startsWith_single (buf : list ascii) (c : ascii) (v : StringView) :
  First v <= Last v ->
  Last v <= List.length buf ->
  sv_startsWith buf [c] v = sv_startsWith_char buf c v.
Proof.
  intros Hle Hlen.
  unfold sv_startsWith, sv_startsWith_char, sv_empty, sv_size, sv_front, charAt.
  cbn [List.length].
  destruct (Nat.eq_dec (First v) (Last v)) as [E|E].
  - rewrite E, Nat.eqb_refl, Nat.sub_diag. reflexivity.
  - replace (First v =? Last v) with false by (symmetry; apply Nat.eqb_neq; lia).
    replace (1 <=? Last v - First v) with true by (symmetry; apply Nat.leb_le; lia).
    rewrite (skipn_nth_cons buf (First v)) by lia.
    cbn [firstn list_ascii_eqb negb andb]. rewrite andb_true_r.
    apply Ascii.eqb_sym.
Qed.

Lemma parseCallConv_cases :
  forall buf st cc st',
    parseCallConv buf st = Some (cc, st') ->
    cursorOk buf st ->
    (sv_startsWith_char buf "q" (_mangled st) = false
     /\ cc = unknown /\ st' = set_status invalid_mangled_name st)
    \/ (sv_startsWith_char buf "q" (_mangled st) = true
        /\ ((cc = fastcall /\ consumed 3 st st'
             /\ sv_startsWith buf (list_ascii_of_string "qqr") (_mangled st) = true)
            \/ (cc = stdcall /\ consumed 3 st st'
                /\ sv_startsWith buf (list_ascii_of_string "qqs") (_mangled st) = true)
            \/ (cc = unknown /\ consumed 1 st st'))).
Proof.
  intros buf st cc st' H [Hlast Hle]. unfold parseCallConv in H.
  assert (Hlen : Last (_mangled st) <= List.length buf) by lia.
  assert (Hq : forall s, sv_startsWith buf ("q"%char :: s) (_mangled st) = true ->
                         sv_startsWith_char buf "q" (_mangled st) = true).
  { intros s Hs. destruct (sv_startsWith_front _ _ _ _ Hs Hlen) as [H1 H2].
    unfold sv_startsWith_char, sv_empty. rewrite H2, Ascii.eqb_refl.
    replace (First (_mangled st) =? Last (_mangled st)) with false
      by (symmetry; apply Nat.eqb_neq; lia).
    reflexivity. }
  binv H as b1 s1 Hc1. apply consumeFront_sv_inv in Hc1.
  destruct Hc1 as [(-> & Hsw1 & Hcon1)|(-> & Hsw1 & ->)].
  { apply ret_inv in H. destruct H; subst. right.
    split; [exact (Hq _ Hsw1)|]. left. auto. }
  binv H as b2 s2 Hc2. apply consumeFront_sv_inv in Hc2.
  destruct Hc2 as [(-> & Hsw2 & Hcon2)|(-> & Hsw2 & ->)].
  { apply ret_inv in H. destruct H; subst. right.
    split; [exact (Hq _ Hsw2)|]. right. left. auto. }
  binv H as b3 s3 Hc3. apply consumeFront_sv_inv in Hc3.
  destruct Hc3 as [(-> & Hsw3 & Hcon3)|(-> & Hsw3 & ->)].
  { apply ret_inv in H. destruct H; subst. right.
    split; [exact (Hq _ Hsw3)|]. right. right. auto. }
  inversion H; subst. left.
  cbn [list_ascii_of_string] in Hsw3.
  rewrite (sv_startsWith_single buf "q" (_mangled st) Hle Hlen) in Hsw3.
  auto.
Qed.



(** ** Every type consumes *)

(** Proves that a sequence of rules respects a relation with frame [HF],
    [Hrec] being the fact for the recursive call. *)
Ltac frame_leaf HF Hrec :=
  first
    [ exact Hrec
    | apply (respects_ret _ _ HF)
    | apply (respects_outOfFuel _ _)
    | apply (respects_getMangled _ _ HF)
    | apply (respects_getStatus _ _ HF)
    | apply (respects_setInvalid _ _ HF)
    | apply (respects_newId _ _ HF)
    | apply (respects_empty _ _ HF)
    | apply (respects_front _ _ HF)
    | apply (respects_peekChar _ _ HF)
    | apply (respects_statusOk _ _ HF)
    | apply (respects_checkResult _ _ HF)
    | apply (respects_consumeIfPossible _ _ HF)
    | apply (respects_consumeIfPossible_sv _ _ HF)
    | apply (respects_consumeFront _ _ HF)
    | apply (respects_consumeFront_sv _ _ HF)
    | apply (respects_consume _ _ HF)
    | apply (respects_cutUntil _ _ HF)
    | apply (respects_create _ _ HF)
    | apply (respects_createPtr _ _ HF)
    | apply (respects_peekNumber _ _ HF)
    | apply (respects_parseNumber _ _ HF)
    | apply (respects_parseQualifiers _ _ HF)
    | apply (respects_parseCallConv _ _ HF)
    | apply (respects_parseBuildInType _ _ HF)
    | apply (respects_appendName _ _ HF)
    | apply (respects_parseFuncParams _ _ HF); exact Hrec
    | apply (respects_parseFuncParams_loop _ _ HF); exact Hrec
    | apply (respects_parseFuncType _ _ HF); exact Hrec
    | apply (respects_parsePointer _ _ HF); exact Hrec
    | apply (respects_parseReference _ _ HF); exact Hrec
    | apply (respects_parseRReference _ _ HF); exact Hrec
    | apply (respects_parseArray _ _ HF); exact Hrec
    | apply (respects_parseTemplate_end_loop _ _ HF); exact Hrec
    | apply (respects_parseTemplate_end _ _ HF); exact Hrec
    | apply (respects_parseName_loop _ _ HF)
    | apply (respects_parseName _ _ HF); exact Hrec
    | apply (respects_parseNamedType _ _ HF); exact Hrec
    | apply (respects_parseTemplateName _ _ HF)
    | apply (respects_parseTemplateParams _ _ HF); exact Hrec
    | apply (respects_parseTemplateParams_loop _ _ HF); exact Hrec
    | apply (respects_parseTemplate _ _ HF); exact Hrec
    | apply (respects_parseFuncName _ _ HF); exact Hrec ].

Ltac frame_with HF Hrec :=
  cbv zeta;
  repeat match goal with
         | |- Respects _ (bind _ _) => apply (respects_bind _ _ HF); [|intro]
         | |- Respects _ (if ?b then _ else _) => destruct b
         | |- Respects _ (match ?x with _ => _ end) => destruct x
         | |- Respects _ _ => frame_leaf HF Hrec
         end.

(** From a finished computation [H : m s = Some (a, s')], the step of the
    cursor from [s] to [s']. *)
Ltac cursor_of H HF Hrec Hnew :=
  match type of H with
  | ?m ?s = Some (?a, ?s') =>
      assert (Hnew : cursorStep s s')
        by (cut (Respects cursorStep m);
            [ let X := fresh in intro X; exact (X _ _ _ H)
            | frame_with HF Hrec ])
  end.

Lemma parseFuncType_progress (buf : list ascii) (rec : M (option Node))
  (fuel : nat) (quals : Qualifiers) (st st' : PState) (n : Node) :
  Respects cursorStep rec ->
  cursorOk buf st ->
  parseFuncType buf rec fuel quals st = Some (Some n, st') ->
  First (_mangled st) < First (_mangled st').
Proof.
  intros Hrec Hok H. pose proof (cursor_frame buf) as HF.
  unfold parseFuncType in H.
  binv H as callConv s1 Hcc.
  cursor_of H HF Hrec Hstep.
  destruct (parseCallConv_cases _ _ _ _ Hcc Hok)
    as [(_ & _ & ->)|(_ & [(_ & Hc & _)|[(_ & Hc & _)|(_ & Hc)]])].
  - exfalso. unfold statusOk, getStatus, bind, ret in H. cbn in H.
    inversion H.
  - apply consumed_le in Hc. destruct Hstep as (_ & Hs & _). lia.
  - apply consumed_le in Hc. destruct Hstep as (_ & Hs & _). lia.
  - apply consumed_le in Hc. destruct Hstep as (_ & Hs & _). lia.
Qed.

Lemma cursorStep_first (buf : list ascii) (st st' : PState) :
  cursorStep st st' -> cursorOk buf st ->
  First (_mangled st) <= First (_mangled st') /\ cursorOk buf st'.
Proof. intros H Hok. split; [apply H|eapply cursorStep_ok; eauto]. Qed.

Lemma parseType_body_progress (buf : list ascii) (rec : M (option Node))
  (fuel : nat) (st st' : PState) (n : Node) :
  Respects cursorStep rec ->
  cursorOk buf st ->
  parseType_body buf rec fuel st = Some (Some n, st') ->
  First (_mangled st) < First (_mangled st').
Proof.
  intros Hrec Hok H. pose proof (cursor_frame buf) as HF.
  unfold parseType_body, consumeIfPossible in H.
  binv H as quals s0 Hq.
  apply (respects_parseQualifiers _ _ HF) in Hq.
  destruct (cursorStep_first _ _ _ Hq Hok) as [Hq1 Hok0].
  assert (Hle0 : First (_mangled s0) <= Last (_mangled s0)) by apply Hok0.
  assert (Hhit : forall s1 m,
             consumed 1 s0 s1 -> Respects cursorStep m ->
             m s1 = Some (Some n, st') ->
             First (_mangled st) < First (_mangled st')).
  { intros s1 m Hc Hm Hrun. apply consumed_le in Hc. apply Hm in Hrun.
    destruct Hrun as (_ & Hs & _). lia. }
  consume_cases H Hle0 as s1 Hsw1 Hcon.
  { eapply Hhit; [exact Hcon| |exact H]. frame_with HF Hrec. }
  consume_cases H Hle0 as s2 Hsw2 Hcon.
  { eapply Hhit; [exact Hcon| |exact H]. frame_with HF Hrec. }
  consume_cases H Hle0 as s3 Hsw3 Hcon.
  { eapply Hhit; [exact Hcon| |exact H]. frame_with HF Hrec. }
  consume_cases H Hle0 as s4 Hsw4 Hcon.
  { eapply Hhit; [exact Hcon| |exact H]. frame_with HF Hrec. }
  binv H as b s5 Hp.
  assert (s5 = s0).
  { unfold peekChar, getMangled, bind, ret in Hp.
    destruct (negb _) in Hp; inversion Hp; reflexivity. }
  subst s5. destruct b.
  { pose proof (parseFuncType_progress _ _ _ _ _ _ _ Hrec Hok0 H). lia. }
  binv H as len s6 Hnum.
  destruct (parseNumber_cases _ _ _ _ Hnum Hle0) as (_ & _ & Hcases).
  binv H as s s7 Hs. inversion Hs; subst; clear Hs.
  destruct Hcases as [(-> & -> & _)|[(-> & -> & _)|(e & He & -> & _)]].
  - destruct (Status_eqb (_status s0) invalid_mangled_name);
      [inversion H|]. cbn in H.
    pose proof (parseBuildInType_cases _ _ _ _ _ H Hle0) as Hb.
    cbn in Hb. lia.
  - cbn in H. inversion H.
  - destruct (Status_eqb _ _); [inversion H|].
    cursor_of H HF Hrec Hstep. destruct Hstep as (_ & Hstep & _).
    cbn in Hstep. lia.
Qed.

(** X9.  A type that is parsed consumes: whenever [parseType] (or
    [parseFuncType]) returns a node, the cursor has moved forward by at
    least one character, and it is still inside the buffer. *)
Theorem parsed_type_consumes :
  (forall buf fuel st node st',
      cursorOk buf st ->
      parseType buf fuel st = Some (Some node, st') ->
      First (_mangled st) < First (_mangled st') <= Last (_mangled st))
  /\ (forall buf fuel quals st node st',
      cursorOk buf st ->
      parseFuncType buf (parseType buf fuel) fuel quals st
      = Some (Some node, st') ->
      First (_mangled st) < First (_mangled st') <= Last (_mangled st)).
Proof.
  split.
  - intros buf fuel st node st' Hok H.
    pose proof (respects_parseType buf _ (cursor_frame buf)) as Hrec.
    pose proof (Hrec fuel _ _ _ H) as (Hl & _ & Hin).
    destruct fuel as [|fuel]; [discriminate H|]. cbn [parseType] in H.
    pose proof (parseType_body_progress _ _ _ _ _ _ (Hrec fuel) Hok H).
    destruct Hok as [_ Hok]. specialize (Hin Hok). lia.
  - intros buf fuel quals st node st' Hok H.
    pose proof (respects_parseType buf _ (cursor_frame buf) fuel) as Hrec.
    pose proof (respects_parseFuncType _ _ (cursor_frame buf) _ fuel Hrec
                  quals _ _ _ H) as (Hl & _ & Hin).
    pose proof (parseFuncType_progress _ _ _ _ _ _ _ Hrec Hok H).
    destruct Hok as [_ Hok]. specialize (Hin Hok). lia.
Qed.

Lemma parsed_type_consumes_witness :
  let buf := list_ascii_of_string "xpi$" in
  let st' := mkPState (mkStringView 3 4) in_progress None 2 [] in
  let node := PointerTypeNode 1
                (IntegralTypeNode 0 "int" false (mkQualifiers false false))
                (mkQualifiers false true) in
  parseType buf 3 (initialState buf) = Some (Some node, st')
  /\ 0 < First (_mangled st') <= 4.
Proof.
  intros buf st' node.
  assert (H : parseType buf 3 (initialState buf) = Some (Some node, st'))
    by (vm_compute; reflexivity).
  split; [exact H|].
  assert (Hok : cursorOk buf (initialState buf)) by (split; cbn; lia).
  exact (proj1 parsed_type_consumes buf 3 (initialState buf) node st' Hok H).
Defined.

(** ** Plain names *)

Lemma sv_chars_length (buf : list ascii) (a e : nat) :
  a <= e -> e <= List.length buf ->
  List.length (sv_chars buf (mkStringView a e)) = e - a.
Proof.
  intros H1 H2. unfold sv_chars, sv_size. cbn [First Last].
  rewrite List.length_firstn, List.length_skipn. lia.
Qed.

Lemma sv_startsWith_own_prefix (buf : list ascii) (v : StringView) (e : nat) :
  First v <= e -> e <= Last v -> Last v <= List.length buf ->
  sv_startsWith buf (sv_chars buf (mkStringView (First v) e)) v = true.
Proof.
  intros H1 H2 H3. unfold sv_startsWith.
  rewrite (sv_chars_length buf (First v) e) by lia.
  apply andb_true_iff. split.
  - apply Nat.leb_le. unfold sv_size. lia.
  - unfold sv_chars, sv_size. cbn [First Last]. apply list_ascii_eqb_refl.
Qed.

Lemma consumeFront_sv_own_prefix (buf : list ascii) (st : PState) (e : nat) :
  cursorOk buf st ->
  First (_mangled st) <= e -> e <= Last (_mangled st) ->
  consumeFront_sv buf (sv_chars buf (mkStringView (First (_mangled st)) e)) st
  = Some (true, set_mangled (mkStringView e (Last (_mangled st))) st).
Proof.
  intros [Hl Hle] H1 H2.
  unfold consumeFront_sv, getMangled, setMangled, bind, ret.
  rewrite sv_startsWith_own_prefix by lia.
  unfold sv_dropFront. rewrite sv_chars_length by lia.
  unfold sv_size.
  replace (First (_mangled st) +
           Nat.min (e - First (_mangled st))
                   (Last (_mangled st) - First (_mangled st))) with e by lia.
  reflexivity.
Qed.

Lemma deref_inside (buf : list ascii) (st : PState) (c : nat) :
  c < Last (_mangled st) -> deref buf c st = Some (charAt buf c, st).
Proof.
  intros H. unfold deref, getMangled, bind, ret.
  replace (Last (_mangled st) <=? c) with false
    by (symmetry; apply Nat.leb_gt; exact H).
  reflexivity.
Qed.

Lemma front_inside (buf : list ascii) (st : PState) :
  First (_mangled st) < Last (_mangled st) ->
  front buf st = Some (charAt buf (First (_mangled st)), st).
Proof.
  intros H. unfold front, getMangled, bind, ret, sv_empty, sv_front.
  replace (First (_mangled st) =? Last (_mangled st)) with false
    by (symmetry; apply Nat.eqb_neq; lia).
  reflexivity.
Qed.

Lemma parseName_loop_plain (buf : list ascii) (end_ : nat) (st : PState)
  (k : nat) :
  forall (start c : nat) (name : option Node),
    c + k = end_ ->
    end_ <= Last (_mangled st) ->
    (forall p, c <= p < end_ ->
               charAt buf p <> "%"%char /\ charAt buf p <> "@"%char) ->
    parseName_loop buf k end_ start c name st = Some ((start, end_, name), st).
Proof.
  induction k as [|k IH]; intros start c name Hk Hend Hplain;
    cbn [parseName_loop].
  - replace c with end_ by lia. reflexivity.
  - replace (c <? end_) with true by (symmetry; apply Nat.ltb_lt; lia).
    rewrite (bind_Some _ _ _ _ _ (deref_inside buf st c ltac:(lia))).
    destruct (Hplain c ltac:(lia)) as [H1 H2].
    apply Ascii.eqb_neq in H1, H2. rewrite H1, H2. cbn [orb].
    apply IH; [lia|exact Hend|]. intros p Hp. apply Hplain. lia.
Qed.

Lemma plain_named_type_run (buf : list ascii) (rec : M (option Node))
  (fuel : nat) (nameLen : Z) (quals : Qualifiers) (st : PState) :
  cursorOk buf st ->
  First (_mangled st) + Z.to_nat nameLen <= Last (_mangled st) ->
  (forall p, First (_mangled st) <= p < First (_mangled st) + Z.to_nat nameLen ->
             charAt buf p <> "%"%char /\ charAt buf p <> "@"%char) ->
  parseNamedType buf rec fuel nameLen quals st
  = Some (Some (NamedTypeNode (S (nextId st))
                  (NameNode (nextId st)
                     (string_of_list_ascii
                        (firstn (Z.to_nat nameLen)
                                (skipn (First (_mangled st)) buf))))
                  quals),
          mkPState (mkStringView (First (_mangled st) + Z.to_nat nameLen)
                                 (Last (_mangled st)))
                   (_status st) (_ast st) (S (S (nextId st))) (faults st)).
Proof.
  intros Hok Hlen Hplain.
  set (L := Z.to_nat nameLen) in *.
  set (e := First (_mangled st) + L) in *.
  unfold parseNamedType. fold L.
  rewrite (bind_Some _ _ _ _ _ (eq_refl : getMangled st = Some (_mangled st, st))).
  cbv zeta. fold e.
  replace (Last (_mangled st) <? e) with false
    by (symmetry; apply Nat.ltb_ge; lia).
  assert (Hname : parseName buf rec fuel e st
            = Some (Some (NameNode (nextId st)
                            (string_of_list_ascii
                               (firstn L (skipn (First (_mangled st)) buf)))),
                    mkPState (mkStringView e (Last (_mangled st)))
                             (_status st) (_ast st) (S (nextId st)) (faults st))).
  { unfold parseName.
    rewrite (bind_Some _ _ _ _ _ (eq_refl : getMangled st = Some (_mangled st, st))).
    cbv zeta.
    rewrite (bind_Some _ _ _ _ _
               (parseName_loop_plain buf e st (e - First (_mangled st))
                  (First (_mangled st)) (First (_mangled st)) None
                  ltac:(lia) ltac:(lia) Hplain)).
    cbv beta iota. rewrite Nat.eqb_refl.
    assert (Hrest :
      (consumeFront_sv buf (sv_chars buf (mkStringView (First (_mangled st)) e)) ;;;
       appendName buf None (mkStringView (First (_mangled st)) e)) st
      = Some (Some (NameNode (nextId st)
                      (string_of_list_ascii
                         (firstn L (skipn (First (_mangled st)) buf)))),
              mkPState (mkStringView e (Last (_mangled st)))
                       (_status st) (_ast st) (S (nextId st)) (faults st))).
    { rewrite (bind_Some _ _ _ _ _
                 (consumeFront_sv_own_prefix buf st e Hok ltac:(lia) ltac:(lia))).
      unfold appendName, create, newId, bind, ret, viewText, sv_chars, sv_size.
      cbn [nextId set_mangled _mangled _status _ast faults First Last].
      replace (e - First (_mangled st)) with L by lia. reflexivity. }
    rewrite (bind_Some _ _ _ _ _ Hrest).
    unfold peekChar, getMangled, bind, ret.
    destruct (negb (sv_empty _)); rewrite ?andb_false_r; reflexivity. }
  rewrite (bind_Some _ _ _ _ _ Hname). reflexivity.
Qed.

(** X10.  A length-prefixed name without '@' and '%' is taken whole: on a
    cursor inside the buffer with at least [nameLen] characters left, none
    of them '@' or '%', [parseNamedType] returns a named type, carrying the
    qualifiers it was given, of a name node whose text is exactly those
    characters; the cursor ends exactly [nameLen] characters further, and
    status, tree and faults are untouched. *)
Theorem plain_named_type :
  forall buf rec fuel nameLen quals st,
    cursorOk buf st ->
    First (_mangled st) + Z.to_nat nameLen <= Last (_mangled st) ->
    (forall p, First (_mangled st) <= p < First (_mangled st) + Z.to_nat nameLen ->
               charAt buf p <> "%"%char /\ charAt buf p <> "@"%char) ->
    exists i j st',
      parseNamedType buf rec fuel nameLen quals st
      = Some (Some (NamedTypeNode j
                      (NameNode i
                         (string_of_list_ascii
                            (firstn (Z.to_nat nameLen)
                                    (skipn (First (_mangled st)) buf))))
                      quals),
              st')
      /\ _mangled st' = mkStringView (First (_mangled st) + Z.to_nat nameLen)
                                     (Last (_mangled st))
      /\ _status st' = _status st
      /\ _ast st' = _ast st
      /\ faults st' = faults st.
Proof.
  intros buf rec fuel nameLen quals st Hok Hlen Hplain.
  eexists _, _, _. split.
  - exact (plain_named_type_run buf rec fuel nameLen quals st Hok Hlen Hplain).
  - repeat split.
Qed.

Lemma plain_named_type_witness :
  let buf := list_ascii_of_string "3fooi" in
  let q := mkQualifiers false true in
  let st := mkPState (mkStringView 1 5) in_progress None 0 [] in
  exists i j st',
    parseNamedType buf outOfFuel 0 3%Z q st
    = Some (Some (NamedTypeNode j (NameNode i "foo") q), st')
    /\ _mangled st' = mkStringView 4 5
    /\ _status st' = in_progress
    /\ _ast st' = None
    /\ faults st' = [].
Proof.
  intros buf q st.
  assert (Hok : cursorOk buf st) by (split; cbn; lia).
  assert (Hlen : First (_mangled st) + Z.to_nat 3 <= Last (_mangled st))
    by (cbn; lia).
  assert (Hplain : forall p,
             First (_mangled st) <= p < First (_mangled st) + Z.to_nat 3 ->
             charAt buf p <> "%"%char /\ charAt buf p <> "@"%char).
  { intros p Hp. cbn in Hp.
    assert (Hc : p = 1 \/ p = 2 \/ p = 3) by lia.
    destruct Hc as [ -> | [ -> | -> ] ]; split; discriminate. }
  exact (plain_named_type buf outOfFuel 0 3%Z q st Hok Hlen Hplain).
Defined.

Lemma parseFuncName_loop_plain (buf : list ascii) (st : PState) (e : nat)
  (k : nat) :
  cursorOk buf st ->
  First (_mangled st) < e -> e < Last (_mangled st) ->
  charAt buf e = "$"%char ->
  forall (c : nat),
    c <= e -> e < c + k ->
    (forall p, c <= p < e ->
               charAt buf p <> "$"%char /\ charAt buf p <> "%"%char
               /\ charAt buf p <> "@"%char) ->
    parseFuncName_loop buf k (Last (_mangled st)) (First (_mangled st)) c None st
    = Some (Some (NameNode (nextId st)
                    (string_of_list_ascii
                       (firstn (e - First (_mangled st))
                               (skipn (First (_mangled st)) buf)))),
            mkPState (mkStringView e (Last (_mangled st)))
                     (_status st) (_ast st) (S (nextId st)) (faults st)).
Proof.
  intros Hok Hne He Hdollar.
  induction k as [|k IH]; intros c Hc Hk Hplain; [lia|].
  cbn [parseFuncName_loop].
  replace (c <=? Last (_mangled st)) with true
    by (symmetry; apply Nat.leb_le; lia).
  rewrite (bind_Some _ _ _ _ _ (deref_inside buf st c ltac:(lia))).
  destruct (Nat.eq_dec c e) as [->|Hce].
  - rewrite Hdollar. cbn [Ascii.eqb Bool.eqb orb].
    unfold sv_empty. cbn [First Last].
    replace (First (_mangled st) =? e) with false
      by (symmetry; apply Nat.eqb_neq; lia).
    cbn [negb].
    assert (Hsn :
      (consumeFront_sv buf (sv_chars buf (mkStringView (First (_mangled st)) e)) ;;;
       name' <- appendName buf None (mkStringView (First (_mangled st)) e) ;;
       ret (S e, name')) st
      = Some ((S e,
               Some (NameNode (nextId st)
                       (string_of_list_ascii
                          (firstn (e - First (_mangled st))
                                  (skipn (First (_mangled st)) buf))))),
              mkPState (mkStringView e (Last (_mangled st)))
                       (_status st) (_ast st) (S (nextId st)) (faults st))).
    { rewrite (bind_Some _ _ _ _ _
                 (consumeFront_sv_own_prefix buf st e Hok ltac:(lia) ltac:(lia))).
      unfold appendName, create, newId, bind, ret, viewText, sv_chars, sv_size.
      reflexivity. }
    rewrite (bind_Some _ _ _ _ _ Hsn).
    erewrite bind_Some by (apply front_inside; cbn; lia).
    cbn [_mangled First]. rewrite Hdollar. reflexivity.
  - destruct (Hplain c ltac:(lia)) as (H1 & H2 & H3).
    apply Ascii.eqb_neq in H1, H2, H3. rewrite H1, H2, H3. cbn [orb].
    apply IH; [lia|lia|]. intros p Hp. apply Hplain. lia.
Qed.

(** X11.  A plain function name is taken up to the '$': on a cursor inside
    the buffer whose first '$' is at position [e], with at least one
    character before it and no '%' or '@' among them, [parseFuncName]
    returns the name node whose text is exactly the characters before the
    '$' and leaves the cursor on the '$'; one node is created, no read
    outside the view happens, and the status is untouched. *)
Theorem plain_function_name :
  forall buf rec fuel st e,
    cursorOk buf st ->
    _status st <> invalid_mangled_name ->
    First (_mangled st) < e -> e < Last (_mangled st) ->
    charAt buf e = "$"%char ->
    (forall p, First (_mangled st) <= p < e ->
               charAt buf p <> "$"%char /\ charAt buf p <> "%"%char
               /\ charAt buf p <> "@"%char) ->
    parseFuncName buf rec fuel st
    = Some (Some (NameNode (nextId st)
                    (string_of_list_ascii
                       (firstn (e - First (_mangled st))
                               (skipn (First (_mangled st)) buf)))),
            mkPState (mkStringView e (Last (_mangled st)))
                     (_status st) (_ast st) (S (nextId st)) (faults st)).
Proof.
  intros buf rec fuel st e Hok Hst Hne He Hdollar Hplain.
  unfold parseFuncName.
  rewrite (bind_Some _ _ _ _ _ (eq_refl : getMangled st = Some (_mangled st, st))).
  cbv zeta.
  rewrite (bind_Some _ _ _ _ _
             (parseFuncName_loop_plain buf st e
                (S (Last (_mangled st) - First (_mangled st)))
                Hok Hne He Hdollar
                (First (_mangled st)) ltac:(lia) ltac:(lia) Hplain)).
  erewrite bind_Some by (apply front_inside; cbn; lia).
  cbn [_mangled First]. rewrite Hdollar. cbn [Ascii.eqb Bool.eqb].
  unfold bind at 1, ret at 1.
  unfold checkResult, getStatus, bind, ret. cbn [_status].
  replace (Status_eqb (_status st) invalid_mangled_name) with false
    by (destruct (_status st); (reflexivity || congruence)).
  reflexivity.
Qed.

Lemma plain_function_name_witness :
  let buf := list_ascii_of_string "@foo$qi" in
  let st := mkPState (mkStringView 1 7) in_progress None 0 [] in
  parseFuncName buf outOfFuel 0 st
  = Some (Some (NameNode 0 "foo"),
          mkPState (mkStringView 4 7) in_progress None 1 []).
Proof.
  intros buf st.
  apply (plain_function_name buf outOfFuel 0 st 4).
  - split; cbn; lia.
  - discriminate.
  - cbn. lia.
  - cbn. lia.
  - reflexivity.
  - intros p Hp. cbn in Hp.
    assert (Hc : p = 1 \/ p = 2 \/ p = 3) by lia.
    destruct Hc as [ -> | [ -> | -> ] ]; repeat split; discriminate.
Defined.

(** ** Parameter and argument lists *)

Lemma statusOk_inv (st st' : PState) (ok : bool) :
  statusOk st = Some (ok, st') ->
  st' = st /\ (ok = true <-> _status st = in_progress).
Proof.
  unfold statusOk, getStatus, bind, ret. intros H.
  injection H as Hok Hst. subst st' ok.
  split; [reflexivity|]. destruct (_status st); cbn; split; congruence.
Qed.

Lemma addBackref_extends (params : list Node) (backref : Z) :
  exists extra, addBackref params backref = params ++ extra.
Proof.
  unfold addBackref. destruct (nth_error _ _) as [h|].
  - now exists [h].
  - exists []. now rewrite app_nil_r.
Qed.

Lemma arrayOrNull_cases (id : nat) (l : list Node) :
  (l = [] /\ arrayOrNull id l = None)
  \/ (l <> [] /\ arrayOrNull id l = Some (NodeArray id l)).
Proof. destruct l; [left|right]; split; (reflexivity || discriminate). Qed.

Lemma parseFuncParams_body_post (buf : list ascii) (rec : M (option Node))
  (params : list Node) (st st' : PState) (ctl : LoopCtl (option Node)) :
  parseFuncParams_body buf rec params st = Some (ctl, st') ->
  match ctl with
  | Continue params' =>
      _status st' = in_progress /\ exists extra, params' = params ++ extra
  | Exit r => r = None /\ _status st' <> in_progress
  end.
Proof.
  unfold parseFuncParams_body. intros H.
  binv H as t s1 Ht. destruct t.
  - binv H as backref s2 Hn. binv H as ok s3 Hok.
    apply statusOk_inv in Hok. destruct Hok as [-> Hok].
    destruct (_ || _ || negb ok).
    + inversion H; subst. split; [reflexivity|discriminate].
    + cbv zeta in H. binv H as ok' s4 Hok'.
      apply statusOk_inv in Hok'. destruct Hok' as [-> Hok'].
      destruct ok'; cbn [negb] in H; apply ret_inv in H; destruct H; subst.
      * split; [now apply Hok'|apply addBackref_extends].
      * split; [reflexivity|]. intros E. apply Hok' in E. discriminate.
  - binv H as param s2 Hp. binv H as ok s3 Hok.
    apply statusOk_inv in Hok. destruct Hok as [-> Hok].
    cbv zeta in H. binv H as ok' s4 Hok'.
    apply statusOk_inv in Hok'. destruct Hok' as [-> Hok'].
    destruct ok'; cbn [negb] in H; apply ret_inv in H; destruct H; subst.
    + split; [now apply Hok'|].
      destruct param as [p|]; [destruct ok; [now exists [p]|]|];
        exists []; now rewrite app_nil_r.
    + split; [reflexivity|]. intros E. apply Hok' in E. discriminate.
Qed.

Lemma parseFuncParams_loop_post (buf : list ascii) (rec : M (option Node))
  (id : nat) (k : nat) :
  forall (params : list Node) (st st' : PState) (r : option Node),
    parseFuncParams_loop buf rec k id params st = Some (r, st') ->
    _status st = in_progress ->
    (_status st' = in_progress
     /\ (sv_empty (_mangled st') = true
         \/ sv_startsWith_char buf "$" (_mangled st') = true)
     /\ exists extra, r = arrayOrNull id (params ++ extra))
    \/ (_status st' <> in_progress /\ r = None).
Proof.
  induction k as [|k IH]; intros params st st' r H Hs;
    cbn [parseFuncParams_loop] in H; [discriminate|].
  binv H as e s1 He. inversion He; subst; clear He.
  binv H as ok s2 Hok. apply statusOk_inv in Hok. destruct Hok as [-> Hok].
  binv H as d s3 Hd.
  assert (Hd' : s3 = s1 /\ (sv_empty (_mangled s1) = false ->
                            d = sv_startsWith_char buf "$" (_mangled s1))).
  { unfold peekChar, getMangled, bind, ret in Hd. unfold sv_startsWith_char.
    destruct (sv_empty (_mangled s1)); cbn [negb] in *; inversion Hd; subst;
      (split; [reflexivity|]); intros; (reflexivity || discriminate). }
  destruct Hd' as [-> Hd'].
  destruct (negb (sv_empty (_mangled s1)) && ok && negb d) eqn:Econd.
  - binv H as ctl s4 Hbody. apply parseFuncParams_body_post in Hbody.
    destruct ctl as [params'|r'].
    + destruct Hbody as [Hs4 [extra ->]].
      destruct (IH _ _ _ _ H Hs4) as [(H1 & H2 & extra' & H3)|H1].
      * left. split; [exact H1|]. split; [exact H2|].
        exists (extra ++ extra'). now rewrite app_assoc.
      * now right.
    + apply ret_inv in H. destruct H; subst. destruct Hbody as [-> Hne].
      right. auto.
  - apply ret_inv in H. destruct H; subst. left.
    split; [exact Hs|]. split.
    + destruct (sv_empty (_mangled s1)) eqn:Ee; [now left|right].
      rewrite <- (Hd' eq_refl). cbn [negb andb] in Econd.
      assert (ok = true) by now apply Hok. subst ok.
      cbn [andb] in Econd. now apply negb_false_iff in Econd.
    + exists []. now rewrite app_nil_r.
Qed.

(** X12.  What [parseFuncParams] gives back, started with status
    [in_progress].  If the status is still [in_progress] afterwards, the
    cursor is empty or stands on '$', and the result is the array of what
    was parsed, or null when nothing was (never an empty array); the array
    is the object created at the start of the rule.  If the status is not
    [in_progress] afterwards, the result is null. *)
Theorem parseFuncParams_result :
  forall buf rec fuel st r st',
    parseFuncParams buf rec fuel st = Some (r, st') ->
    _status st = in_progress ->
    (_status st' = in_progress
     /\ (sv_empty (_mangled st') = true
         \/ sv_startsWith_char buf "$" (_mangled st') = true)
     /\ (r = None \/
         exists l, l <> [] /\ r = Some (NodeArray (nextId st) l)))
    \/ (_status st' <> in_progress /\ r = None).
Proof.
  intros buf rec fuel st r st' H Hs. unfold parseFuncParams in H.
  binv H as id s1 Hid. inversion Hid; subst; clear Hid.
  apply parseFuncParams_loop_post in H; [|exact Hs].
  destruct H as [(H1 & H2 & extra & H3)|H]; [left|now right].
  split; [exact H1|]. split; [exact H2|].
  cbn [app] in H3. subst r.
  destruct (arrayOrNull_cases (nextId st) extra) as [[_ E]|[Hne E]];
    rewrite E; [now left|right; eauto].
Qed.

Lemma parseFuncParams_result_witness :
  let buf := list_ascii_of_string "ii$v" in
  let q := mkQualifiers false false in
  let st' := mkPState (mkStringView 2 4) in_progress None 3 [] in
  parseFuncParams buf (parseType buf 2) 4 (initialState buf)
  = Some (Some (NodeArray 0 [IntegralTypeNode 1 "int" false q;
                             IntegralTypeNode 2 "int" false q]), st')
  /\ sv_startsWith_char buf "$" (_mangled st') = true.
Proof.
  intros buf q st'.
  assert (H : parseFuncParams buf (parseType buf 2) 4 (initialState buf)
              = Some (Some (NodeArray 0 [IntegralTypeNode 1 "int" false q;
                                         IntegralTypeNode 2 "int" false q]), st'))
    by (vm_compute; reflexivity).
  split; [exact H|].
  destruct (parseFuncParams_result buf _ 4 _ _ _ H eq_refl)
    as [(_ & [He|Hd] & _)|(Hne & _)].
  - discriminate He.
  - exact Hd.
  - exfalso. apply Hne. reflexivity.
Defined.

Lemma parseTemplateParams_body_post (buf : list ascii) (rec : M (option Node))
  (params : list Node) (st st' : PState) (ctl : LoopCtl (option Node)) :
  parseTemplateParams_body buf rec params st = Some (ctl, st') ->
  match ctl with
  | Continue params' => exists extra, params' = params ++ extra
  | Exit r => r = None
  end.
Proof.
  unfold parseTemplateParams_body. intros H.
  binv H as t s1 Ht. binv H as resolved s2 Hres.
  destruct resolved as [params'|].
  - apply ret_inv in H. destruct H; subst.
    destruct t; [|inversion Hres].
    binv Hres as backref s3 Hp.
    destruct (_ && _); [|inversion Hres].
    binv Hres as x s4 Hn. inversion Hres; subst. apply addBackref_extends.
  - binv H as typeNode s3 Hty. binv H as ok s4 Hok.
    destruct ok; cbn [negb] in H.
    + destruct typeNode as [n|]; apply ret_inv in H; destruct H; subst.
      * now exists [n].
      * exists []. now rewrite app_nil_r.
    + apply ret_inv in H. destruct H; subst. reflexivity.
Qed.

Lemma parseTemplateParams_loop_post (buf : list ascii) (rec : M (option Node))
  (id : nat) (k : nat) :
  forall (params : list Node) (st st' : PState) (r : option Node),
    parseTemplateParams_loop buf rec k id params st = Some (r, st') ->
    r = None \/
    (exists extra, params ++ extra <> []
                   /\ r = Some (NodeArray id (params ++ extra)))
      /\ sv_front buf (_mangled st') = "%"%char.
Proof.
  induction k as [|k IH]; intros params st st' r H;
    cbn [parseTemplateParams_loop] in H; [discriminate|].
  binv H as f s1 Hf.
  assert (Hf' : f = sv_front buf (_mangled s1)).
  { unfold front, getMangled, recordFault, bind, ret in Hf.
    destruct (sv_empty (_mangled st)); inversion Hf; subst; reflexivity. }
  destruct (Ascii.eqb f "%") eqn:E; cbn [negb] in H.
  - apply ret_inv in H. destruct H; subst. apply Ascii.eqb_eq in E.
    destruct (arrayOrNull_cases id params) as [[_ Ea]|[Hne Ea]]; rewrite Ea.
    + now left.
    + right. split; [|exact E]. exists []. now rewrite app_nil_r.
  - binv H as ctl s2 Hbody. apply parseTemplateParams_body_post in Hbody.
    destruct ctl as [params'|r'].
    + destruct Hbody as [extra ->].
      destruct (IH _ _ _ _ H) as [H1|[(extra' & H1 & H2) H3]]; [now left|].
      right. split; [|exact H3]. exists (extra ++ extra').
      now rewrite app_assoc.
    + apply ret_inv in H. destruct H; subst. now left.
Qed.

(** X13.  A template after a function name has at least one argument: when
    the unbounded [parseTemplate] returns a node, it is a template node
    whose argument array is not empty, and the status is not
    [invalid_mangled_name]; an argument list that is empty makes the rule
    fail. *)
Theorem template_has_arguments :
  forall buf rec fuel ns st node st',
    parseTemplate buf rec fuel ns st = Some (Some node, st') ->
    _status st' <> invalid_mangled_name
    /\ exists id name aid args,
         node = TemplateNode id name (NodeArray aid args) /\ args <> [].
Proof.
  intros buf rec fuel ns st node st' H. unfold parseTemplate in H.
  binv H as ok1 s1 Hc1. destruct ok1; cbn [negb] in H; [|inversion H].
  binv H as templateNameNode s2 Hname.
  binv H as ok2 s3 Hck2. destruct ok2; cbn [negb] in H; [|inversion H].
  binv H as ok3 s4 Hc3. destruct ok3; cbn [negb] in H; [|inversion H].
  binv H as params s5 Hparams.
  binv H as ok4 s6 Hck4. destruct ok4; cbn [negb] in H; [|inversion H].
  binv H as ok5 s7 Hc5. destruct ok5; cbn [negb] in H; [|inversion H].
  destruct templateNameNode as [n|]; [|inversion H].
  destruct params as [ps|]; [|inversion H].
  unfold parseTemplateParams in Hparams. binv Hparams as aid s8 Hid.
  apply parseTemplateParams_loop_post in Hparams.
  destruct Hparams as [Hp|[(extra & Hne & Hp) _]]; [discriminate|].
  inversion Hp; subst ps. cbn [app] in *.
  apply createPtr_inv in H. destruct H as (Hr & Hm & Hst).
  inversion Hr; subst node. split.
  - rewrite Hst.
    assert (Hs6 : _status s6 <> invalid_mangled_name).
    { unfold checkResult, getStatus, setStatus, bind, ret in Hck4.
      destruct (Status_eqb (_status s5) invalid_mangled_name) eqn:E;
        inversion Hck4; subst.
      intros E'. rewrite E' in E. discriminate. }
    unfold consume, consumeFront, getMangled, setMangled, bind, ret in Hc5.
    destruct (sv_startsWith_char buf "%" (_mangled s6)); inversion Hc5; subst.
    exact Hs6.
  - exists (nextId s7), n, aid, extra. split; [reflexivity|exact Hne].
Qed.

Lemma template_has_arguments_witness :
  let buf := list_ascii_of_string "%b$i%" in
  let q := mkQualifiers false false in
  let node := TemplateNode 3 (NameNode 0 "b")
                (NodeArray 1 [IntegralTypeNode 2 "int" false q]) in
  let st' := mkPState (mkStringView 5 5) in_progress None 4 [] in
  parseTemplate buf (parseType buf 2) 3 None (initialState buf)
  = Some (Some node, st')
  /\ _status st' <> invalid_mangled_name.
Proof.
  intros buf q node st'.
  assert (H : parseTemplate buf (parseType buf 2) 3 None (initialState buf)
              = Some (Some node, st')) by (vm_compute; reflexivity).
  split; [exact H|].
  exact (proj1 (template_has_arguments buf _ 3 None _ node st' H)).
Defined.

(** The bounded [parseTemplate] has no such check: a length-prefixed
    template name may have an empty argument list. *)
Example bounded_template_without_arguments :
  option_map ast (BorlandASTParser 8 "@f$q5a%b$%")
  = Some (Some (FunctionNode 9 (NameNode 0 "f")
       (FunctionTypeNode 8 unknown
          (Some (NodeArray 1
             [NamedTypeNode 7
                (TemplateNode 6
                   (NestedNameNode 4 (NameNode 2 "a") (NameNode 3 "b"))
                   (NodeArray 5 []))
                (mkQualifiers false false)]))
          None (mkQualifiers false false))))
  /\ option_map status (BorlandASTParser 8 "@a%b$%$qv")
     = Some invalid_mangled_name.
Proof. split; vm_compute; reflexivity. Qed.

(** ** Qualifiers before a reference *)

Lemma sv_startsWith_char_other (buf : list ascii) (c c' : ascii)
  (v : StringView) :
  sv_startsWith_char buf c v = true -> c' <> c ->
  sv_startsWith_char buf c' v = false.
Proof.
  unfold sv_startsWith_char. intros H Hne.
  apply andb_true_iff in H. destruct H as [H1 H2].
  apply Ascii.eqb_eq in H2. rewrite H1, H2. cbn [andb].
  apply Ascii.eqb_neq. congruence.
Qed.

(** X14.  A reference takes no qualifiers: when the qualifiers parsed in
    front of a type are not both absent and the next character is 'r' or
    'h', [parseType] consumes that character, sets [invalid_mangled_name]
    and returns null, without looking at the referenced type. *)
Theorem qualified_reference_refused :
  forall buf fuel st quals s1 c,
    parseQualifiers buf st = Some (quals, s1) ->
    isConst quals || isVolatile quals = true ->
    c = "r"%char \/ c = "h"%char ->
    sv_startsWith_char buf c (_mangled s1) = true ->
    parseType buf (S fuel) st
    = Some (None,
            set_status invalid_mangled_name
              (set_mangled (sv_dropFront 1 (_mangled s1)) s1)).
Proof.
  intros buf fuel st quals s1 c Hq Hquals Hc Hsw.
  cbn [parseType]. unfold parseType_body, consumeIfPossible.
  rewrite (bind_Some _ _ _ _ _ Hq).
  assert (Hp : sv_startsWith_char buf "p" (_mangled s1) = false).
  { apply (sv_startsWith_char_other _ _ _ _ Hsw).
    destruct Hc; subst c; discriminate. }
  rewrite (bind_Some _ _ _ _ _ (consumeFront_miss buf "p" s1 Hp)).
  cbv beta iota.
  destruct Hc as [-> | ->].
  - rewrite (bind_Some _ _ _ _ _ (consumeFront_hit buf "r" s1 Hsw)).
    cbv beta iota. rewrite Hquals. reflexivity.
  - assert (Hr : sv_startsWith_char buf "r" (_mangled s1) = false).
    { apply (sv_startsWith_char_other _ _ _ _ Hsw). discriminate. }
    rewrite (bind_Some _ _ _ _ _ (consumeFront_miss buf "r" s1 Hr)).
    cbv beta iota.
    rewrite (bind_Some _ _ _ _ _ (consumeFront_hit buf "h" s1 Hsw)).
    cbv beta iota. rewrite Hquals. reflexivity.
Qed.

Lemma qualified_reference_refused_witness :
  let buf := list_ascii_of_string "xri" in
  parseType buf 1 (initialState buf)
  = Some (None, mkPState (mkStringView 2 3) invalid_mangled_name None 0 []).
Proof.
  intros buf.
  exact (qualified_reference_refused buf 0 (initialState buf)
           (mkQualifiers false true)
           (set_mangled (mkStringView 1 3) (initialState buf)) "r"%char
           eq_refl eq_refl (or_introl eq_refl) eq_refl).
Defined.

(** ** Characters that start no type *)

Lemma typeAhead_char (buf : list ascii) (v : StringView) (c : ascii) :
  typeAhead buf v = false ->
  In c (list_ascii_of_string "wxprhaqobvucsiljfdg") ->
  sv_startsWith_char buf c v = false.
Proof.
  unfold typeAhead, sv_startsWith_char. intros H Hin.
  destruct (sv_empty v); [reflexivity|]. cbn [negb andb] in *.
  apply orb_false_iff in H. destruct H as [H _].
  unfold startsType in H. apply orb_false_iff in H. destruct H as [H _].
  destruct (Ascii.eqb (sv_front buf v) c) eqn:E; [|reflexivity].
  assert (X : existsb (Ascii.eqb (sv_front buf v))
                (list_ascii_of_string "wxprhaqobvucsiljfdg") = true)
    by (apply existsb_exists; exists c; split; assumption).
  congruence.
Qed.

Lemma sv_startsWith_head (buf : list ascii) (c : ascii) (s : list ascii)
  (v : StringView) :
  sv_startsWith buf (c :: s) v = true ->
  sv_empty v = false /\ sv_front buf v = c.
Proof.
  unfold sv_startsWith, sv_size, sv_empty, sv_front, charAt. intros H.
  apply andb_true_iff in H. destruct H as [H1 H2].
  apply Nat.leb_le in H1. cbn [List.length] in *.
  split; [apply Nat.eqb_neq; lia|].
  assert (G : forall (l : list ascii) n x r,
             skipn n l = x :: r -> nth n l Ascii.zero = x).
  { induction l as [|y l IH]; intros n x r E.
    - destruct n; discriminate E.
    - destruct n as [|n]; cbn in *; [congruence|eauto]. }
  destruct (skipn (First v) buf) as [|x r] eqn:E; [discriminate H2|].
  cbn [firstn list_ascii_eqb] in H2. apply andb_true_iff in H2.
  destruct H2 as [H2 _]. apply Ascii.eqb_eq in H2.
  rewrite (G _ _ _ _ E). now symmetry.
Qed.

Lemma typeAhead_uc (buf : list ascii) (v : StringView) :
  typeAhead buf v = false ->
  sv_startsWith buf (list_ascii_of_string "uc") v = false.
Proof.
  intros H. destruct (sv_startsWith _ _ v) eqn:E; [|reflexivity].
  apply sv_startsWith_head in E. destruct E as [E1 E2].
  pose proof (typeAhead_char buf v "u" H ltac:(cbn; tauto)) as X.
  unfold sv_startsWith_char in X. rewrite E1, E2 in X. discriminate X.
Qed.

Lemma typeAhead_zc (buf : list ascii) (v : StringView) :
  typeAhead buf v = false ->
  sv_startsWith buf (list_ascii_of_string "zc") v = false.
Proof.
  intros H. destruct (sv_startsWith _ _ v) eqn:E; [|reflexivity].
  pose proof (sv_startsWith_head _ _ _ _ E) as [E1 _].
  unfold typeAhead in H. rewrite E1, E in H.
  rewrite orb_true_r in H. discriminate H.
Qed.

Lemma consumeFront_sv_miss (buf : list ascii) (s : list ascii) (st : PState) :
  sv_startsWith buf s (_mangled st) = false ->
  consumeFront_sv buf s st = Some (false, st).
Proof.
  intros H. unfold consumeFront_sv, getMangled, bind, ret. now rewrite H.
Qed.

Lemma parseNumber_no_digit (buf : list ascii) (st : PState) :
  typeAhead buf (_mangled st) = false ->
  parseNumber buf st = Some (0%Z, st).
Proof.
  intros H. unfold parseNumber, getMangled, setMangled, setStatus, bind, ret.
  unfold typeAhead, startsType in H.
  destruct (sv_empty (_mangled st)) eqn:Ee; [reflexivity|].
  cbn [negb andb] in *.
  apply orb_false_iff in H. destruct H as [H _].
  apply orb_false_iff in H. destruct H as [_ Hd].
  destruct (Ascii.eqb (sv_front buf (_mangled st)) "0") eqn:E0.
  { apply Ascii.eqb_eq in E0. rewrite E0 in Hd. discriminate Hd. }
  destruct (sv_size (_mangled st)) as [|k].
  - cbn. destruct st as [[f l] s a i fs]. reflexivity.
  - cbn [numberLoop]. rewrite Ee, Hd. cbn.
    destruct st as [[f l] s a i fs]. reflexivity.
Qed.

Ltac miss_char H :=
  erewrite bind_Some
    by (apply consumeFront_miss; apply (typeAhead_char _ _ _ H); cbn; tauto);
  cbv beta iota.

Lemma parseBuildInType_no_type (buf : list ascii) (quals : Qualifiers)
  (st : PState) :
  typeAhead buf (_mangled st) = false ->
  parseBuildInType buf quals st = Some (None, st).
Proof.
  intros H. unfold parseBuildInType, consumeIfPossible, consumeIfPossible_sv.
  do 3 miss_char H.
  rewrite (bind_Some _ _ _ _ _
             (consumeFront_sv_miss _ _ _ (typeAhead_zc _ _ H))).
  cbv beta iota.
  rewrite (bind_Some _ _ _ _ _
             (consumeFront_sv_miss _ _ _ (typeAhead_uc _ _ H))).
  cbv beta iota.
  do 9 miss_char H.
  reflexivity.
Qed.

Lemma parseType_no_type_ahead :
  forall buf fuel st,
    typeAhead buf (_mangled st) = false ->
    parseType buf (S fuel) st = Some (None, st).
Proof.
  intros buf fuel st H. cbn [parseType].
  assert (Hquals : parseQualifiers buf st
                   = Some (mkQualifiers false false, st)).
  { unfold parseQualifiers, consumeIfPossible. do 2 miss_char H.
    reflexivity. }
  unfold parseType_body, consumeIfPossible.
  rewrite (bind_Some _ _ _ _ _ Hquals).
  do 4 miss_char H.
  assert (Hq : peekChar buf "q" st = Some (false, st)).
  { pose proof (typeAhead_char buf _ "q" H ltac:(cbn; tauto)) as X.
    unfold sv_startsWith_char in X.
    unfold peekChar, getMangled, bind, ret.
    destruct (negb (sv_empty (_mangled st))); [|reflexivity].
    cbn [andb] in X. now rewrite X. }
  rewrite (bind_Some _ _ _ _ _ Hq). cbv beta iota.
  rewrite (bind_Some _ _ _ _ _ (parseNumber_no_digit _ _ H)).
  unfold getStatus. unfold bind at 1.
  destruct (Status_eqb (_status st) invalid_mangled_name); [reflexivity|].
  cbn [Z.ltb Z.compare].
  apply parseBuildInType_no_type. exact H.
Qed.

(** X15.  Where no type can start - the cursor is empty, or its first
    character is none of the qualifier, constructor, digit and built-in
    type characters (a 'z' counting only in front of a 'c') - [parseType]
    returns null and leaves cursor, status and every other part of the
    parser as they were: it did nothing, and reports no error. *)
Theorem parseType_does_nothing :
  forall buf fuel st,
    typeAhead buf (_mangled st) = false ->
    parseType buf (S fuel) st = Some (None, st).
Proof. intros buf fuel st. apply parseType_no_type_ahead. Qed.

Lemma parseType_does_nothing_witness :
  let buf := list_ascii_of_string "zi" in
  parseType buf 1 (initialState buf) = Some (None, initialState buf).
Proof.
  intros buf.
  exact (parseType_does_nothing buf 0 (initialState buf) eq_refl).
Defined.

(** X16.  The parameter loops do not get past such a character: with the
    status in progress and a non-empty cursor whose first character starts
    no type and is neither the terminator of the list ('$' for function
    parameters, '%' for template arguments) nor 't', no number of
    iterations finishes the loop.  Each iteration finds the cursor as the
    one before left it. *)
Theorem list_loops_stall_on_unknown_character :
  forall buf fuel k id params st,
    _status st = in_progress ->
    sv_empty (_mangled st) = false ->
    typeAhead buf (_mangled st) = false ->
    Ascii.eqb (sv_front buf (_mangled st)) "t" = false ->
    (Ascii.eqb (sv_front buf (_mangled st)) "$" = false ->
     parseFuncParams_loop buf (parseType buf fuel) k id params st = None)
    /\ (Ascii.eqb (sv_front buf (_mangled st)) "%" = false ->
        parseTemplateParams_loop buf (parseType buf fuel) k id params st = None).
Proof.
  intros buf fuel k id params st Hs He Hta Ht.
  assert (Hstuck : typeStuckAt (parseType buf fuel) st).
  { destruct fuel as [|fuel]; [left; reflexivity|].
    right. apply parseType_no_type_ahead. exact Hta. }
  split; intros Hd.
  - apply parseFuncParams_loop_stuck; assumption.
  - apply parseTemplateParams_loop_stuck; assumption.
Qed.

Lemma list_loops_stall_on_unknown_character_witness :
  let buf := list_ascii_of_string "k" in
  parseFuncParams_loop buf (parseType buf 7) 9 0 [] (initialState buf) = None
  /\ parseTemplateParams_loop buf (parseType buf 7) 9 0 [] (initialState buf)
     = None.
Proof.
  intros buf.
  pose proof (list_loops_stall_on_unknown_character buf 7 9 0 []
                (initialState buf) eq_refl eq_refl eq_refl eq_refl) as [H1 H2].
  split; [exact (H1 eq_refl)|exact (H2 eq_refl)].
Defined.

(** ** When [parseType] does not consume *)

Lemma typeAhead_of_misses (buf : list ascii) (v : StringView) :
  (forall c, In c (list_ascii_of_string "wxprhaqobvucsiljfdg") ->
             sv_startsWith_char buf c v = false) ->
  (sv_empty v = false -> isDigit (sv_front buf v) = false) ->
  sv_startsWith buf (list_ascii_of_string "zc") v = false ->
  typeAhead buf v = false.
Proof.
  intros Hall Hd Hzc. unfold typeAhead, startsType.
  destruct (sv_empty v) eqn:Ee; [reflexivity|]. cbn [negb andb].
  rewrite Hzc, (Hd eq_refl), !orb_false_r.
  destruct (existsb _ _) eqn:E; [|reflexivity].
  apply existsb_exists in E. destruct E as (c & Hin & Hc).
  specialize (Hall c Hin). unfold sv_startsWith_char in Hall.
  rewrite Ee, Hc in Hall. discriminate Hall.
Qed.

Lemma parseBuildInType_untouched (buf : list ascii) (quals : Qualifiers)
  (st st' : PState) :
  parseBuildInType buf quals st = Some (None, st') ->
  First (_mangled st) <= Last (_mangled st) ->
  First (_mangled st') = First (_mangled st) ->
  (forall c, In c (list_ascii_of_string "obvcusiljfdg") ->
             sv_startsWith_char buf c (_mangled st) = false)
  /\ sv_startsWith buf (list_ascii_of_string "zc") (_mangled st) = false.
Proof.
  intros H Hle Hfirst. unfold parseBuildInType, consumeIfPossible,
    consumeIfPossible_sv in H.
  consume_cases H Hle as s1 Hsw1 Hcon; [inversion H|].
  consume_cases H Hle as s2 Hsw2 Hcon; [inversion H|].
  consume_cases H Hle as s3 Hsw3 Hcon; [inversion H|].
  consume_cases H Hle as s4 Hsw4 Hcon; [inversion H|].
  consume_cases H Hle as s5 Hsw5 Hcon; [inversion H|].
  consume_cases H Hle as s6 Hsw6 Hcon; [inversion H|].
  consume_cases H Hle as su Hswu Hconu.
  - exfalso.
    pose proof (consumed_le _ _ _ Hconu) as (F1 & F2 & _).
    assert (Hle' : First (_mangled su) <= Last (_mangled su)).
    { unfold sv_startsWith_char, sv_empty in Hswu. apply andb_true_iff in Hswu.
      destruct Hswu as [E _]. apply negb_true_iff, Nat.eqb_neq in E. lia. }
    consume_cases H Hle' as s7 Hsw7 Hcon; [inversion H|].
    consume_cases H Hle' as s8 Hsw8 Hcon; [inversion H|].
    consume_cases H Hle' as s9 Hsw9 Hcon; [inversion H|].
    consume_cases H Hle' as s10 Hsw10 Hcon; [inversion H|].
    inversion H; subst st'. cbn in Hfirst. lia.
  - consume_cases H Hle as s7 Hsw7 Hcon; [inversion H|].
    consume_cases H Hle as s8 Hsw8 Hcon; [inversion H|].
    consume_cases H Hle as s9 Hsw9 Hcon; [inversion H|].
    consume_cases H Hle as s10 Hsw10 Hcon; [inversion H|].
    consume_cases H Hle as s11 Hsw11 Hcon; [inversion H|].
    consume_cases H Hle as s12 Hsw12 Hcon; [inversion H|].
    consume_cases H Hle as s13 Hsw13 Hcon; [inversion H|].
    split; [|exact Hsw4].
    intros c Hin. cbn in Hin.
    repeat (destruct Hin as [<-|Hin]; [assumption|]). contradiction.
Qed.

Lemma parseType_body_cases (buf : list ascii) (rec : M (option Node))
  (fuel : nat) (st st' : PState) (r : option Node) :
  Respects cursorStep rec ->
  cursorOk buf st ->
  _status st = in_progress ->
  parseType_body buf rec fuel st = Some (r, st') ->
  First (_mangled st) < First (_mangled st')
  \/ (r = None /\ st' = set_status invalid_mangled_name st
      /\ sv_startsWith_char buf "0" (_mangled st) = true)
  \/ (r = None /\ st' = st /\ typeAhead buf (_mangled st) = false).
Proof.
  intros Hrec Hok Hs H. pose proof (cursor_frame buf) as HF.
  assert (Hle : First (_mangled st) <= Last (_mangled st)) by apply Hok.
  unfold parseType_body, consumeIfPossible in H.
  binv H as quals s0 Hq.
  assert (Hq' : First (_mangled st) < First (_mangled s0)
                \/ (s0 = st
                    /\ sv_startsWith_char buf "w" (_mangled st) = false
                    /\ sv_startsWith_char buf "x" (_mangled st) = false)).
  { unfold parseQualifiers, consumeIfPossible in Hq.
    consume_cases Hq Hle as s1 Hsw1 Hcon1.
    - left. cursor_of Hq HF Hrec Hstep. apply consumed_le in Hcon1.
      destruct Hstep as (_ & Hstep & _). lia.
    - consume_cases Hq Hle as s2 Hsw2 Hcon2.
      + left. apply ret_inv in Hq. destruct Hq as [_ <-].
        apply consumed_le in Hcon2. lia.
      + right. apply ret_inv in Hq. destruct Hq as [_ <-]. auto. }
  destruct Hq' as [Hprog|(-> & Hw & Hx)].
  { left. cursor_of H HF Hrec Hstep. destruct Hstep as (_ & Hstep & _). lia. }
  assert (Hhit : forall s1 (m : M (option Node)),
             consumed 1 st s1 -> Respects cursorStep m ->
             m s1 = Some (r, st') ->
             First (_mangled st) < First (_mangled st')).
  { intros s1 m Hc Hm Hrun. apply consumed_le in Hc. apply Hm in Hrun.
    destruct Hrun as (_ & Hstep & _). lia. }
  consume_cases H Hle as s1 Hp Hcon.
  { left. eapply Hhit; [exact Hcon| |exact H]. frame_with HF Hrec. }
  consume_cases H Hle as s2 Hr Hcon.
  { left. eapply Hhit; [exact Hcon| |exact H]. frame_with HF Hrec. }
  consume_cases H Hle as s3 Hh Hcon.
  { left. eapply Hhit; [exact Hcon| |exact H]. frame_with HF Hrec. }
  consume_cases H Hle as s4 Ha Hcon.
  { left. eapply Hhit; [exact Hcon| |exact H]. frame_with HF Hrec. }
  binv H as b s5 Hpk.
  assert (Hpk' : s5 = st /\ sv_startsWith_char buf "q" (_mangled st) = b).
  { unfold peekChar, getMangled, bind, ret in Hpk.
    unfold sv_startsWith_char.
    destruct (negb (sv_empty (_mangled st))); inversion Hpk; subst; auto. }
  destruct Hpk' as [-> Hqc]. destruct b.
  { left. unfold parseFuncType in H. binv H as cc s6 Hcc.
    cursor_of H HF Hrec Hstep. destruct Hstep as (_ & Hstep & _).
    destruct (parseCallConv_cases _ _ _ _ Hcc Hok)
      as [(Hno & _)|(_ & [(_ & Hc & _)|[(_ & Hc & _)|(_ & Hc)]])];
      [congruence| | |]; apply consumed_le in Hc; lia. }
  binv H as len s6 Hnum.
  destruct (parseNumber_cases _ _ _ _ Hnum Hle) as (_ & _ & Hcases).
  binv H as s s7 Hgs. inversion Hgs; subst s s7; clear Hgs.
  destruct Hcases as [(-> & -> & Hnd)|[(-> & -> & Hlt & H0)|(e & He & -> & _)]].
  - rewrite Hs in H. cbn [Status_eqb Z.ltb Z.compare] in H.
    pose proof (parseBuildInType_cases _ _ _ _ _ H Hle) as Hb.
    destruct r as [n|].
    + left. lia.
    + destruct Hb as [->|(_ & ->)]; [|left; cbn; lia].
      right. right. split; [reflexivity|]. split; [reflexivity|].
      destruct (parseBuildInType_untouched _ _ _ _ H Hle eq_refl) as [Hall Hzc].
      apply typeAhead_of_misses; [| |exact Hzc].
      * intros c Hin. cbn in Hin.
        repeat (destruct Hin as [<-|Hin];
                [first [assumption|apply Hall; cbn; tauto]|]).
        contradiction.
      * intros Ee. unfold sv_empty in Ee. apply Nat.eqb_neq in Ee.
        destruct Hnd as [Hnd|Hnd]; [contradiction|exact Hnd].
  - cbn in H. inversion H; subst. right. left.
    split; [reflexivity|]. split; [reflexivity|].
    unfold sv_startsWith_char, sv_empty. rewrite H0.
    replace (First (_mangled st) =? Last (_mangled st)) with false
      by (symmetry; apply Nat.eqb_neq; lia).
    reflexivity.
  - left. destruct (Status_eqb _ _).
    + inversion H; subst. cbn. lia.
    + cursor_of H HF Hrec Hstep. destruct Hstep as (_ & Hstep & _).
      cbn in Hstep. lia.
Qed.

(** X17.  On a parser in progress, whatever [parseType] returns, exactly
    three things can have happened: at least one character was consumed;
    or the cursor starts with '0', the status became
    [invalid_mangled_name] and nothing else changed; or no type can start
    at the cursor and the parser is as it was.  A null result with the
    parser untouched therefore always means that the next character starts
    no type. *)
Theorem parseType_consumes_or_refuses :
  forall buf fuel st r st',
    cursorOk buf st ->
    _status st = in_progress ->
    parseType buf fuel st = Some (r, st') ->
    First (_mangled st) < First (_mangled st')
    \/ (r = None /\ st' = set_status invalid_mangled_name st
        /\ sv_startsWith_char buf "0" (_mangled st) = true)
    \/ (r = None /\ st' = st /\ typeAhead buf (_mangled st) = false).
Proof.
  intros buf fuel st r st' Hok Hs H.
  destruct fuel as [|fuel]; [discriminate H|]. cbn [parseType] in H.
  eapply parseType_body_cases; [|exact Hok|exact Hs|exact H].
  apply (respects_parseType buf _ (cursor_frame buf)).
Qed.

Lemma parseType_consumes_or_refuses_witness :
  let buf := list_ascii_of_string "0i" in
  let st := initialState buf in
  parseType buf 1 st = Some (None, set_status invalid_mangled_name st)
  /\ (First (_mangled st) < First (_mangled (set_status invalid_mangled_name st))
      \/ (@None Node = None
          /\ set_status invalid_mangled_name st
             = set_status invalid_mangled_name st
          /\ sv_startsWith_char buf "0" (_mangled st) = true)
      \/ (@None Node = None /\ set_status invalid_mangled_name st = st
          /\ typeAhead buf (_mangled st) = false)).
Proof.
  intros buf st.
  assert (H : parseType buf 1 st
              = Some (None, set_status invalid_mangled_name st))
    by reflexivity.
  assert (Hok : cursorOk buf st) by (split; cbn; lia).
  split; [exact H|].
  exact (parseType_consumes_or_refuses buf 1 st None _ Hok eq_refl H).
Defined.

(** ** The argument loop of the bounded [parseTemplate] *)

Lemma bind_None_inv {A B : Type} (m : M A) (f : A -> M B) (st : PState) :
  bind m f st = None ->
  m st = None \/ exists a st', m st = Some (a, st') /\ f a st' = None.
Proof.
  unfold bind. destruct (m st) as [[a st']|]; [|now left].
  intros H. right. eauto.
Qed.

Lemma consumeFront_finishes (buf : list ascii) (c : ascii) (st : PState) :
  consumeFront buf c st <> None.
Proof.
  unfold consumeFront, getMangled, setMangled, bind, ret.
  destruct (sv_startsWith_char _ _ _); discriminate.
Qed.

Lemma peekNumber_finishes (buf : list ascii) (st : PState) :
  peekNumber buf st <> None.
Proof.
  unfold peekNumber, getMangled, bind, ret.
  destruct (negb _); [destruct (Ascii.eqb _ _)|]; discriminate.
Qed.

Lemma parseNumber_finishes (buf : list ascii) (st : PState) :
  parseNumber buf st <> None.
Proof.
  unfold parseNumber, getMangled, setMangled, setStatus, bind, ret.
  destruct (negb _); [destruct (Ascii.eqb _ _)|]; try discriminate.
  destruct (numberLoop _ _ _ _). discriminate.
Qed.

Lemma parseTemplate_end_body_blocked (buf : list ascii)
  (rec : M (option Node)) (params : list Node) (st : PState) :
  parseTemplate_end_body buf rec params st = None ->
  exists t s1, consumeIfPossible buf "t" st = Some (t, s1) /\ rec s1 = None.
Proof.
  unfold parseTemplate_end_body. intros H.
  apply bind_None_inv in H.
  destruct H as [H|(t & s1 & Ht & H)]; [now apply consumeFront_finishes in H|].
  exists t, s1. split; [exact Ht|].
  apply bind_None_inv in H. destruct H as [H|(res & s2 & Hres & H)].
  - exfalso. destruct t; [|discriminate H].
    apply bind_None_inv in H.
    destruct H as [H|(n & s & _ & H)]; [now apply peekNumber_finishes in H|].
    destruct (_ && _); [|discriminate H].
    apply bind_None_inv in H.
    destruct H as [H|(? & ? & _ & H)]; [now apply parseNumber_finishes in H|].
    discriminate H.
  - destruct res; [discriminate H|].
    assert (Hs : s2 = s1).
    { destruct t; [|apply ret_inv in Hres; now destruct Hres].
      binv Hres as n s3 Hp.
      destruct (peekNumber_pure buf s1) as [n' Hp'].
      rewrite Hp' in Hp. inversion Hp; subst.
      destruct (_ && _).
      - binv Hres as x s4 Hn. apply ret_inv in Hres.
        destruct Hres; discriminate.
      - apply ret_inv in Hres. now destruct Hres. }
    subst s2.
    apply bind_None_inv in H. destruct H as [H|(n & s & _ & H)]; [exact H|].
    exfalso. apply bind_None_inv in H.
    destruct H as [H|(x & s' & _ & H)]; [discriminate H|].
    destruct n; [destruct (Status_eqb _ _)|]; discriminate H.
Qed.

Lemma parseTemplate_end_body_continue (buf : list ascii)
  (rec : M (option Node)) (params params' : list Node) (st st' : PState) :
  Respects cursorStep rec ->
  (forall s n s', cursorOk buf s -> rec s = Some (Some n, s') ->
                  First (_mangled s) < First (_mangled s')) ->
  cursorOk buf st ->
  parseTemplate_end_body buf rec params st = Some (Continue params', st') ->
  First (_mangled st) < First (_mangled st') /\ cursorOk buf st'.
Proof.
  intros Hrec Hprog Hok H. pose proof (cursor_frame buf) as HF.
  assert (Hle : First (_mangled st) <= Last (_mangled st)) by apply Hok.
  split.
  2:{ eapply cursorStep_ok; [|exact Hok].
      assert (Hb : Respects cursorStep (parseTemplate_end_body buf rec params))
        by (unfold parseTemplate_end_body, consumeIfPossible;
            frame_with HF Hrec).
      exact (Hb _ _ _ H). }
  unfold parseTemplate_end_body, consumeIfPossible in H.
  consume_cases H Hle as s1 Ht Hcon.
  - apply consumed_le in Hcon. cursor_of H HF Hrec Hstep.
    destruct Hstep as (_ & Hstep & _). lia.
  - binv H as res s2 Hres. apply ret_inv in Hres. destruct Hres as [-> ->].
    binv H as typeNode s3 Hty. binv H as s s4 Hgs.
    inversion Hgs; subst s s4; clear Hgs.
    destruct typeNode as [n|]; [|inversion H].
    pose proof (Hprog _ _ _ Hok Hty).
    destruct (Status_eqb _ _); inversion H; subst. assumption.
Qed.

Lemma parseTemplate_end_loop_blocked (buf : list ascii)
  (rec : M (option Node)) (k : nat) :
  Respects cursorStep rec ->
  (forall s n s', cursorOk buf s -> rec s = Some (Some n, s') ->
                  First (_mangled s) < First (_mangled s')) ->
  forall params st,
    cursorOk buf st ->
    Last (_mangled st) - First (_mangled st) < k ->
    parseTemplate_end_loop buf rec k params st = None ->
    exists params' s t s1,
      IterationOf buf rec params st params' s
      /\ cursorOk buf s
      /\ peekChar buf "%" s = Some (false, s)
      /\ parseTemplate_end_body buf rec params' s = None
      /\ consumeIfPossible buf "t" s = Some (t, s1)
      /\ cursorOk buf s1
      /\ rec s1 = None.
Proof.
  intros Hrec Hprog.
  induction k as [|k IH]; intros params st Hok Hk H; [lia|].
  cbn [parseTemplate_end_loop] in H.
  apply bind_None_inv in H. destruct H as [H|(p & s1 & Hp & H)].
  { exfalso. unfold peekChar, getMangled, bind, ret in H.
    destruct (negb _); discriminate H. }
  assert (s1 = st).
  { unfold peekChar, getMangled, bind, ret in Hp.
    destruct (negb _); inversion Hp; reflexivity. }
  subst s1. destruct p; cbn [negb] in H; [discriminate H|].
  apply bind_None_inv in H. destruct H as [H|(ctl & s2 & Hb & H)].
  { destruct (parseTemplate_end_body_blocked _ _ _ _ H) as (t & s1 & Ht & Hnone).
    exists params, st, t, s1.
    split; [apply iteration_first|]. split; [exact Hok|].
    split; [exact Hp|]. split; [exact H|]. split; [exact Ht|].
    split; [|exact Hnone].
    eapply cursorStep_ok; [|exact Hok].
    exact (respects_consumeIfPossible _ _ (cursor_frame buf) _ _ _ _ Ht). }
  destruct ctl as [params1|r]; [|discriminate H].
  destruct (parseTemplate_end_body_continue _ _ _ _ _ _ Hrec Hprog Hok Hb)
    as [Hlt Hok'].
  destruct (IH params1 s2 Hok') as (params' & s & t & s1 & Hit & Hrest);
    [destruct Hok as [E1 _]; destruct Hok' as [E2 E3]; lia|exact H|].
  exists params', s, t, s1. split; [|exact Hrest].
  eapply iteration_next; eauto.
Qed.

(** X18.  The argument loop of the bounded [parseTemplate] stops by itself.
    Every iteration that ends in [continue] has consumed at least one
    character and leaves the cursor inside the buffer.  So with more
    iterations than characters left, the loop can fail to finish only
    through a call of [parseType] of its own: one of its iterations starts
    inside the buffer with the cursor not at '%', its body does not
    finish, and the call of [parseType] in that body, at the cursor after
    the optional 't', does not finish. *)
Theorem bounded_template_loop_stops :
  (forall buf fuel params st params' st',
      cursorOk buf st ->
      parseTemplate_end_body buf (parseType buf fuel) params st
      = Some (Continue params', st') ->
      First (_mangled st) < First (_mangled st') /\ cursorOk buf st')
  /\ (forall buf fuel k params st,
      cursorOk buf st ->
      Last (_mangled st) - First (_mangled st) < k ->
      parseTemplate_end_loop buf (parseType buf fuel) k params st = None ->
      exists params' s t s1,
        IterationOf buf (parseType buf fuel) params st params' s
        /\ cursorOk buf s
        /\ peekChar buf "%" s = Some (false, s)
        /\ parseTemplate_end_body buf (parseType buf fuel) params' s = None
        /\ consumeIfPossible buf "t" s = Some (t, s1)
        /\ cursorOk buf s1
        /\ parseType buf fuel s1 = None).
Proof.
  assert (Hprog : forall buf fuel s n s',
             cursorOk buf s -> parseType buf fuel s = Some (Some n, s') ->
             First (_mangled s) < First (_mangled s')).
  { intros buf fuel s n s' Hs Hrun.
    pose proof (respects_parseType buf _ (cursor_frame buf)) as Hrec.
    destruct fuel as [|fuel]; [discriminate Hrun|]. cbn [parseType] in Hrun.
    exact (parseType_body_progress _ _ _ _ _ _ (Hrec fuel) Hs Hrun). }
  split.
  - intros buf fuel params st params' st' Hok H.
    exact (parseTemplate_end_body_continue _ _ _ _ _ _
             (respects_parseType buf _ (cursor_frame buf) fuel)
             (Hprog buf fuel) Hok H).
  - intros buf fuel k params st Hok Hk H.
    exact (parseTemplate_end_loop_blocked buf _ k
             (respects_parseType buf _ (cursor_frame buf) fuel)
             (Hprog buf fuel) params st Hok Hk H).
Qed.

Lemma bounded_template_loop_stops_witness :
  let buf := list_ascii_of_string "iqk%" in
  let rec := parseType buf 5 in
  parseTemplate_end_loop buf rec 5 [] (initialState buf) = None
  /\ exists params' s t s1,
       IterationOf buf rec [] (initialState buf) params' s
       /\ cursorOk buf s
       /\ peekChar buf "%" s = Some (false, s)
       /\ parseTemplate_end_body buf rec params' s = None
       /\ consumeIfPossible buf "t" s = Some (t, s1)
       /\ cursorOk buf s1
       /\ rec s1 = None.
Proof.
  intros buf rec.
  assert (H : parseTemplate_end_loop buf rec 5 [] (initialState buf) = None)
    by (vm_compute; reflexivity).
  assert (Hok : cursorOk buf (initialState buf)) by (split; cbn; lia).
  assert (Hk : Last (_mangled (initialState buf))
               - First (_mangled (initialState buf)) < 5) by (cbn; lia).
  split; [exact H|].
  exact (proj2 bounded_template_loop_stops buf 5 5 [] (initialState buf)
           Hok Hk H).
Defined.

(** ** References inside the nodes *)

Lemma returns_ret {A : Type} (P : A -> Prop) (a : A) :
  P a -> Returns P (ret a).
Proof. intros H st b st' E. inversion E; subst. exact H. Qed.

Lemma returns_outOfFuel {A : Type} (P : A -> Prop) : Returns P outOfFuel.
Proof. intros st a st' E. discriminate E. Qed.

Lemma returns_bind {A B : Type} (Q : A -> Prop) (P : B -> Prop)
  (m : M A) (f : A -> M B) :
  Returns Q m -> (forall a, Q a -> Returns P (f a)) -> Returns P (bind m f).
Proof.
  intros Hm Hf st b st' E. binv E as a s Ha.
  exact (Hf a (Hm _ _ _ Ha) _ _ _ E).
Qed.

Lemma returns_bind_any {A B : Type} (P : B -> Prop)
  (m : M A) (f : A -> M B) :
  (forall a, Returns P (f a)) -> Returns P (bind m f).
Proof.
  intros Hf st b st' E. binv E as a s Ha. exact (Hf a _ _ _ E).
Qed.

Lemma returns_and {A : Type} (P Q : A -> Prop) (m : M A) :
  Returns P m -> Returns Q m -> Returns (fun a => P a /\ Q a) m.
Proof. intros HP HQ st a st' E. split; eauto. Qed.

Lemma returns_create (P : Node -> Prop) (mk : nat -> Node) :
  (forall i, P (mk i)) -> Returns P (create mk).
Proof.
  intros H st n st' E. unfold create, newId, bind, ret in E.
  inversion E; subst. apply H.
Qed.

Lemma returns_createPtr (P : option Node -> Prop) (mk : nat -> Node) :
  (forall i, P (Some (mk i))) -> Returns P (createPtr mk).
Proof.
  intros H st n st' E. unfold createPtr, create, newId, bind, ret in E.
  inversion E; subst. apply H.
Qed.

Lemma refsOk_addBackref (params : list Node) (backref : Z) :
  forallb refsOk params = true ->
  forallb refsOk (addBackref params backref) = true.
Proof.
  intros H. unfold addBackref.
  destruct (nth_error params _) as [node|] eqn:E; [|exact H].
  rewrite forallb_app, H. cbn. rewrite andb_true_r.
  apply nth_error_In in E. rewrite forallb_forall in H. now apply H.
Qed.

Lemma refsOk_arrayOrNull (id : nat) (params : list Node) :
  forallb refsOk params = true ->
  refsOk_opt (arrayOrNull id params) = true.
Proof. intros H. destruct params; [reflexivity|exact H]. Qed.

Create HintDb returns.

(** Closes the facts about [refsOk] that are left. *)
Ltac refs_solve :=
  cbn [refsOk refsOk_opt refsOk_ctl forallb fst snd] in *;
  repeat match goal with
         | |- context [match ?x with _ => _ end] => destruct x
         end;
  cbn [refsOk refsOk_opt refsOk_ctl forallb fst snd] in *;
  rewrite ?forallb_app; cbn [forallb];
  repeat match goal with
         | H : _ || _ = false |- _ => apply orb_false_iff in H; destruct H
         | H : _ && _ = true |- _ => apply andb_true_iff in H; destruct H
         end;
  repeat match goal with
         | H : ?x = _ |- context [?x] => rewrite H
         end;
  cbn [negb andb];
  first [ reflexivity | assumption
        | apply refsOk_addBackref; assumption
        | apply refsOk_arrayOrNull; assumption ].

(** One step of a proof about the values a rule returns, along its shape. *)
Ltac returns_step :=
  match goal with
  | |- Returns _ (ret _) => apply returns_ret
  | |- Returns _ outOfFuel => apply returns_outOfFuel
  | |- Returns _ (createPtr _) => apply returns_createPtr; intro; cbv beta
  | |- Returns _ (create _) => apply returns_create; intro; cbv beta
  | |- Returns _ (bind (create _) _) =>
      apply returns_bind with (Q := fun n => refsOk n = true);
      [apply returns_create; intro; cbv beta; refs_solve|intros ? ?]
  | |- Returns _ (bind ?m _) =>
      first [ eapply returns_bind; [solve [eauto with returns]|intros ? ?]
            | apply returns_bind_any; intro ]
  | |- Returns _ (if ?b then _ else _) => destruct b eqn:?
  | |- Returns _ (match ?x with _ => _ end) =>
      first [is_var x; destruct x | destruct x eqn:?]
  | |- Returns _ _ => solve [eauto with returns]
  end.

Ltac returns := cbv zeta; repeat returns_step; try refs_solve.

Section ReturnsRules.

Variable buf : list ascii.
Variable parseType_rec : M (option Node).
Variable fuel : nat.
Hypothesis Hrec : Returns (fun o => refsOk_opt o = true) parseType_rec.

Lemma returns_parseBuildInType (quals : Qualifiers) :
  Returns (fun o => refsOk_opt o = true) (parseBuildInType buf quals).
Proof. unfold parseBuildInType. returns. Qed.

Lemma returns_parseFuncParams_body (params : list Node) :
  forallb refsOk params = true ->
  Returns (fun c => refsOk_ctl refsOk_opt c = true)
    (parseFuncParams_body buf parseType_rec params).
Proof. intros H. unfold parseFuncParams_body. returns. Qed.

Lemma returns_parseFuncParams_loop (k id : nat) :
  forall params,
    forallb refsOk params = true ->
    Returns (fun o => refsOk_opt o = true)
      (parseFuncParams_loop buf parseType_rec k id params).
Proof.
  induction k as [|k IH]; intros params H; cbn [parseFuncParams_loop].
  - apply returns_outOfFuel.
  - do 3 (apply returns_bind_any; intro).
    destruct (_ && _); [|apply returns_ret; now apply refsOk_arrayOrNull].
    eapply returns_bind; [apply returns_parseFuncParams_body; exact H|].
    intros [params'|r] Hc; cbn in Hc; [now apply IH|now apply returns_ret].
Qed.

Lemma returns_parseFuncParams :
  Returns (fun o => refsOk_opt o = true)
    (parseFuncParams buf parseType_rec fuel).
Proof.
  unfold parseFuncParams. apply returns_bind_any; intro.
  now apply returns_parseFuncParams_loop.
Qed.

Hint Resolve returns_parseBuildInType returns_parseFuncParams : returns.

Lemma returns_parseFuncType_refs (quals : Qualifiers) :
  Returns (fun o => refsOk_opt o = true)
    (parseFuncType buf parseType_rec fuel quals).
Proof. unfold parseFuncType. returns. Qed.

Lemma returns_parseFuncType_kind (quals : Qualifiers) :
  Returns (fun o => match o with
                    | Some n => kind n = KFunctionType
                    | None => True
                    end)
    (parseFuncType buf parseType_rec fuel quals).
Proof.
  unfold parseFuncType.
  repeat first [ apply returns_createPtr; intro; cbv beta; reflexivity
               | apply returns_bind_any; intro
               | apply returns_ret; cbv beta; exact I
               | match goal with
                 | |- Returns _ (if ?b then _ else _) => destruct b
                 end ].
Qed.

(** [parseFuncType] returns null or a function type without references to
    references. *)
Lemma returns_parseFuncType (quals : Qualifiers) :
  Returns (fun o => refsOk_opt o = true
                    /\ match o with
                       | Some n => kind n = KFunctionType
                       | None => True
                       end)
    (parseFuncType buf parseType_rec fuel quals).
Proof.
  apply returns_and;
    [apply returns_parseFuncType_refs|apply returns_parseFuncType_kind].
Qed.

Hint Resolve returns_parseFuncType_refs : returns.

Lemma returns_parsePointer (quals : Qualifiers) :
  Returns (fun o => refsOk_opt o = true)
    (parsePointer parseType_rec quals).
Proof. unfold parsePointer. returns. Qed.

Lemma returns_parseReference :
  Returns (fun o => refsOk_opt o = true)
    (parseReference buf parseType_rec fuel).
Proof.
  unfold parseReference. apply returns_bind_any; intros d. destruct d.
  - cbv zeta. eapply returns_bind; [apply returns_parseFuncType|].
    intros [f|] [H1 H2]; returns.
    cbn [refsOk refsOk_opt] in *.
    unfold isKReferenceType, isKRReferenceType. rewrite H2. exact H1.
  - returns.
Qed.

Lemma returns_parseRReference :
  Returns (fun o => refsOk_opt o = true)
    (parseRReference buf parseType_rec fuel).
Proof.
  unfold parseRReference. apply returns_bind_any; intros d. destruct d.
  - cbv zeta. eapply returns_bind; [apply returns_parseFuncType|].
    intros [f|] [H1 H2]; returns.
    cbn [refsOk refsOk_opt] in *.
    unfold isKReferenceType. rewrite H2. exact H1.
  - returns.
Qed.

Lemma returns_parseArray (quals : Qualifiers) :
  Returns (fun o => refsOk_opt o = true)
    (parseArray buf parseType_rec quals).
Proof. unfold parseArray. returns. Qed.

Lemma returns_appendName (name : option Node) (v : StringView) :
  refsOk_opt name = true ->
  Returns (fun o => refsOk_opt o = true) (appendName buf name v).
Proof. intros H. unfold appendName. returns. Qed.

Hint Resolve returns_parsePointer returns_parseReference
  returns_parseRReference returns_parseArray returns_appendName : returns.

Lemma returns_parseTemplate_end_body (params : list Node) :
  forallb refsOk params = true ->
  Returns (fun c => refsOk_ctl (forallb refsOk) c = true)
    (parseTemplate_end_body buf parseType_rec params).
Proof.
  intros H. unfold parseTemplate_end_body.
  apply returns_bind_any; intros t.
  apply returns_bind
    with (Q := fun r => match r with
                        | Some p => forallb refsOk p = true
                        | None => True
                        end).
  - returns.
  - intros [p|] Hp; returns.
Qed.

Lemma returns_parseTemplate_end_loop (k : nat) :
  forall params,
    forallb refsOk params = true ->
    Returns (fun l => forallb refsOk l = true)
      (parseTemplate_end_loop buf parseType_rec k params).
Proof.
  induction k as [|k IH]; intros params H; cbn [parseTemplate_end_loop].
  - apply returns_outOfFuel.
  - apply returns_bind_any; intro.
    destruct (negb _); [|now apply returns_ret].
    eapply returns_bind; [apply returns_parseTemplate_end_body; exact H|].
    intros [params'|r] Hc; cbn in Hc; [now apply IH|now apply returns_ret].
Qed.

Lemma returns_parseTemplate_end (ns : option Node) (end_ : nat) :
  refsOk_opt ns = true ->
  Returns (fun o => refsOk_opt o = true)
    (parseTemplate_end buf parseType_rec fuel ns end_).
Proof.
  intros H. unfold parseTemplate_end.
  apply returns_bind_any; intro. destruct (negb _); [returns|].
  apply returns_bind_any; intros templateName.
  destruct (sv_empty templateName); [returns|].
  returns_step.
  apply returns_bind with (Q := fun n => refsOk n = true).
  { destruct ns; returns. }
  intros templateNameNode Htn.
  apply returns_bind_any; intro. destruct (negb _); [returns|].
  apply returns_bind_any; intros id.
  eapply returns_bind;
    [apply (returns_parseTemplate_end_loop fuel []); reflexivity|].
  intros params Hparams. returns.
Qed.

Lemma returns_parseName_loop (k : nat) :
  forall end_ start c name,
    refsOk_opt name = true ->
    Returns (fun r => refsOk_opt (snd r) = true)
      (parseName_loop buf k end_ start c name).
Proof.
  induction k as [|k IH]; intros end_ start c name H; cbn [parseName_loop].
  - now apply returns_ret.
  - destruct (c <? end_); [|now apply returns_ret].
    apply returns_bind_any; intros ch.
    destruct (_ || _); [|now apply IH].
    apply returns_bind with (Q := fun sn => refsOk_opt (snd sn) = true).
    { returns. }
    intros sn Hsn. apply returns_bind_any; intros f.
    destruct (Ascii.eqb f "@").
    + apply returns_bind_any; intro. now apply IH.
    + now apply returns_ret.
Qed.

Lemma returns_parseName (endMangled : nat) :
  Returns (fun o => refsOk_opt o = true)
    (parseName buf parseType_rec fuel endMangled).
Proof.
  unfold parseName. apply returns_bind_any; intros v. cbv zeta.
  eapply returns_bind;
    [apply returns_parseName_loop; reflexivity|].
  intros [[start c] name] Hr. cbn [snd] in Hr.
  apply returns_bind with (Q := fun o => refsOk_opt o = true).
  { returns. }
  intros name' Hname'. apply returns_bind_any; intros p.
  destruct (_ && _); [|now apply returns_ret].
  now apply returns_parseTemplate_end.
Qed.

Hint Resolve returns_parseName : returns.

Lemma returns_parseNamedType (nameLen : Z) (quals : Qualifiers) :
  Returns (fun o => refsOk_opt o = true)
    (parseNamedType buf parseType_rec fuel nameLen quals).
Proof. unfold parseNamedType. returns. Qed.

Hint Resolve returns_parseNamedType : returns.

Lemma returns_parseType_body :
  Returns (fun o => refsOk_opt o = true)
    (parseType_body buf parseType_rec fuel).
Proof. unfold parseType_body. returns. Qed.

Lemma returns_parseTemplateName (ns : option Node) :
  refsOk_opt ns = true ->
  Returns (fun o => refsOk_opt o = true) (parseTemplateName buf ns).
Proof. intros H. unfold parseTemplateName. returns. Qed.

Lemma returns_parseTemplateParams_body (params : list Node) :
  forallb refsOk params = true ->
  Returns (fun c => refsOk_ctl refsOk_opt c = true)
    (parseTemplateParams_body buf parseType_rec params).
Proof.
  intros H. unfold parseTemplateParams_body.
  apply returns_bind_any; intros t.
  apply returns_bind
    with (Q := fun r => match r with
                        | Some p => forallb refsOk p = true
                        | None => True
                        end).
  - returns.
  - intros [p|] Hp; returns.
Qed.

Lemma returns_parseTemplateParams_loop (k id : nat) :
  forall params,
    forallb refsOk params = true ->
    Returns (fun o => refsOk_opt o = true)
      (parseTemplateParams_loop buf parseType_rec k id params).
Proof.
  induction k as [|k IH]; intros params H; cbn [parseTemplateParams_loop].
  - apply returns_outOfFuel.
  - apply returns_bind_any; intro.
    destruct (negb _); [|apply returns_ret; now apply refsOk_arrayOrNull].
    eapply returns_bind; [apply returns_parseTemplateParams_body; exact H|].
    intros [params'|r] Hc; cbn in Hc; [now apply IH|now apply returns_ret].
Qed.

Lemma returns_parseTemplateParams :
  Returns (fun o => refsOk_opt o = true)
    (parseTemplateParams buf parseType_rec fuel).
Proof.
  unfold parseTemplateParams. apply returns_bind_any; intro.
  now apply returns_parseTemplateParams_loop.
Qed.

Hint Resolve returns_parseTemplateName returns_parseTemplateParams : returns.

Lemma returns_parseTemplate (ns : option Node) :
  refsOk_opt ns = true ->
  Returns (fun o => refsOk_opt o = true)
    (parseTemplate buf parseType_rec fuel ns).
Proof. intros H. unfold parseTemplate. returns. Qed.

Lemma returns_parseFuncName_loop (k : nat) :
  forall end_ start c name,
    refsOk_opt name = true ->
    Returns (fun o => refsOk_opt o = true)
      (parseFuncName_loop buf k end_ start c name).
Proof.
  induction k as [|k IH]; intros end_ start c name H; cbn [parseFuncName_loop].
  - now apply returns_ret.
  - destruct (c <=? end_); [|now apply returns_ret].
    apply returns_bind_any; intros ch.
    destruct (_ || _); [|now apply IH].
    apply returns_bind with (Q := fun sn => refsOk_opt (snd sn) = true).
    { returns. }
    intros sn Hsn. apply returns_bind_any; intros f.
    destruct (Ascii.eqb f "@").
    + apply returns_bind_any; intro. now apply IH.
    + now apply returns_ret.
Qed.

Lemma returns_parseFuncName :
  Returns (fun o => refsOk_opt o = true)
    (parseFuncName buf parseType_rec fuel).
Proof.
  unfold parseFuncName. apply returns_bind_any; intros v. cbv zeta.
  eapply returns_bind;
    [apply returns_parseFuncName_loop; reflexivity|].
  intros name Hname. apply returns_bind_any; intros f.
  apply returns_bind with (Q := fun o => refsOk_opt o = true).
  { destruct (Ascii.eqb f "%");
      [now apply returns_parseTemplate|now apply returns_ret]. }
  intros name' Hname'. apply returns_bind_any; intro.
  now apply returns_ret.
Qed.

End ReturnsRules.

Lemma returns_parseType (buf : list ascii) (n : nat) :
  Returns (fun o => refsOk_opt o = true) (parseType buf n).
Proof.
  induction n as [|n IH]; cbn [parseType].
  - apply returns_outOfFuel.
  - now apply returns_parseType_body.
Qed.

Lemma parseFunction_refs (buf : list ascii) (rec : M (option Node))
  (fuel : nat) (st st' : PState) (u : unit) :
  Returns (fun o => refsOk_opt o = true) rec ->
  parseFunction buf rec fuel st = Some (u, st') ->
  _status st' = success ->
  refsOk_opt (_ast st') = true.
Proof.
  unfold parseFunction. intros Hrec H Hs.
  binv H as b0 s0 Hc0. binv H as absNameNode s1 Hname.
  apply (returns_parseFuncName _ _ _ Hrec) in Hname.
  binv H as ok1 s2 Hck1. destruct ok1; cbn [negb] in H;
    [|apply ret_inv in H; destruct H; subst;
      rewrite (checkResult_inv _ _ _ _ Hck1 eq_refl) in Hs; discriminate].
  binv H as ok2 s3 Hc2. destruct ok2; cbn [negb] in H;
    [|apply ret_inv in H; destruct H; subst;
      rewrite (consume_inv _ _ _ _ _ Hc2 eq_refl) in Hs; discriminate].
  binv H as quals s4 Hq. binv H as funcType s5 Hft.
  apply (returns_parseFuncType_refs _ _ _ Hrec) in Hft.
  binv H as ok3 s6 Hck3. destruct ok3; cbn [negb] in H;
    [|apply ret_inv in H; destruct H; subst;
      rewrite (checkResult_inv _ _ _ _ Hck3 eq_refl) in Hs; discriminate].
  binv H as e s7 He. inversion He; subst; clear He.
  destruct (sv_empty (_mangled s7)) eqn:Ee; cbn [negb] in H;
    [|inversion H; subst; discriminate].
  binv H as u0 s8 Hset. inversion Hset; subst; clear Hset.
  destruct absNameNode as [n|], funcType as [f|];
    inversion H; subst; cbn in *; try discriminate.
  now rewrite Hname, Hft.
Qed.

(** X19.  No reference to a reference is ever built.  In every node that
    [parseType] returns, and in the AST the parser hands out, at every
    depth, a [ReferenceTypeNode] has neither a [ReferenceTypeNode] nor an
    [RReferenceTypeNode] directly under it, and an [RReferenceTypeNode] has
    no [ReferenceTypeNode] directly under it.  (An r-value reference to an
    r-value reference is built.) *)
Theorem no_reference_to_reference :
  (forall buf fuel st node st',
      parseType buf fuel st = Some (Some node, st') ->
      refsOk node = true)
  /\ (forall fuel mangled st node,
      BorlandASTParser fuel mangled = Some st ->
      ast st = Some node ->
      refsOk node = true).
Proof.
  split.
  - intros buf fuel st node st' H.
    exact (returns_parseType buf fuel _ _ _ H).
  - intros fuel mangled st node H Hast. unfold BorlandASTParser in H.
    destruct (parse _ _ _ _) as [[u st0]|] eqn:E; [|discriminate].
    inversion H; subst; clear H.
    set (buf := list_ascii_of_string mangled) in *.
    unfold ast in Hast.
    destruct (Status_eqb (_status st) success) eqn:Es; [|discriminate].
    assert (Hs : _status st = success)
      by (destruct (_status st); (reflexivity || discriminate)).
    unfold parse in E. binv E as at_ s0 Hpeek.
    assert (Hs0 : s0 = initialState buf).
    { unfold peekChar, getMangled, bind, ret in Hpeek.
      destruct (negb _) in Hpeek; inversion Hpeek; reflexivity. }
    subst s0. binv E as u1 s1 Hfun. binv E as e s2 He.
    inversion He; subst; clear He.
    assert (Hst : st = s2).
    { destruct (negb _); inversion E; subst; [discriminate Hs|reflexivity]. }
    subst s2. clear E.
    destruct at_.
    + pose proof (parseFunction_refs _ _ _ _ _ _
                    (returns_parseType buf fuel) Hfun Hs) as Hr.
      rewrite Hast in Hr. exact Hr.
    + apply ret_inv in Hfun. destruct Hfun as [_ ->]. discriminate Hs.
Qed.

Lemma no_reference_to_reference_witness :
  let buf := list_ascii_of_string "hhpri" in
  let q := mkQualifiers false false in
  let node :=
    RReferenceTypeNode 4
      (RReferenceTypeNode 3
         (PointerTypeNode 2
            (ReferenceTypeNode 1 (IntegralTypeNode 0 "int" false q)) q)) in
  let st' := mkPState (mkStringView 5 5) in_progress None 5 [] in
  parseType buf 6 (initialState buf) = Some (Some node, st')
  /\ refsOk node = true.
Proof.
  intros buf q node st'.
  assert (H : parseType buf 6 (initialState buf) = Some (Some node, st'))
    by (vm_compute; reflexivity).
  split; [exact H|].
  exact (proj1 no_reference_to_reference buf 6 _ node st' H).
Defined.

(** ** The node of a type, by its first character *)

Lemma numberLoop_nonneg (buf : list ascii) (k : nat) :
  forall v acc, (0 <= acc)%Z -> (0 <= snd (numberLoop buf k v acc))%Z.
Proof.
  induction k as [|k IH]; intros v acc H; cbn [numberLoop]; [exact H|].
  destruct (_ && _); [|exact H].
  unfold sv_popFront. apply IH. apply wrapUnsigned_range.
Qed.

Lemma returns_parseNumber_nonneg (buf : list ascii) :
  Returns (fun n => (0 <= n)%Z) (parseNumber buf).
Proof.
  intros st n st' H.
  unfold parseNumber, getMangled, setMangled, setStatus, bind, ret in H.
  destruct (negb _); [destruct (Ascii.eqb _ _)|]; try (inversion H; lia).
  pose proof (numberLoop_nonneg buf (sv_size (_mangled st)) (_mangled st) 0%Z
                (Z.le_refl 0)) as Hn.
  destruct (numberLoop _ _ _ _) as [v' acc]. inversion H; subst. exact Hn.
Qed.

(** One step of a proof about the shape of the node a rule returns. *)
Ltac shape_step :=
  first [ apply returns_createPtr; intro; cbv beta; cbn; auto
        | apply returns_ret; cbv beta; cbn; auto
        | apply returns_bind_any; intro
        | match goal with
          | |- Returns _ (if ?b then _ else _) => destruct b eqn:?
          | |- Returns _ (match ?x with _ => _ end) => destruct x
          end ].

Section Shapes.

Variable buf : list ascii.
Variable parseType_rec : M (option Node).
Variable fuel : nat.

Lemma shape_parsePointer (quals : Qualifiers) :
  Returns (typeShape "p" quals) (parsePointer parseType_rec quals).
Proof. unfold parsePointer. repeat shape_step. Qed.

Lemma shape_parseReference :
  Returns (typeShape "r" (mkQualifiers false false))
    (parseReference buf parseType_rec fuel).
Proof. unfold parseReference. cbv zeta. repeat shape_step. Qed.

Lemma shape_parseRReference :
  Returns (typeShape "h" (mkQualifiers false false))
    (parseRReference buf parseType_rec fuel).
Proof. unfold parseRReference. cbv zeta. repeat shape_step. Qed.

Lemma shape_parseArray (quals : Qualifiers) :
  Returns (typeShape "a" quals) (parseArray buf parseType_rec quals).
Proof.
  unfold parseArray.
  eapply returns_bind; [apply returns_parseNumber_nonneg|].
  intros len Hlen. cbv beta in Hlen.
  destruct (len =? 0)%Z eqn:E; [repeat shape_step|].
  apply Z.eqb_neq in E.
  repeat shape_step. repeat split; try reflexivity. lia.
Qed.

Lemma shape_parseFuncType (quals : Qualifiers) :
  Returns (typeShape "q" quals) (parseFuncType buf parseType_rec fuel quals).
Proof. unfold parseFuncType. repeat shape_step. Qed.

Lemma shape_parseNamedType (c : ascii) (nameLen : Z) (quals : Qualifiers) :
  isDigit c = true -> c <> "0"%char ->
  Returns (typeShape c quals)
    (parseNamedType buf parseType_rec fuel nameLen quals).
Proof. intros Hd H0. unfold parseNamedType. cbv zeta. repeat shape_step. Qed.

Lemma kind_parseNamedType (nameLen : Z) (quals : Qualifiers) :
  Returns (fun o => match o with
                    | Some n => kind n = KNamedType
                    | None => True
                    end)
    (parseNamedType buf parseType_rec fuel nameLen quals).
Proof. unfold parseNamedType. cbv zeta. repeat shape_step. Qed.

End Shapes.

Lemma sv_startsWith_char_front (buf : list ascii) (c : ascii)
  (v : StringView) :
  sv_startsWith_char buf c v = true -> sv_front buf v = c.
Proof.
  unfold sv_startsWith_char. intros H. apply andb_true_iff in H.
  destruct H as [_ H]. now apply Ascii.eqb_eq.
Qed.

Lemma digit_not_letter (c x : ascii) :
  isDigit c = true -> isDigit x = false -> c <> x.
Proof. intros Hc Hx E. subst. congruence. Qed.

Lemma builtinLetter_not_digit (n : Node) (c : ascii) :
  builtinLetter n c -> isDigit c = false.
Proof.
  destruct n; cbn; try contradiction; intros H;
    repeat (destruct H as [<-|H]; [reflexivity|]); contradiction.
Qed.

(** Closes the case of [parseBuildInType] in which the character [c] was
    consumed and the node created. *)
Ltac letter H Hfront :=
  inversion H; subst;
  cbn [carriesQuals nodeQuals builtinLetter isBuiltInKind kind];
  rewrite Hfront; repeat split; cbn; tauto.

Lemma parseBuildInType_letter (buf : list ascii) (quals : Qualifiers)
  (st st' : PState) (n : Node) :
  parseBuildInType buf quals st = Some (Some n, st') ->
  First (_mangled st) <= Last (_mangled st) ->
  carriesQuals quals n
  /\ builtinLetter n (sv_front buf (_mangled st))
  /\ isBuiltInKind n = true.
Proof.
  intros H Hle. unfold parseBuildInType, consumeIfPossible,
    consumeIfPossible_sv in H.
  consume_cases H Hle as s1 Hsw1 Hcon;
    [letter H (sv_startsWith_char_front _ _ _ Hsw1)|].
  consume_cases H Hle as s2 Hsw2 Hcon;
    [letter H (sv_startsWith_char_front _ _ _ Hsw2)|].
  consume_cases H Hle as s3 Hsw3 Hcon;
    [letter H (sv_startsWith_char_front _ _ _ Hsw3)|].
  consume_cases H Hle as s4 Hsw4 Hcon;
    [letter H (proj2 (sv_startsWith_head _ _ _ _ Hsw4))|].
  consume_cases H Hle as s5 Hsw5 Hcon;
    [letter H (proj2 (sv_startsWith_head _ _ _ _ Hsw5))|].
  consume_cases H Hle as s6 Hsw6 Hcon;
    [letter H (sv_startsWith_char_front _ _ _ Hsw6)|].
  consume_cases H Hle as su Hswu Hconu.
  - pose proof (consumed_le _ _ _ Hconu) as (F1 & F2 & _).
    assert (Hle' : First (_mangled su) <= Last (_mangled su)).
    { unfold sv_startsWith_char, sv_empty in Hswu. apply andb_true_iff in Hswu.
      destruct Hswu as [E _]. apply negb_true_iff, Nat.eqb_neq in E. lia. }
    pose proof (sv_startsWith_char_front _ _ _ Hswu) as Hu.
    consume_cases H Hle' as s7 Hsw7 Hcon; [letter H Hu|].
    consume_cases H Hle' as s8 Hsw8 Hcon; [letter H Hu|].
    consume_cases H Hle' as s9 Hsw9 Hcon; [letter H Hu|].
    consume_cases H Hle' as s10 Hsw10 Hcon; [letter H Hu|].
    apply setInvalid_ret_inv in H. destruct H; discriminate.
  - consume_cases H Hle as s7 Hsw7 Hcon;
      [letter H (sv_startsWith_char_front _ _ _ Hsw7)|].
    consume_cases H Hle as s8 Hsw8 Hcon;
      [letter H (sv_startsWith_char_front _ _ _ Hsw8)|].
    consume_cases H Hle as s9 Hsw9 Hcon;
      [letter H (sv_startsWith_char_front _ _ _ Hsw9)|].
    consume_cases H Hle as s10 Hsw10 Hcon;
      [letter H (sv_startsWith_char_front _ _ _ Hsw10)|].
    consume_cases H Hle as s11 Hsw11 Hcon;
      [letter H (sv_startsWith_char_front _ _ _ Hsw11)|].
    consume_cases H Hle as s12 Hsw12 Hcon;
      [letter H (sv_startsWith_char_front _ _ _ Hsw12)|].
    consume_cases H Hle as s13 Hsw13 Hcon;
      [letter H (sv_startsWith_char_front _ _ _ Hsw13)|].
    inversion H.
Qed.

Lemma typeNodeAt_builtin (c : ascii) (n : Node) :
  isBuiltInKind n = true ->
  builtinLetter n c \/ (isDigit c = true /\ c <> "0"%char) ->
  typeNodeAt c n.
Proof. destruct n; cbn; intros Hk H; (discriminate Hk || exact H). Qed.

Lemma typeNodeAt_constructorKind (c : ascii) (n : Node) (k : Kind) :
  typeNodeAt c n -> constructorKind c = Some k -> kind n = k.
Proof.
  assert (Hd : isDigit c = true -> constructorKind c = None).
  { intros Hc. unfold constructorKind.
    repeat match goal with
           | |- context [Ascii.eqb c ?x] =>
               destruct (Ascii.eqb_spec c x) as [->|_]; [discriminate Hc|]
           end.
    reflexivity. }
  assert (Hl : builtinLetter n c -> constructorKind c = None).
  { destruct n; cbn; try contradiction; intros H;
      repeat (destruct H as [<-|H]; [reflexivity|]); contradiction. }
  destruct n; cbn [typeNodeAt kind]; intros H Hk; try contradiction;
    first [ subst c; cbn in Hk; congruence
          | destruct H as [-> _]; cbn in Hk; congruence
          | rewrite (Hd (proj1 H)) in Hk; discriminate Hk
          | destruct H as [H|[H _]];
            [rewrite (Hl H) in Hk|rewrite (Hd H) in Hk]; discriminate Hk ].
Qed.

Lemma parseType_body_shape (buf : list ascii) (rec : M (option Node))
  (fuel : nat) (st st' : PState) (n : Node) :
  First (_mangled st) <= Last (_mangled st) ->
  parseType_body buf rec fuel st = Some (Some n, st') ->
  exists quals s1,
    parseQualifiers buf st = Some (quals, s1)
    /\ carriesQuals quals n
    /\ typeNodeAt (sv_front buf (_mangled s1)) n
    /\ (isBuiltInKind n = true ->
        isDigit (sv_front buf (_mangled s1)) = true ->
        exists s2, parseNumber buf s1 = Some (0%Z, s2)
                   /\ First (_mangled s1) < First (_mangled s2)).
Proof.
  intros Hle H. unfold parseType_body, consumeIfPossible in H.
  binv H as quals s0 Hq. exists quals, s0. split; [exact Hq|].
  assert (Hle0 : First (_mangled s0) <= Last (_mangled s0)).
  { pose proof (respects_parseQualifiers _ _ (cursor_frame buf) _ _ _ Hq)
      as (_ & _ & Hin). now apply Hin. }
  assert (Hnone : isConst quals || isVolatile quals = false ->
                  quals = mkQualifiers false false).
  { destruct quals as [[|] [|]]; cbn; intros E;
      (reflexivity || discriminate E). }
  assert (Hcon : forall c,
             typeShape c quals (Some n) ->
             (c = "p" \/ c = "r" \/ c = "h" \/ c = "a" \/ c = "q")%char ->
             sv_front buf (_mangled s0) = c ->
             carriesQuals quals n
             /\ typeNodeAt (sv_front buf (_mangled s0)) n
             /\ (isBuiltInKind n = true ->
                 isDigit (sv_front buf (_mangled s0)) = true ->
                 exists s2, parseNumber buf s0 = Some (0%Z, s2)
                            /\ First (_mangled s0) < First (_mangled s2))).
  { intros c [Hc Ht] Hcs Hf. rewrite Hf. split; [exact Hc|]. split; [exact Ht|].
    intros _ Hd. exfalso.
    destruct Hcs as [ -> | [ -> | [ -> | [ -> | -> ] ] ] ]; discriminate Hd. }
  consume_cases H Hle0 as s1 Hp Hcon1.
  { apply (Hcon "p"%char); [exact (shape_parsePointer _ _ _ _ _ H)|tauto|].
    exact (sv_startsWith_char_front _ _ _ Hp). }
  consume_cases H Hle0 as s2 Hr Hcon1.
  { destruct (isConst quals || isVolatile quals) eqn:E;
      [apply setInvalid_ret_inv in H; destruct H; discriminate|].
    apply (Hcon "r"%char); [|tauto|exact (sv_startsWith_char_front _ _ _ Hr)].
    rewrite (Hnone eq_refl). exact (shape_parseReference _ _ _ _ _ _ H). }
  consume_cases H Hle0 as s3 Hh Hcon1.
  { destruct (isConst quals || isVolatile quals) eqn:E;
      [apply setInvalid_ret_inv in H; destruct H; discriminate|].
    apply (Hcon "h"%char); [|tauto|exact (sv_startsWith_char_front _ _ _ Hh)].
    rewrite (Hnone eq_refl). exact (shape_parseRReference _ _ _ _ _ _ H). }
  consume_cases H Hle0 as s4 Ha Hcon1.
  { apply (Hcon "a"%char); [exact (shape_parseArray _ _ _ _ _ _ H)|tauto|].
    exact (sv_startsWith_char_front _ _ _ Ha). }
  binv H as b s5 Hpk.
  assert (Hpk' : s5 = s0 /\ (b = true -> sv_front buf (_mangled s0) = "q"%char)).
  { unfold peekChar, getMangled, bind, ret in Hpk.
    destruct (negb (sv_empty (_mangled s0))); inversion Hpk; subst;
      (split; [reflexivity|]); [|discriminate].
    intros E. now apply Ascii.eqb_eq. }
  destruct Hpk' as [-> Hqc]. destruct b.
  { apply (Hcon "q"%char); [exact (shape_parseFuncType _ _ _ _ _ _ _ H)|tauto|].
    exact (Hqc eq_refl). }
  clear Hcon.
  binv H as len s6 Hnum.
  destruct (parseNumber_cases _ _ _ _ Hnum Hle0) as (_ & Hrange & Hcases).
  binv H as s s7 Hgs. inversion Hgs; subst s s7; clear Hgs.
  destruct Hcases as [(-> & -> & _)|[(-> & -> & _)|(e & He & -> & H0 & Hd & _)]].
  - destruct (Status_eqb _ _); [inversion H|].
    cbn [Z.ltb Z.compare] in H.
    destruct (parseBuildInType_letter _ _ _ _ _ H Hle0) as (Hc & Hl & Hk).
    split; [exact Hc|]. split; [apply typeNodeAt_builtin; auto|].
    intros _ Hdig. rewrite (builtinLetter_not_digit _ _ Hl) in Hdig.
    discriminate Hdig.
  - cbn in H. inversion H.
  - destruct (Status_eqb _ _); [inversion H|].
    assert (Hd0 : isDigit (sv_front buf (_mangled s0)) = true)
      by (apply Hd; lia).
    destruct (0 <? len)%Z eqn:Elen.
    + pose proof (shape_parseNamedType _ _ _ _ _ _ Hd0 H0 _ _ _ H) as [Hc Ht].
      split; [exact Hc|]. split; [exact Ht|].
      intros Hk. exfalso.
      pose proof (kind_parseNamedType _ _ _ _ _ _ _ _ H) as Hkn.
      cbv beta iota in Hkn. unfold isBuiltInKind in Hk. rewrite Hkn in Hk.
      discriminate Hk.
    + assert (len = 0%Z) by (apply Z.ltb_ge in Elen; lia). subst len.
      assert (Hle6 : First (_mangled (set_mangled
                        (mkStringView e (Last (_mangled s0))) s0))
                     <= Last (_mangled (set_mangled
                        (mkStringView e (Last (_mangled s0))) s0)))
        by (cbn; lia).
      destruct (parseBuildInType_letter _ _ _ _ _ H Hle6) as (Hc & _ & Hk).
      split; [exact Hc|]. split; [apply typeNodeAt_builtin; auto|].
      intros _ _. eexists. split; [exact Hnum|]. cbn. lia.
Qed.

(** X20.  The kind of a parsed type and its first character go together.
    When [parseType] returns a node, it carries exactly the qualifiers
    [parseQualifiers] reads at the cursor (a reference carries none, and
    none were read), and the character after them is the one of the node's
    kind: 'p' for a pointer, 'r' for a reference, 'h' for an r-value
    reference, 'a' for an array (of non-zero length), 'q' for a function
    type, a digit other than '0' for a named type, and for a node of a
    built-in kind the first letter of that kind, or else a digit other than
    '0' of a number field that [parseNumber] reads as 0 (it has wrapped
    around).  No other kind of node is returned.  Conversely each of 'p',
    'r', 'h', 'a', 'q' fixes the kind of the node; a digit does not. *)
Theorem parsed_type_shape :
  forall buf fuel st node st',
    First (_mangled st) <= Last (_mangled st) ->
    parseType buf fuel st = Some (Some node, st') ->
    exists quals s1,
      parseQualifiers buf st = Some (quals, s1)
      /\ carriesQuals quals node
      /\ typeNodeAt (sv_front buf (_mangled s1)) node
      /\ (isBuiltInKind node = true ->
          isDigit (sv_front buf (_mangled s1)) = true ->
          exists s2, parseNumber buf s1 = Some (0%Z, s2)
                     /\ First (_mangled s1) < First (_mangled s2))
      /\ (forall k, constructorKind (sv_front buf (_mangled s1)) = Some k ->
                    kind node = k).
Proof.
  intros buf fuel st node st' Hle H.
  destruct fuel as [|fuel]; [discriminate H|]. cbn [parseType] in H.
  destruct (parseType_body_shape _ _ _ _ _ _ Hle H)
    as (quals & s1 & Hq & Hc & Ht & Hw).
  exists quals, s1. repeat split; try assumption.
  intros k Hk. exact (typeNodeAt_constructorKind _ _ _ Ht Hk).
Qed.

Lemma parsed_type_shape_witness :
  let buf := list_ascii_of_string "x4294967296i" in
  let q := mkQualifiers false true in
  let node := IntegralTypeNode 0 "int" false q in
  let st' := mkPState (mkStringView 12 12) in_progress None 1 [] in
  parseType buf 3 (initialState buf) = Some (Some node, st')
  /\ exists quals s1,
       parseQualifiers buf (initialState buf) = Some (quals, s1)
       /\ carriesQuals quals node
       /\ typeNodeAt (sv_front buf (_mangled s1)) node
       /\ (isBuiltInKind node = true ->
           isDigit (sv_front buf (_mangled s1)) = true ->
           exists s2, parseNumber buf s1 = Some (0%Z, s2)
                      /\ First (_mangled s1) < First (_mangled s2))
       /\ (forall k, constructorKind (sv_front buf (_mangled s1)) = Some k ->
                     kind node = k).
Proof.
  intros buf q node st'.
  assert (H : parseType buf 3 (initialState buf) = Some (Some node, st'))
    by (vm_compute; reflexivity).
  assert (Hle : First (_mangled (initialState buf))
                <= Last (_mangled (initialState buf))) by (cbn; lia).
  split; [exact H|].
  exact (parsed_type_shape buf 3 (initialState buf) node st' Hle H).
Defined.

(** * Number fields as the parser reads them *)

Lemma wrapUnsigned_small (z : Z) :
  (0 <= z < 2 ^ UINT_WIDTH)%Z -> wrapUnsigned z = z.
Proof. intros H. unfold wrapUnsigned. now apply Z.mod_small. Qed.

Lemma wrapUnsigned_step (a d : Z) :
  wrapUnsigned (10 * wrapUnsigned a + d) = wrapUnsigned (10 * a + d).
Proof.
  unfold wrapUnsigned.
  rewrite <- Z.add_mod_idemp_l by (cbn; lia).
  rewrite Z.mul_mod_idemp_r by (cbn; lia).
  rewrite Z.add_mod_idemp_l by (cbn; lia). reflexivity.
Qed.

Lemma wrapUnsigned_digit (a d : Z) :
  wrapUnsigned (10 * a + wrapUnsigned d) = wrapUnsigned (10 * a + d).
Proof. unfold wrapUnsigned. now rewrite Z.add_mod_idemp_r by (cbn; lia). Qed.

Lemma decimalFrom_wrap (digits : list ascii) :
  forall a,
    wrapUnsigned (decimalFrom (wrapUnsigned a) digits)
    = wrapUnsigned (decimalFrom a digits).
Proof.
  induction digits as [|c l IH]; intros a; cbn [decimalFrom fold_left].
  - unfold wrapUnsigned. now rewrite Z.mod_mod by (cbn; lia).
  - fold (decimalFrom (10 * wrapUnsigned a + digitOf c) l).
    fold (decimalFrom (10 * a + digitOf c) l).
    rewrite <- (IH (10 * wrapUnsigned a + digitOf c)%Z).
    rewrite <- (IH (10 * a + digitOf c)%Z).
    now rewrite wrapUnsigned_step.
Qed.

Lemma charsBetween_nil (buf : list ascii) (a : nat) : charsBetween buf a a = [].
Proof. unfold charsBetween. now rewrite Nat.sub_diag. Qed.

Lemma charsBetween_cons (buf : list ascii) (a e : nat) :
  a < e -> a < List.length buf ->
  charsBetween buf a e = charAt buf a :: charsBetween buf (S a) e.
Proof.
  intros Hae Ha. unfold charsBetween, charAt.
  rewrite (skipn_nth_cons buf a Ha).
  replace (e - a) with (S (e - S a)) by lia. reflexivity.
Qed.

(** The digit loop computes the declared number modulo [2^32]. *)
Lemma numberLoop_decimal (buf : list ascii) (k : nat) :
  forall (v : StringView) (acc : Z),
    Last v - First v <= k ->
    First v <= Last v ->
    Last v <= List.length buf ->
    (0 <= acc < 2 ^ UINT_WIDTH)%Z ->
    snd (numberLoop buf k v acc)
    = wrapUnsigned
        (decimalFrom acc
           (charsBetween buf (First v) (First (fst (numberLoop buf k v acc))))).
Proof.
  induction k as [|k IH]; intros v acc Hk Hle Hlen Hacc; cbn [numberLoop].
  - cbn [fst snd]. rewrite charsBetween_nil. cbn.
    symmetry. now apply wrapUnsigned_small.
  - destruct (sv_empty v) eqn:Ee; cbn [negb andb].
    + cbn [fst snd]. rewrite charsBetween_nil. cbn.
      symmetry. now apply wrapUnsigned_small.
    + unfold sv_empty in Ee. apply Nat.eqb_neq in Ee.
      destruct (isDigit (sv_front buf v)) eqn:Ed.
      * unfold sv_popFront.
        set (v' := mkStringView (S (First v)) (Last v)).
        set (acc' := wrapUnsigned (10 * acc + digitValue (charAt buf (First v)))).
        pose proof (numberLoop_spec buf k v' acc'
                      ltac:(cbn; lia) ltac:(cbn; lia)
                      (wrapUnsigned_range _)) as Hs.
        cbn zeta in Hs. destruct Hs as (_ & Hf & _).
        rewrite (IH v' acc' ltac:(cbn; lia) ltac:(cbn; lia) Hlen
                   (wrapUnsigned_range _)).
        cbn [First Last v'] in *.
        rewrite (charsBetween_cons buf (First v)) by lia.
        set (rest := charsBetween buf (S (First v))
                       (First (fst (numberLoop buf k v' acc')))).
        change (decimalFrom acc (charAt buf (First v) :: rest))
          with (decimalFrom (10 * acc + digitOf (charAt buf (First v))) rest).
        assert (Ea : acc' = wrapUnsigned
                              (10 * acc + digitOf (charAt buf (First v)))).
        { unfold acc', digitValue.
          change (Z.of_nat (nat_of_ascii (charAt buf (First v)))
                  - Z.of_nat (nat_of_ascii "0"))%Z
            with (digitOf (charAt buf (First v))).
          apply wrapUnsigned_digit. }
        rewrite Ea. apply decimalFrom_wrap.
      * cbn [fst snd]. rewrite charsBetween_nil. cbn.
        symmetry. now apply wrapUnsigned_small.
Qed.

(** On a number field, [parseNumber] returns the declared number modulo
    [2^32] and leaves the cursor after the digits; [peekNumber] returns the
    same number. *)
Lemma parseNumber_field (buf : list ascii) (st : PState) (e : nat) :
  numberField buf (_mangled st) e ->
  parseNumber buf st
  = Some (wrapUnsigned
            (decimalValue (charsBetween buf (First (_mangled st)) e)),
          set_mangled (mkStringView e (Last (_mangled st))) st)
  /\ peekNumber buf st
     = Some (wrapUnsigned
               (decimalValue (charsBetween buf (First (_mangled st)) e)),
             st).
Proof.
  intros (He & Hlen & H0 & Hd & Hstop).
  assert (Hne : sv_empty (_mangled st) = false)
    by (unfold sv_empty; apply Nat.eqb_neq; lia).
  assert (Hz : Ascii.eqb (sv_front buf (_mangled st)) "0" = false)
    by (apply Ascii.eqb_neq; exact H0).
  pose proof (numberLoop_spec buf (sv_size (_mangled st)) (_mangled st) 0%Z
                ltac:(unfold sv_size; lia) ltac:(lia) ltac:(cbn; lia)) as Hs.
  pose proof (numberLoop_decimal buf (sv_size (_mangled st)) (_mangled st) 0%Z
                ltac:(unfold sv_size; lia) ltac:(lia) Hlen ltac:(cbn; lia))
    as Hv.
  cbn zeta in Hs.
  unfold parseNumber, peekNumber, getMangled, setMangled, bind, ret.
  rewrite Hne, Hz. cbn [negb].
  destruct (numberLoop buf _ _ _) as [v' acc]. cbn [fst snd] in *.
  destruct Hs as (H1 & H2 & H3 & H4 & _).
  assert (E : First v' = e).
  { destruct (Nat.lt_trichotomy (First v') e) as [Hlt|[Heq|Hgt]];
      [|exact Heq|].
    - exfalso. destruct H4 as [H4|H4]; [lia|].
      rewrite (Hd (First v') ltac:(lia)) in H4. discriminate H4.
    - exfalso. destruct Hstop as [Hstop|Hstop]; [lia|].
      rewrite (H3 e ltac:(lia)) in Hstop. discriminate Hstop. }
  rewrite E in Hv. unfold decimalValue. rewrite Hv.
  destruct v' as [f l]. cbn in *. subst. split; reflexivity.
Qed.

Lemma isDigit_startsWith_char (buf : list ascii) (v : StringView) (x : ascii) :
  isDigit (sv_front buf v) = true -> isDigit x = false ->
  sv_startsWith_char buf x v = false.
Proof.
  intros Hd Hx. unfold sv_startsWith_char.
  destruct (Ascii.eqb_spec (sv_front buf v) x) as [E|_];
    [|now rewrite andb_false_r].
  rewrite E in Hd. congruence.
Qed.

(** [parseType] on a number field: the number is read, and the rest is a
    named type of that length, or a built-in type when the number is 0. *)
Lemma parseType_body_number_field (buf : list ascii) (rec : M (option Node))
  (fuel : nat) (st : PState) (e : nat) :
  numberField buf (_mangled st) e ->
  let L := wrapUnsigned
             (decimalValue (charsBetween buf (First (_mangled st)) e)) in
  let quals := mkQualifiers false false in
  parseType_body buf rec fuel st
  = (s <- getStatus ;;
     if Status_eqb s invalid_mangled_name then ret None else
     if (0 <? L)%Z then parseNamedType buf rec fuel L quals else
     parseBuildInType buf quals)
      (set_mangled (mkStringView e (Last (_mangled st))) st).
Proof.
  intros Hfield L quals.
  pose proof Hfield as (He & Hlen & H0 & Hd & Hstop).
  assert (Hdig : isDigit (sv_front buf (_mangled st)) = true)
    by (apply Hd; lia).
  assert (Hmiss : forall x, isDigit x = false ->
                            consumeFront buf x st = Some (false, st)).
  { intros x Hx. apply consumeFront_miss.
    now apply isDigit_startsWith_char. }
  assert (Hquals : parseQualifiers buf st = Some (quals, st)).
  { unfold parseQualifiers, consumeIfPossible.
    rewrite (bind_Some _ _ _ _ _ (Hmiss "w"%char eq_refl)).
    rewrite (bind_Some _ _ _ _ _ (Hmiss "x"%char eq_refl)). reflexivity. }
  assert (Hq : peekChar buf "q" st = Some (false, st)).
  { pose proof (isDigit_startsWith_char buf (_mangled st) "q" Hdig eq_refl)
      as X.
    unfold sv_startsWith_char in X.
    unfold peekChar, getMangled, bind, ret.
    destruct (negb (sv_empty (_mangled st))); [|reflexivity].
    cbn [andb] in X. now rewrite X. }
  unfold parseType_body, consumeIfPossible.
  rewrite (bind_Some _ _ _ _ _ Hquals).
  rewrite (bind_Some _ _ _ _ _ (Hmiss "p"%char eq_refl)). cbv beta iota.
  rewrite (bind_Some _ _ _ _ _ (Hmiss "r"%char eq_refl)). cbv beta iota.
  rewrite (bind_Some _ _ _ _ _ (Hmiss "h"%char eq_refl)). cbv beta iota.
  rewrite (bind_Some _ _ _ _ _ (Hmiss "a"%char eq_refl)). cbv beta iota.
  rewrite (bind_Some _ _ _ _ _ Hq). cbv beta iota.
  rewrite (bind_Some _ _ _ _ _ (proj1 (parseNumber_field buf st e Hfield))).
  reflexivity.
Qed.

(** ** Declared lengths *)




(** ** Backreferences in the lists the rules return *)

Lemma parseTemplate_end_body_post (buf : list ascii) (rec : M (option Node))
  (params : list Node) (st st' : PState) (ctl : LoopCtl (list Node)) :
  parseTemplate_end_body buf rec params st = Some (ctl, st') ->
  match ctl with
  | Continue params' => exists extra, params' = params ++ extra
  | Exit r => r = params
  end.
Proof.
  unfold parseTemplate_end_body. intros H.
  binv H as t s1 Ht. binv H as resolved s2 Hres.
  destruct resolved as [params'|].
  - apply ret_inv in H. destruct H; subst.
    destruct t; [|inversion Hres].
    binv Hres as backref s3 Hp.
    destruct (_ && _); [|inversion Hres].
    binv Hres as x s4 Hn. inversion Hres; subst. apply addBackref_extends.
  - binv H as typeNode s3 Hty. binv H as s s4 Hgs.
    destruct typeNode as [n|].
    + destruct (Status_eqb _ _); apply ret_inv in H; destruct H; subst;
        [reflexivity|now exists [n]].
    + apply ret_inv in H. destruct H; subst. reflexivity.
Qed.

Lemma parseTemplate_end_loop_post (buf : list ascii) (rec : M (option Node))
  (k : nat) :
  forall (params : list Node) (st st' : PState) (l : list Node),
    parseTemplate_end_loop buf rec k params st = Some (l, st') ->
    exists extra, l = params ++ extra.
Proof.
  induction k as [|k IH]; intros params st st' l H;
    cbn [parseTemplate_end_loop] in H; [discriminate|].
  binv H as p s1 Hp. destruct (negb p).
  - binv H as ctl s2 Hb. apply parseTemplate_end_body_post in Hb.
    destruct ctl as [params'|r].
    + destruct Hb as [extra ->]. apply IH in H. destruct H as [extra' ->].
      exists (extra ++ extra'). now rewrite app_assoc.
    + apply ret_inv in H. destruct H; subst. exists []. now rewrite app_nil_r.
  - apply ret_inv in H. destruct H; subst. exists []. now rewrite app_nil_r.
Qed.

Lemma nth_error_shared (params extra : list Node) (h : Node) (i : nat) :
  nth_error params i = Some h ->
  nth_error ((params ++ [h]) ++ extra) i = Some h
  /\ nth_error ((params ++ [h]) ++ extra) (List.length params) = Some h.
Proof.
  intros H.
  assert (Hi : i < List.length params)
    by (apply nth_error_Some; congruence).
  split.
  - rewrite nth_error_app1 by (rewrite length_app; cbn; lia).
    now rewrite nth_error_app1 by exact Hi.
  - rewrite <- app_assoc. rewrite nth_error_app2 by lia.
    now rewrite Nat.sub_diag.
Qed.

Section BackrefLists.

Variable buf : list ascii.
Variable rec : M (option Node).
Variable params : list Node.
Variable st : PState.
Variable e : nat.
Variable h : Node.
Let st1 := set_mangled (sv_dropFront 1 (_mangled st)) st.
Let n := wrapUnsigned
           (decimalValue (charsBetween buf (First (_mangled st1)) e)).
Let st' := set_mangled (mkStringView e (Last (_mangled st))) st.
Hypothesis Ht : sv_startsWith_char buf "t" (_mangled st) = true.
Hypothesis Hfield : numberField buf (_mangled st1) e.
Hypothesis Hn : (0 < n <= Z.of_nat (List.length params))%Z.
Hypothesis Hh : nth_error params (Z.to_nat (n - 1)) = Some h.

Lemma backref_field_peek : peekNumber buf st1 = Some (n, st1).
Proof. exact (proj2 (parseNumber_field buf st1 e Hfield)). Qed.

Lemma backref_field_cursor :
  set_mangled
    (fst (numberLoop buf (sv_size (_mangled st1)) (_mangled st1) 0%Z)) st
  = st'.
Proof.
  pose proof (proj1 (parseNumber_field buf st1 e Hfield)) as H1.
  pose proof (parseNumber_nonzero buf st1 n backref_field_peek
                ltac:(lia)) as H2.
  fold n in H1. rewrite H1 in H2. inversion H2 as [E].
  unfold st', st1. cbn [_mangled set_mangled]. rewrite <- E. reflexivity.
Qed.

Lemma backref_front :
  sv_empty (_mangled st) = false /\ sv_front buf (_mangled st) = "t"%char.
Proof.
  unfold sv_startsWith_char in Ht. apply andb_true_iff in Ht.
  destruct Ht as [H1 H2]. apply negb_true_iff in H1.
  apply Ascii.eqb_eq in H2. auto.
Qed.

Lemma parseTemplateParams_body_backref :
  parseTemplateParams_body buf rec params st
  = Some (Continue (params ++ [h]), st').
Proof.
  rewrite <- (addBackref_nth params n h Hh), <- backref_field_cursor.
  exact (parseTemplateParams_body_hit buf rec params st n Ht
           backref_field_peek Hn).
Qed.

Lemma parseTemplate_end_body_backref :
  parseTemplate_end_body buf rec params st
  = Some (Continue (params ++ [h]), st').
Proof.
  rewrite <- (addBackref_nth params n h Hh), <- backref_field_cursor.
  exact (parseTemplate_end_body_hit buf rec params st n Ht
           backref_field_peek Hn).
Qed.

Lemma parseFuncParams_body_backref :
  _status st = in_progress ->
  parseFuncParams_body buf rec params st
  = Some (Continue (params ++ [h]), st').
Proof.
  intros Hs.
  rewrite <- (addBackref_nth params n h Hh), <- backref_field_cursor.
  exact (parseFuncParams_body_hit buf rec params st n Ht
           backref_field_peek Hs Hn).
Qed.

Lemma parseTemplateParams_loop_backref (k id : nat) :
  parseTemplateParams_loop buf rec (S k) id params st
  = parseTemplateParams_loop buf rec k id (params ++ [h]) st'.
Proof.
  destruct backref_front as [He Hf].
  cbn [parseTemplateParams_loop].
  assert (Hfr : front buf st = Some ("t"%char, st)).
  { unfold front, getMangled, recordFault, bind, ret. now rewrite He, Hf. }
  rewrite (bind_Some _ _ _ _ _ Hfr). cbn [Ascii.eqb Bool.eqb negb andb].
  now rewrite (bind_Some _ _ _ _ _ parseTemplateParams_body_backref).
Qed.

Lemma parseTemplate_end_loop_backref (k : nat) :
  parseTemplate_end_loop buf rec (S k) params st
  = parseTemplate_end_loop buf rec k (params ++ [h]) st'.
Proof.
  destruct backref_front as [He Hf].
  cbn [parseTemplate_end_loop].
  assert (Hpk : peekChar buf "%" st = Some (false, st)).
  { unfold peekChar, getMangled, bind, ret. now rewrite He, Hf. }
  rewrite (bind_Some _ _ _ _ _ Hpk). cbn [negb].
  now rewrite (bind_Some _ _ _ _ _ parseTemplate_end_body_backref).
Qed.

Lemma parseFuncParams_loop_backref (k id : nat) :
  _status st = in_progress ->
  parseFuncParams_loop buf rec (S k) id params st
  = parseFuncParams_loop buf rec k id (params ++ [h]) st'.
Proof.
  intros Hs. destruct backref_front as [He Hf].
  cbn [parseFuncParams_loop].
  unfold bind at 1, empty, getMangled, bind, ret. rewrite He.
  unfold statusOk, getStatus, bind, ret. rewrite Hs.
  unfold peekChar, getMangled, bind, ret. rewrite He, Hf.
  cbn [negb andb Status_eqb Ascii.eqb Bool.eqb].
  now rewrite (parseFuncParams_body_backref Hs).
Qed.

End BackrefLists.



